(** * SmartMapSearch: the query interpretation and resolution pipeline

    A shallow embedding of [src/services/mistral.ts] (tag validation, intent
    resolution, query synthesis, geocode lookup with its fallbacks), of the
    ranking code and the state of [src/App.tsx], of the bounds and the zoom
    level of [src/components/Map.tsx] and of the resolver of
    [src/services/openai.ts], followed by the properties of the specification
    that were checked against it and by further properties of the code.

    - JavaScript values are an inductive type; numbers are IEEE binary64
      ([PrimFloat]), strings are their UTF-8 bytes, objects are association
      lists in property order.
    - The language model, the tag registry and the geocoder are a [World]
      that answers each request; every awaited call appends to a log, so that
      a property can speak about which requests were issued.
    - [try]/[catch] is an error monad over that log. *)

From Stdlib Require Import ZArith List String Ascii Bool Lia Floats.
From Stdlib Require Import DecimalString Sorted Permutation.
Import ListNotations.

Set Warnings "-inexact-float,-register-all".
Local Open Scope list_scope.
Local Open Scope string_scope.

(* ================================================================== *)
(** * The fragment of ECMAScript the pipeline uses *)

Module JS.

(** A JavaScript value as [JSON.parse] builds it, plus [undefined]. Objects
    keep their properties in creation order and have distinct keys. *)
Inductive value : Type :=
| JUndefined
| JNull
| JBool (b : bool)
| JNum (x : float)
| JStr (s : string)
| JArr (items : list value)
| JObj (props : list (string * value)).

(** Exceptions that the modelled code can raise. *)
Inductive exn : Type :=
| TypeError          (* property read of null/undefined, call of a non-function *)
| SyntaxError        (* JSON.parse, response.json() *)
| NetworkError       (* a rejected fetch or model call *)
| ZodError           (* schema.parse *)
| Error (msg : string).

(** How an evaluation ends. [Unmodelled] marks a coercion this fragment does
    not define (StringToNumber, a named property stored on an array); it is not
    an exception and no [catch] handles it. *)
Inductive completion (A : Type) : Type :=
| Normal (a : A)
| Throw (e : exn)
| Unmodelled.
Arguments Normal {A} a.
Arguments Throw {A} e.
Arguments Unmodelled {A}.

Definition bind {A B : Type} (m : completion A) (k : A -> completion B)
  : completion B :=
  match m with
  | Normal a => k a
  | Throw e => Throw e
  | Unmodelled => Unmodelled
  end.

Notation "'let*' x ':=' m 'in' k" := (bind m (fun x => k))
  (at level 10, x name, m at level 100, k at level 200).

Fixpoint lookup {A : Type} (k : string) (props : list (string * A)) : option A :=
  match props with
  | [] => None
  | (k', v) :: rest => if String.eqb k k' then Some v else lookup k rest
  end.

Definition has_own {A : Type} (k : string) (props : list (string * A)) : bool :=
  match lookup k props with Some _ => true | None => false end.

(** [props[k]], [undefined] when the object has no such property. *)
Definition field (props : list (string * value)) (k : string) : value :=
  match lookup k props with Some x => x | None => JUndefined end.

(** [o[k] = v] on an ordinary object: an existing property keeps its place. *)
Fixpoint store (k : string) (v : value) (props : list (string * value))
  : list (string * value) :=
  match props with
  | [] => [(k, v)]
  | (k', v') :: rest =>
      if String.eqb k k' then (k, v) :: rest else (k', v') :: store k v rest
  end.

(** [v.k] for a property name [k] that no built-in prototype defines (every
    name read by the pipeline except [length] and [some], which have their own
    definitions below). Reading a property of [undefined] or [null] raises. *)
Definition get (v : value) (k : string) : completion value :=
  match v with
  | JUndefined | JNull => Throw TypeError
  | JObj props => Normal (field props k)
  | JBool _ | JNum _ | JStr _ | JArr _ => Normal JUndefined
  end.

(** [v?.k] *)
Definition get_opt (v : value) (k : string) : completion value :=
  match v with
  | JUndefined | JNull => Normal JUndefined
  | _ => get v k
  end.

Definition is_nan (x : float) : bool := negb (PrimFloat.eqb x x).

(** ToBoolean *)
Definition truthy (v : value) : bool :=
  match v with
  | JUndefined | JNull => false
  | JBool b => b
  | JNum x => negb (PrimFloat.eqb x 0 || is_nan x)
  | JStr s => negb (String.eqb s "")
  | JArr _ | JObj _ => true
  end.

(** [a || b] *)
Definition or_else (a b : value) : value := if truthy a then a else b.

(** [a === b] for two values that do not share an object: objects and arrays
    are compared by identity, so two separately parsed ones are never equal. *)
Definition strict_eq (a b : value) : bool :=
  match a, b with
  | JUndefined, JUndefined => true
  | JNull, JNull => true
  | JBool x, JBool y => Bool.eqb x y
  | JNum x, JNum y => PrimFloat.eqb x y
  | JStr x, JStr y => String.eqb x y
  | _, _ => false
  end.

(** ** Number::toString(x), radix 10

    The shortest decimal [s * 10^(n-k)] that reads back as [x], chosen
    closest to [x], laid out as ECMA-262 prescribes. *)

Local Open Scope Z_scope.

Definition decimal (z : Z) : string := NilZero.string_of_uint (N.to_uint (Z.to_N z)).

Fixpoint zeros (n : nat) : string :=
  match n with O => "" | S n' => String "0" (zeros n') end.

Fixpoint take (n : nat) (s : string) : string :=
  match n, s with
  | S n', String c s' => String c (take n' s')
  | _, _ => ""
  end.

Fixpoint drop (n : nat) (s : string) : string :=
  match n, s with
  | S n', String _ s' => drop n' s'
  | _, _ => s
  end.

(** The integers [s] with [lo <= s * 10^p <= hi] (bounds strict when the
    mantissa is odd), where lo, v, hi are [nlo/d], [nv/d], [nhi/d]; returns
    the one closest to v, the even one on a tie. *)
Definition closest_multiple (incl : bool) (nlo nv nhi d : Z) (p : Z) : option Z :=
  let up := 10 ^ Z.max (- p) 0 in
  let den := d * 10 ^ Z.max p 0 in
  let lo := nlo * up in
  let v := nv * up in
  let hi := nhi * up in
  let smin :=
    if (lo mod den =? 0) then (if incl then lo / den else lo / den + 1)
    else lo / den + 1 in
  let smax :=
    if (hi mod den =? 0) then (if incl then hi / den else hi / den - 1)
    else hi / den in
  if (smin <=? smax) && (1 <=? smax) then
    let f := v / den in
    let c := if v mod den =? 0 then f else f + 1 in
    let df := v - f * den in
    let dc := c * den - v in
    Some (if f <? smin then c
          else if smax <? c then f
          else if df <? dc then f
          else if dc <? df then c
          else if Z.even f then f else c)
  else None.

Fixpoint shortest (fuel : nat) (incl : bool) (nlo nv nhi d : Z) (p : Z) : Z * Z :=
  match closest_multiple incl nlo nv nhi d p with
  | Some s => (s, p)
  | None =>
      match fuel with
      | O => (0, p)
      | S fuel' => shortest fuel' incl nlo nv nhi d (p - 1)
      end
  end.

(** Digits and decimal exponent of the positive binary64 number [m * 2^e]. *)
Definition shortest_digits (m e : Z) : Z * Z :=
  let a := 2 ^ Z.max (e - 2) 0 in
  let d := 2 ^ Z.max (2 - e) 0 in
  let nv := 4 * m * a in
  let nhi := (4 * m + 2) * a in
  let nlo := (if (m =? 2 ^ 52) && (-1074 <? e) then 4 * m - 1 else 4 * m - 2) * a in
  let p0 := ((Z.log2 nhi - Z.log2 d + 1) * 30103) / 100000 + 1 in
  shortest 40 (Z.even m) nlo nv nhi d p0.

Definition layout (s p : Z) : string :=
  let ds := decimal s in
  let k := Z.of_nat (String.length ds) in
  let n := p + k in
  if (k <=? n) && (n <=? 21) then ds ++ zeros (Z.to_nat (n - k))
  else if (0 <? n) && (n <=? 21) then
    take (Z.to_nat n) ds ++ "." ++ drop (Z.to_nat n) ds
  else if (-6 <? n) && (n <=? 0) then "0." ++ zeros (Z.to_nat (- n)) ++ ds
  else
    let ex := (if 0 <=? n - 1 then "+" else "-") ++ decimal (Z.abs (n - 1)) in
    if k =? 1 then ds ++ "e" ++ ex
    else take 1 ds ++ "." ++ drop 1 ds ++ "e" ++ ex.

Definition number_to_string (x : float) : string :=
  match Prim2SF x with
  | S754_nan => "NaN"
  | S754_zero _ => "0"
  | S754_infinity neg => if neg then "-Infinity" else "Infinity"
  | S754_finite neg m e =>
      let '(s, p) := shortest_digits (Z.pos m) e in
      (if neg then "-" else "") ++ layout s p
  end.

Local Close Scope Z_scope.

(** ** ToString, the operators and the property writes that the code applies *)

(** [items.join(sep)], given how an element is printed. *)
Fixpoint join_by (print : value -> completion string) (sep : string)
    (items : list value) : completion string :=
  match items with
  | [] => Normal ""
  | x :: rest =>
      let* sx := match x with
                 | JUndefined | JNull => Normal ""
                 | _ => print x
                 end in
      match rest with
      | [] => Normal sx
      | _ => let* sr := join_by print sep rest in Normal (sx ++ sep ++ sr)
      end
  end.

(** ToString of a value built by [JSON.parse]. A plain object prints as
    [[object Object]] unless it carries an own [toString] property, which is
    then not callable; an array joins its elements with commas. *)
Fixpoint to_string (v : value) : completion string :=
  match v with
  | JUndefined => Normal "undefined"
  | JNull => Normal "null"
  | JBool b => Normal (if b then "true" else "false")
  | JNum x => Normal (number_to_string x)
  | JStr s => Normal s
  | JArr items => join_by to_string "," items
  | JObj props =>
      if has_own "toString" props then Throw TypeError
      else Normal "[object Object]"
  end.

Definition join (sep : string) (items : list value) : completion string :=
  join_by to_string sep items.

(** ToNumber, except on strings and objects. *)
Definition to_number (v : value) : completion float :=
  match v with
  | JUndefined => Normal nan
  | JNull => Normal 0%float
  | JBool b => Normal (if b then 1%float else 0%float)
  | JNum x => Normal x
  | JStr _ | JArr _ | JObj _ => Unmodelled
  end.

(** [a * b] and [a - b] *)
Definition times (a b : value) : completion value :=
  let* x := to_number a in let* y := to_number b in Normal (JNum (x * y)%float).

Definition minus (a b : value) : completion value :=
  let* x := to_number a in let* y := to_number b in Normal (JNum (x - y)%float).

(** ToPrimitive with no hint, on values built by [JSON.parse]. *)
Definition to_primitive (v : value) : completion value :=
  match v with
  | JArr _ | JObj _ => let* s := to_string v in Normal (JStr s)
  | _ => Normal v
  end.

(** [a + b]: concatenation as soon as one side is a string. *)
Definition plus (a b : value) : completion value :=
  let* pa := to_primitive a in
  let* pb := to_primitive b in
  match pa, pb with
  | JStr _, _ | _, JStr _ =>
      let* sa := to_string pa in let* sb := to_string pb in Normal (JStr (sa ++ sb))
  | _, _ =>
      let* x := to_number pa in let* y := to_number pb in Normal (JNum (x + y)%float)
  end.

(** [o.k = v] in strict-mode code. *)
Definition set (o : value) (k : string) (v : value) : completion value :=
  match o with
  | JObj props => Normal (JObj (store k v props))
  | JArr _ => Unmodelled
  | _ => Throw TypeError
  end.

(** [v.length === 0] *)
Definition length_is_zero (v : value) : completion bool :=
  match v with
  | JUndefined | JNull => Throw TypeError
  | JArr items => Normal (match items with [] => true | _ => false end)
  | JStr s => Normal (String.eqb s "")
  | JObj props =>
      Normal (match lookup "length" props with
              | Some x => strict_eq x (JNum 0%float)
              | None => false
              end)
  | JBool _ | JNum _ => Normal false
  end.

(** ** Percent-encoding *)

Definition is_alnum (c : ascii) : bool :=
  let n := nat_of_ascii c in
  ((48 <=? n) && (n <=? 57) || (65 <=? n) && (n <=? 90)
   || (97 <=? n) && (n <=? 122))%nat.

Definition one_of (set : string) (c : ascii) : bool :=
  existsb (Ascii.eqb c) (list_ascii_of_string set).

Definition hex_digit (n : nat) : ascii :=
  nth n (list_ascii_of_string "0123456789ABCDEF") "0"%char.

Definition percent (c : ascii) : string :=
  let n := nat_of_ascii c in
  String "%" (String (hex_digit (n / 16)) (String (hex_digit (n mod 16)) "")).

(** [encodeURIComponent(s)] on a well-formed string: every UTF-8 byte but
    the unreserved marks is escaped. *)
Fixpoint encodeURIComponent (s : string) : string :=
  match s with
  | "" => ""
  | String c rest =>
      (if is_alnum c || one_of "-_.!~*'()" c then String c "" else percent c)
      ++ encodeURIComponent rest
  end.

(** The application/x-www-form-urlencoded byte serializer. *)
Fixpoint form_urlencode (s : string) : string :=
  match s with
  | "" => ""
  | String c rest =>
      (if Ascii.eqb c " " then "+"
       else if is_alnum c || one_of "*-._" c then String c ""
       else percent c)
      ++ form_urlencode rest
  end.

(** [new URLSearchParams()] after its [append] calls, and its [toString()]. *)
Definition URLSearchParams : Type := list (string * string).

Definition append (params : URLSearchParams) (name val : string)
  : URLSearchParams :=
  (params ++ [(name, val)])%list.

Fixpoint URLSearchParams_toString (params : URLSearchParams) : string :=
  match params with
  | [] => ""
  | (n, v) :: rest =>
      form_urlencode n ++ "=" ++ form_urlencode v
      ++ match rest with [] => "" | _ => "&" ++ URLSearchParams_toString rest end
  end.

(** ** Induction over values, through the arrays and the objects *)

Section ValueInduction.
Variable P : value -> Prop.
Hypothesis P_undefined : P JUndefined.
Hypothesis P_null : P JNull.
Hypothesis P_bool : forall b, P (JBool b).
Hypothesis P_num : forall x, P (JNum x).
Hypothesis P_str : forall s, P (JStr s).
Hypothesis P_arr : forall items, Forall P items -> P (JArr items).
Hypothesis P_obj : forall props, Forall (fun kv => P (snd kv)) props -> P (JObj props).

Fixpoint value_induction (v : value) : P v :=
  match v with
  | JUndefined => P_undefined
  | JNull => P_null
  | JBool b => P_bool b
  | JNum x => P_num x
  | JStr s => P_str s
  | JArr items =>
      P_arr items
        ((fix all (l : list value) : Forall P l :=
            match l with
            | [] => Forall_nil P
            | x :: rest => Forall_cons x (value_induction x) (all rest)
            end) items)
  | JObj props =>
      P_obj props
        ((fix all (l : list (string * value)) : Forall (fun kv => P (snd kv)) l :=
            match l with
            | [] => Forall_nil _
            | kv :: rest => Forall_cons kv (value_induction (snd kv)) (all rest)
            end) props)
  end.

End ValueInduction.

End JS.

(* ================================================================== *)
(** * The schema library: the part of zod that [ParsedQuerySchema] uses *)

Module Zod.
Import JS.

Inductive schema : Type :=
| z_string
| z_number
| z_boolean
| z_object (shape : list (string * schema))
| z_array (element : schema)
| z_optional (inner : schema).

(** The elements of an array, each parsed by [element]. *)
Fixpoint each (element : value -> option value) (items : list value)
  : option (list value) :=
  match items with
  | [] => Some []
  | x :: rest =>
      match element x, each element rest with
      | Some x', Some rest' => Some (x' :: rest')
      | _, _ => None
      end
  end.

(** The keys of a shape, each parsed by its schema; a key the input does not
    have stays absent, a key outside the shape is stripped. *)
Fixpoint fields {S : Type} (parse : S -> value -> option value)
    (props : list (string * value)) (shape : list (string * S))
  : option (list (string * value)) :=
  match shape with
  | [] => Some []
  | (k, sk) :: rest =>
      match parse sk (field props k), fields parse props rest with
      | Some x', Some rest' =>
          Some (if has_own k props then (k, x') :: rest' else rest')
      | _, _ => None
      end
  end.

(** [schema.parse(v)]: the parsed value, or [None] where zod raises a
    ZodError. [z.number()] refuses NaN; [optional] accepts [undefined] only. *)
Fixpoint parse (s : schema) (v : value) : option value :=
  match s, v with
  | z_string, JStr _ => Some v
  | z_number, JNum x => if is_nan x then None else Some v
  | z_boolean, JBool _ => Some v
  | z_optional inner, JUndefined => Some JUndefined
  | z_optional inner, _ => parse inner v
  | z_array element, JArr items => option_map JArr (each (parse element) items)
  | z_object shape, JObj props => option_map JObj (fields parse props shape)
  | _, _ => None
  end.

End Zod.

(* ================================================================== *)
(** * The outside world and the awaited calls *)

Module IO.
Import JS.

(** What the language model gives back once [JSON.parse] has read the first
    choice's content. [ChatRejected] stands for a call that raises, whatever
    the cause (transport, credentials, a reply with no choice). *)
Inductive chat_result : Type :=
| ChatRejected
| ChatInvalidJSON
| ChatJSON (v : value).

(** A fetch Response: its [ok] flag and what [response.json()] resolves to
    ([None] when the body is not JSON). *)
Record Response : Type := { ok : bool; json : option value }.

Inductive fetch_result : Type :=
| FetchRejected
| FetchResolved (r : Response).

(** The world answers a request according to the request and to the number
    of requests already made. *)
Record World : Type := {
  chat : nat -> string -> string -> chat_result;   (* model, message content *)
  fetch : nat -> string -> fetch_result             (* url *)
}.

(** The call sites of the source, in the order they can run. *)
Inductive site : Type :=
| AnalysisChat     (* mistralClient.chat in parseSearchQuery *)
| MappingChat      (* mistralClient.chat in mapToOsmTags *)
| TagRegistry      (* fetch in validateOsmTag *)
| Tier1            (* fetch of the synthesized query *)
| Tier2            (* fetch of the plain query, limit 10 *)
| Tier3.           (* fetch of the plain query, limit 3 *)

Inductive request : Type :=
| ChatRequest (model content : string)
| FetchRequest (url : string).

Definition log : Type := list (site * request).

(** An async function: it reads the world, extends the log, and completes. *)
Definition IO (A : Type) : Type := log -> completion A * log.

Definition ret {A : Type} (a : A) : IO A := fun l => (Normal a, l).

Definition throw {A : Type} (e : exn) : IO A := fun l => (Throw e, l).

Definition lift {A : Type} (c : completion A) : IO A := fun l => (c, l).

Definition bindIO {A B : Type} (m : IO A) (k : A -> IO B) : IO B :=
  fun l =>
    match m l with
    | (Normal a, l') => k a l'
    | (Throw e, l') => (Throw e, l')
    | (Unmodelled, l') => (Unmodelled, l')
    end.

(** [try { m } catch (error) { h }] *)
Definition try_catch {A : Type} (m : IO A) (h : exn -> IO A) : IO A :=
  fun l =>
    match m l with
    | (Throw e, l') => h e l'
    | r => r
    end.

Notation "x <- m ;; k" := (bindIO m (fun x => k))
  (at level 61, m at next level, right associativity).

Section Calls.
Variable w : World.

(** [JSON.parse((await mistralClient.chat({model, messages})).choices[0].message.content)] *)
Definition chat_json (s : site) (model content : string) : IO value :=
  fun l =>
    (match chat w (List.length l) model content with
     | ChatRejected => Throw NetworkError
     | ChatInvalidJSON => Throw SyntaxError
     | ChatJSON v => Normal v
     end, (l ++ [(s, ChatRequest model content)])%list).

(** [await fetch(url)] *)
Definition fetch_url (s : site) (url : string) : IO Response :=
  fun l =>
    (match fetch w (List.length l) url with
     | FetchRejected => Throw NetworkError
     | FetchResolved r => Normal r
     end, (l ++ [(s, FetchRequest url)])%list).

End Calls.

(** [await response.json()] *)
Definition response_json (r : Response) : IO value :=
  match json r with
  | Some v => ret v
  | None => throw SyntaxError
  end.

(** Running an async function from an empty log. *)
Definition run {A : Type} (m : IO A) : completion A * log := m [].

Definition issued (s : site) (l : log) : bool :=
  existsb (fun e => match fst e, s with
                    | AnalysisChat, AnalysisChat | MappingChat, MappingChat
                    | TagRegistry, TagRegistry | Tier1, Tier1
                    | Tier2, Tier2 | Tier3, Tier3 => true
                    | _, _ => false
                    end) l.

End IO.

(* ================================================================== *)
(** * src/services/mistral.ts *)

Module Mistral.
Import JS IO Zod.

Definition TAGINFO_API : string := "https://taginfo.openstreetmap.org/api/4".

Definition NOMINATIM_SEARCH : string := "https://nominatim.openstreetmap.org/search?".

Definition dq : string := String (ascii_of_nat 34) "".

Definition nl : string := String (ascii_of_nat 10) "".

(** The optional [userLocation] argument. *)
Record UserLocation : Type := { latitude : float; longitude : float }.

Definition object_of (u : UserLocation) : value :=
  JObj [("latitude", JNum (latitude u)); ("longitude", JNum (longitude u))].

(** [entries.some((entry) => entry.value === value)] *)
Fixpoint some_value_is (value : JS.value) (entries : list JS.value)
  : completion bool :=
  match entries with
  | [] => Normal false
  | entry :: rest =>
      let* v := get entry "value" in
      if strict_eq v value then Normal true else some_value_is value rest
  end.

Definition ParsedQuerySchema : schema :=
  z_object
    [("searchTerm", z_string);
     ("location",
       z_optional (z_object
         [("coordinates",
            z_optional (z_object [("latitude", z_number); ("longitude", z_number)]));
          ("radius", z_optional z_number)]));
     ("filters",
       z_optional (z_object
         [("temporal", z_optional (z_object [("openNow", z_optional z_boolean)]))]));
     ("osmTags",
       z_optional (z_array (z_object [("key", z_string); ("value", z_string)])))].

(** [ParsedQuerySchema.parse(v)] *)
Definition schema_parse (s : schema) (v : value) : IO value :=
  match Zod.parse s v with
  | Some parsed => ret parsed
  | None => throw ZodError
  end.

(** The calls of [buildNominatimQuery] up to [params.toString()]. *)
Definition buildNominatimParams (parsedQuery : value) : completion URLSearchParams :=
  let params : URLSearchParams := [] in
  let* searchTerm := get parsedQuery "searchTerm" in
  let searchTerms := [searchTerm] in
  (* Add OSM tags *)
  let* osm_tags := get parsedQuery "osm_tags" in
  let* specific := get_opt osm_tags "specific" in
  let* searchTerms :=
    if truthy specific then
      let* k := get specific "key" in
      let* ks := to_string k in
      let* v := get specific "value" in
      let* vs := to_string v in
      Normal (searchTerms ++ [JStr ("[" ++ ks ++ "=" ++ vs ++ "]")])%list
    else Normal searchTerms in
  let* q := join " " searchTerms in
  let params := append params "q" q in
  (* Add geographic context *)
  let* location := get parsedQuery "location" in
  let* coordinates := get_opt location "coordinates" in
  let* params :=
    if truthy coordinates then
      let* latitude := get coordinates "latitude" in
      let* longitude := get coordinates "longitude" in
      let* r := get location "radius" in
      let* rv := get_opt r "value" in
      let radius := or_else rv (JNum 5) in           (* Default 5km radius *)
      let* viewboxSize := times radius (JNum 0.02) in  (* Approximate degree conversion *)
      let* west := minus longitude viewboxSize in
      let* west := to_string west in
      let* north := plus latitude viewboxSize in
      let* north := to_string north in
      let* east := plus longitude viewboxSize in
      let* east := to_string east in
      let* south := minus latitude viewboxSize in
      let* south := to_string south in
      let params :=
        append params "viewbox" (west ++ "," ++ north ++ "," ++ east ++ "," ++ south) in
      Normal (append params "bounded" "1")
    else Normal params in
  let params := append params "format" "json" in
  let params := append params "limit" "10" in
  Normal params.

Definition buildNominatimQuery (parsedQuery : value) : completion string :=
  let* params := buildNominatimParams parsedQuery in
  Normal (URLSearchParams_toString params).

Definition mapping_prompt (term : string) : string :=
  "Map " ++ dq ++ term ++ dq
  ++ " to OpenStreetMap tags. Respond with JSON: {key: " ++ dq ++ "..." ++ dq
  ++ ", value: " ++ dq ++ "..." ++ dq ++ "}".

Definition analysis_prompt (query : string) : string :=
  "Analyze search query: " ++ dq ++ query ++ dq ++ ". Extract:" ++ nl
  ++ "        - Primary search term" ++ nl
  ++ "        - Location context (city/landmark or current location)" ++ nl
  ++ "        - OSM tags (key=value)" ++ nl
  ++ "        Respond with JSON: {" ++ nl
  ++ "          searchTerm: string," ++ nl
  ++ "          location?: { type: 'current'|'specific', area?: string }," ++ nl
  ++ "          osmTags?: {key: string, value: string}[]" ++ nl
  ++ "        }".

Definition default_radius : value :=
  JObj [("value", JNum 5); ("unit", JStr "kilometers")].

Section WithWorld.
Variable w : World.

Definition validateOsmTag (key value : JS.value) : IO JS.value :=
  try_catch
    (k <- lift (to_string key) ;;
     v <- lift (to_string value) ;;
     response <- fetch_url w TagRegistry
       (TAGINFO_API ++ "/tag/values?key=" ++ encodeURIComponent k
        ++ "&value=" ++ encodeURIComponent v) ;;
     data <- response_json response ;;
     listing <- lift (get data "data") ;;
     match listing with
     | JUndefined | JNull => ret JUndefined
     | JArr entries =>
         found <- lift (some_value_is value entries) ;; ret (JBool found)
     | _ => throw TypeError
     end)
    (fun error => (* Tag validation failed *) ret (JBool false)).

Definition mapToOsmTags (term : string) : IO value :=
  try_catch
    (result <- chat_json w MappingChat "mistral-large-latest" (mapping_prompt term) ;;
     key <- lift (get result "key") ;;
     value <- lift (get result "value") ;;
     valid <- validateOsmTag key value ;;
     if truthy valid then ret result else ret JNull)
    (fun error => (* AI mapping failed *) ret JNull).

Definition parseSearchQuery (query : string) (userLocation : option UserLocation)
  : IO value :=
  try_catch
    (parsed <- chat_json w AnalysisChat "mistral-medium" (analysis_prompt query) ;;
     (* Handle location context *)
     location <- lift (get parsed "location") ;;
     ty <- lift (get_opt location "type") ;;
     parsed <-
       match strict_eq ty (JStr "current"), userLocation with
       | true, Some u =>
           location <- lift (set location "coordinates" (object_of u)) ;;
           location <- lift (set location "radius" default_radius) ;;
           lift (set parsed "location" location)
       | _, _ => ret parsed
       end ;;
     schema_parse ParsedQuerySchema parsed)
    (fun error =>
       (* AI parsing failed: fallback logic *)
       osmTags <- mapToOsmTags query ;;
       schema_parse ParsedQuerySchema
         (JObj [("searchTerm", JStr query);
                ("location",
                  match userLocation with
                  | Some u =>
                      JObj [("coordinates", object_of u); ("radius", default_radius)]
                  | None => JUndefined
                  end);
                ("osmTags", osmTags)])).

Definition tier2_url (query : string) : string :=
  NOMINATIM_SEARCH ++ "q=" ++ encodeURIComponent query ++ "&format=json&limit=10".

Definition tier3_url (query : string) : string :=
  NOMINATIM_SEARCH ++ "q=" ++ encodeURIComponent query ++ "&format=json&limit=3".

Definition searchLocations (query : string) (userLocation : option UserLocation)
  : IO value :=
  try_catch
    (parsedQuery <- parseSearchQuery query userLocation ;;
     params <- lift (buildNominatimQuery parsedQuery) ;;
     response <- fetch_url w Tier1 (NOMINATIM_SEARCH ++ params) ;;
     if negb (ok response) then throw (Error "Search failed")
     else
       results <- response_json response ;;
       empty <- lift (length_is_zero results) ;;
       (* Fallback for empty results *)
       if empty then
         fallbackResponse <- fetch_url w Tier2 (tier2_url query) ;;
         response_json fallbackResponse
       else ret results)
    (fun error =>
       (* Final fallback with simplified query *)
       fallbackResponse <- fetch_url w Tier3 (tier3_url query) ;;
       response_json fallbackResponse).

End WithWorld.

End Mistral.

(* ================================================================== *)
(** * src/App.tsx: the ranking of the results *)

Module App.
Local Open Scope float_scope.

(** [interface Location], with the coordinates as the numbers the
    arithmetic of [calculateDistance] makes of them. *)
Record Location : Type := { lat : float; lon : float; display_name : string }.

(** [GeolocationPosition.coords] *)
Record Coords : Type := { latitude : float; longitude : float }.

(** The functions of the [Math] object that ECMA-262 leaves to the engine. *)
Record MathObject : Type := {
  sin : float -> float;
  cos : float -> float;
  sqrt : float -> float;
  atan2 : float -> float -> float;
  PI : float
}.

(** SortCompare: the sign of what the comparator returns, NaN read as +0. *)
Definition sort_compare (v : float) : comparison :=
  if PrimFloat.ltb v 0 then Lt else if PrimFloat.ltb 0 v then Gt else Eq.

Section Sort.
Context {A : Type}.
Variable comparefn : A -> A -> float.

Definition after (x y : A) : bool :=
  match sort_compare (comparefn x y) with Gt => true | _ => false end.

Fixpoint insert (x : A) (sorted : list A) : list A :=
  match sorted with
  | [] => [x]
  | y :: rest => if after x y then y :: insert x rest else x :: sorted
  end.

(** [array.sort(comparefn)]: the stable sort. With a consistent comparator
    this is the order ECMA-262 prescribes; with another one the standard
    leaves the order to the engine and this is one admissible choice. *)
Fixpoint Array_sort (array : list A) : list A :=
  match array with
  | [] => []
  | x :: rest => insert x (Array_sort rest)
  end.

(** The relations that ECMA-262 derives from a comparator. *)
Definition tied (x y : A) : bool :=
  match sort_compare (comparefn x y) with Eq => true | _ => false end.

Definition before (x y : A) : bool :=
  match sort_compare (comparefn x y) with Lt => true | _ => false end.

(** A consistent comparator for the values of [array], as ECMA-262 defines
    it: never NaN, reflexive and symmetric ties, and transitive ties,
    [before] and [after]. *)
Definition consistent_comparator (array : list A) : bool :=
  forallb (fun a =>
    tied a a &&
    forallb (fun b =>
      PrimFloat.eqb (comparefn a b) (comparefn a b) &&
      implb (tied a b) (tied b a) &&
      forallb (fun c =>
        implb (tied a b && tied b c) (tied a c) &&
        implb (before a b && before b c) (before a c) &&
        implb (after a b && after b c) (after a c)) array) array) array.

(** What consistency gives for three values of the array. *)
Record consistent_at (a b c : A) : Prop := {
  tie_refl : tied a a = true;
  tie_sym : tied a b = true -> tied b a = true;
  tie_trans : tied a b = true -> tied b c = true -> tied a c = true;
  before_trans : before a b = true -> before b c = true -> before a c = true;
  after_trans : after a b = true -> after b c = true -> after a c = true
}.

Definition consistent_on (array : list A) : Prop :=
  forall a b c, In a array -> In b array -> In c array -> consistent_at a b c.

End Sort.

(** [array.slice(0, n)] *)
Definition slice0 {A : Type} (n : nat) (array : list A) : list A := firstn n array.

(** What [handleSearch] does with the results: one of its two state updates. *)
Inductive update : Type :=
| setError (message : string)
| setLocations (locations : list Location).

Section WithMath.
Variable Math : MathObject.

Definition calculateDistance (lat1 lon1 lat2 lon2 : float) : float :=
  let R := 6371 in
  let dLat := (lat2 - lat1) * PI Math / 180 in
  let dLon := (lon2 - lon1) * PI Math / 180 in
  let a :=
    sin Math (dLat / 2) * sin Math (dLat / 2) +
    cos Math (lat1 * PI Math / 180) * cos Math (lat2 * PI Math / 180) *
    sin Math (dLon / 2) * sin Math (dLon / 2) in
  let c := 2 * atan2 Math (sqrt Math a) (sqrt Math (1 - a)) in
  R * c.

(** The comparator that [handleSearch] passes to [results.sort]. *)
Definition by_distance (userPosition : Coords) (a b : Location) : float :=
  let distA :=
    calculateDistance (latitude userPosition) (longitude userPosition) (lat a) (lon a) in
  let distB :=
    calculateDistance (latitude userPosition) (longitude userPosition) (lat b) (lon b) in
  distA - distB.


(** Process and display results (the tail of [handleSearch]). *)
Definition handleSearch (results : list Location) (userPosition : option Coords)
    (expandedResults : bool) : update :=
  match results with
  | [] => setError "No locations found. Try a different search term."
  | _ =>
      (* Sort by distance if user position is available *)
      let results :=
        match userPosition with
        | Some position => Array_sort (by_distance position) results
        | None => results
        end in
      setLocations (slice0 (if expandedResults then 10 else 5) results)
  end.

End WithMath.

(** ** One implementation of the [Math] functions, by power series

    Used for the worked examples only: an engine is free in how closely it
    approximates these functions. *)

Fixpoint series (n : nat) (term : float) (x2 : float) (k : float) (acc : float) : float :=
  match n with
  | O => acc
  | S n' =>
      let term' := - term * x2 / ((k + 1) * (k + 2)) in
      series n' term' x2 (k + 2) (acc + term')
  end.

Definition series_sin (x : float) : float := series 14 x (x * x) 1 x.

Definition series_cos (x : float) : float := series 14 1 (x * x) 0 1.

Fixpoint atan_series (n : nat) (power : float) (x2 : float) (k : float) (acc : float)
  : float :=
  match n with
  | O => acc
  | S n' =>
      let power' := - power * x2 in
      atan_series n' power' x2 (k + 2) (acc + power' / (k + 2))
  end.

Definition half_angle (t : float) : float := t / (1 + PrimFloat.sqrt (1 + t * t)).

Definition series_atan (t : float) : float :=
  let u := half_angle (half_angle t) in
  4 * atan_series 20 u (u * u) 1 u.

Definition series_PI : float := 0x1.921fb54442d18p+1.

Definition series_atan2 (y x : float) : float :=
  if PrimFloat.ltb 0 x then series_atan (y / x)
  else if PrimFloat.ltb x 0 then
    (if PrimFloat.ltb y 0 then series_atan (y / x) - series_PI
     else series_atan (y / x) + series_PI)
  else if PrimFloat.ltb 0 y then series_PI / 2
  else if PrimFloat.ltb y 0 then - series_PI / 2
  else 0.

Definition series_math : MathObject :=
  {| sin := series_sin; cos := series_cos; sqrt := PrimFloat.sqrt;
     atan2 := series_atan2; PI := series_PI |}.

End App.

(* ================================================================== *)
(** * src/App.tsx: the state of the component

    The seven [useState] cells of [App], the setters that [handleSearch],
    [clearSearch] and the handlers of the result list call on them, and the
    runs of these handlers as React schedules them. A handler reads the
    cells of the render that created it; the setters it calls before its
    first [await] are applied together, before the next render; the ones
    after an [await] are applied as the awaited calls come back, in any
    interleaving with the other handlers. *)

Module AppState.

Record State : Type := {
  locations : list App.Location;
  selectedLocation : option nat;
  isLoading : bool;
  error : option string;
  expandedResults : bool;
  searchContext : option string;
  searchQuery : string
}.

(** The first render. *)
Definition initial : State :=
  {| locations := []; selectedLocation := None; isLoading := false; error := None;
     expandedResults := false; searchContext := None; searchQuery := "" |}.

Inductive setter : Type :=
| setLocations (v : list App.Location)
| setSelectedLocation (v : option nat)
| setIsLoading (v : bool)
| setError (v : option string)
| setExpandedResults (v : bool)
| setSearchContext (v : option string)
| setSearchQuery (v : string).

Definition apply (st : State) (u : setter) : State :=
  match u with
  | setLocations v =>
      {| locations := v; selectedLocation := selectedLocation st;
         isLoading := isLoading st; error := error st;
         expandedResults := expandedResults st; searchContext := searchContext st;
         searchQuery := searchQuery st |}
  | setSelectedLocation v =>
      {| locations := locations st; selectedLocation := v;
         isLoading := isLoading st; error := error st;
         expandedResults := expandedResults st; searchContext := searchContext st;
         searchQuery := searchQuery st |}
  | setIsLoading v =>
      {| locations := locations st; selectedLocation := selectedLocation st;
         isLoading := v; error := error st;
         expandedResults := expandedResults st; searchContext := searchContext st;
         searchQuery := searchQuery st |}
  | setError v =>
      {| locations := locations st; selectedLocation := selectedLocation st;
         isLoading := isLoading st; error := v;
         expandedResults := expandedResults st; searchContext := searchContext st;
         searchQuery := searchQuery st |}
  | setExpandedResults v =>
      {| locations := locations st; selectedLocation := selectedLocation st;
         isLoading := isLoading st; error := error st;
         expandedResults := v; searchContext := searchContext st;
         searchQuery := searchQuery st |}
  | setSearchContext v =>
      {| locations := locations st; selectedLocation := selectedLocation st;
         isLoading := isLoading st; error := error st;
         expandedResults := expandedResults st; searchContext := v;
         searchQuery := searchQuery st |}
  | setSearchQuery v =>
      {| locations := locations st; selectedLocation := selectedLocation st;
         isLoading := isLoading st; error := error st;
         expandedResults := expandedResults st; searchContext := searchContext st;
         searchQuery := v |}
  end.

(** Setters applied together, in the order of the calls. *)
Definition batch (st : State) (us : list setter) : State := fold_left apply us st.

(** What a run of [handleSearch] meets once it awaits: the text of the
    context line if the context analysis returned one, and the results of
    [searchLocations] with the position that was read, or nothing if the
    geolocation, the search or the processing of its results raised. *)
Record outcome : Type := {
  context : option string;
  search : option (list App.Location * option App.Coords)
}.

(** [handleSearch(query)] up to its first [await] ... *)
Definition handleSearch_start (query : string) : list setter :=
  [setSearchQuery query; setIsLoading true; setError None; setSelectedLocation None;
   setExpandedResults false; setSearchContext None].

(** ... and from there on, where [expandedResults] is the cell as the render
    that created the handler had it. *)
Definition handleSearch_rest (Math : App.MathObject) (expandedResults : bool)
    (o : outcome) : list setter :=
  (match context o with
   | Some text => [setSearchContext (Some text)]
   | None => []
   end
   ++ match search o with
      | Some (results, userPosition) =>
          match App.handleSearch Math results userPosition expandedResults with
          | App.setError message => [setError (Some message)]
          | App.setLocations shown => [setLocations shown]
          end
      | None => [setError (Some "Failed to search locations. Please try again.")]
      end
   ++ [setIsLoading false])%list.

Definition clearSearch : list setter :=
  [setLocations []; setSelectedLocation None; setError None; setSearchContext None;
   setSearchQuery ""; setExpandedResults false].

(** The click on the button under the result list. *)
Definition show_more (st : State) : list setter :=
  setExpandedResults true :: handleSearch_start (searchQuery st).

(** The component between two events: the cells of the last render, the
    renders before it, and what is left to do of each running handler. *)
Record System : Type := {
  rendered : State;
  past : list State;
  running : list (list setter)
}.

Definition boot : System := {| rendered := initial; past := []; running := [] |}.

Section Steps.
Variable Math : App.MathObject.

Inductive step (s : System) : System -> Prop :=
(** A query is submitted, by the form of the search bar or by the speech
    recognition, whose callback may date from an earlier render. *)
| step_search : forall query from o,
    In from (rendered s :: past s) ->
    step s {| rendered := batch (rendered s) (handleSearch_start query);
              past := rendered s :: past s;
              running := handleSearch_rest Math (expandedResults from) o :: running s |}
(** The button under the list is there when five results are shown and the
    list is not expanded. *)
| step_show_more : forall o,
    List.length (locations (rendered s)) = 5%nat ->
    expandedResults (rendered s) = false ->
    step s {| rendered := batch (rendered s) (show_more (rendered s));
              past := rendered s :: past s;
              running :=
                handleSearch_rest Math (expandedResults (rendered s)) o :: running s |}
| step_clear :
    step s {| rendered := batch (rendered s) clearSearch;
              past := rendered s :: past s;
              running := running s |}
| step_select : forall index,
    step s {| rendered := apply (rendered s) (setSelectedLocation (Some index));
              past := rendered s :: past s;
              running := running s |}
(** A running handler gets one setter further. *)
| step_advance : forall before u rest after,
    running s = (before ++ (u :: rest) :: after)%list ->
    step s {| rendered := apply (rendered s) u;
              past := rendered s :: past s;
              running := (before ++ rest :: after)%list |}.

Inductive reachable : System -> Prop :=
| reachable_boot : reachable boot
| reachable_step : forall s s', reachable s -> step s s' -> reachable s'.

End Steps.

End AppState.

(* ================================================================== *)
(** * src/components/Map.tsx: the view over the results *)

Module MapView.
Local Open Scope float_scope.

(** The functions of the [Math] object that ECMA-262 leaves to the engine. *)
Record MathObject : Type := { log2 : float -> float }.

Record Bounds : Type := { north : float; south : float; east : float; west : float }.

Record ViewState : Type := { latitude : float; longitude : float; zoom : float }.

(** The zero of the given sign. *)
Definition is_zero (negative : bool) (x : float) : bool :=
  match PrimFloat.classify x, negative with
  | NZero, true | PZero, false => true
  | _, _ => false
  end.

(** [Math.max(x, y)] and [Math.min(x, y)]: NaN if either is, and the
    positive zero above the negative one. *)
Definition Math_max (x y : float) : float :=
  if JS.is_nan x || JS.is_nan y then nan
  else if is_zero true x && is_zero false y then y
  else if PrimFloat.ltb x y then y else x.

Definition Math_min (x y : float) : float :=
  if JS.is_nan x || JS.is_nan y then nan
  else if is_zero false x && is_zero true y then y
  else if PrimFloat.ltb y x then y else x.

(** [Math.round(x)]: the closest integer, the one towards positive infinity
    on a tie, with the sign of [x] on a zero result. *)
Definition Math_round (x : float) : float :=
  match Prim2SF x with
  | S754_finite s m e =>
      if (0 <=? e)%Z then x
      else
        let n := cond_Zopp s (Z.pos m) in
        let r := ((2 * n + 2 ^ (- e)) / 2 ^ (1 - e))%Z in
        if (r =? 0)%Z then (if s then -0 else 0)
        else SF2Prim (binary_normalize prec emax r 0 false)
  | _ => x
  end.

(** Helper function to calculate bounds for a set of locations *)
Definition getBounds (locs : list App.Location) : Bounds :=
  fold_left
    (fun b loc =>
       {| north := Math_max (north b) (App.lat loc);
          south := Math_min (south b) (App.lat loc);
          east := Math_max (east b) (App.lon loc);
          west := Math_min (west b) (App.lon loc) |})
    locs {| north := -90; south := 90; east := -180; west := 180 |}.

Section WithMath.
Variable Math : MathObject.

(** Helper function to calculate appropriate zoom level based on bounds *)
Definition calculateZoomLevel (bounds : Bounds) : float :=
  let latDiff := north bounds - south bounds in
  let lonDiff := east bounds - west bounds in
  let maxDiff := Math_max latDiff lonDiff in
  Math_round (14 - log2 Math (maxDiff * 10)).

(** The second effect: the view state it sets, if it sets one. *)
Definition view (isInitialLoad : bool) (locations : list App.Location)
    (selectedLocation : option nat) : option ViewState :=
  let shown :=
    match locations with
    | [] => None
    | _ =>
        (* If no location is selected but we have search results, show all results *)
        let bounds := getBounds locations in
        Some {| latitude := (north bounds + south bounds) / 2;
                longitude := (east bounds + west bounds) / 2;
                zoom := calculateZoomLevel bounds |}
    end in
  if isInitialLoad then None
  else
    match selectedLocation with
    | Some index =>
        match nth_error locations index with
        | Some selected =>
            Some {| latitude := App.lat selected; longitude := App.lon selected;
                    zoom := 14 |}
        | None => shown
        end
    | None => shown
    end.

End WithMath.

End MapView.

(* ================================================================== *)
(** * src/services/openai.ts: the other intent resolver

    The request that is sent (the prompt, the messages) is left out: the
    reply stands for whatever the awaited call comes back with. *)

Module OpenAI.
Import JS.

(** The part of zod that this file's [ParsedQuerySchema] uses: enums and
    bounded numbers besides what [Zod.schema] has. *)
Inductive schema : Type :=
| z_string
| z_number
| z_number_min_max (min max : float)
| z_boolean
| z_enum (values : list string)
| z_object (shape : list (string * schema))
| z_array (element : schema)
| z_optional (inner : schema).

(** [schema.safeParse(v)]: the data, or [None] where [success] is false.
    A bounded number is refused below [min] and above [max]. *)
Fixpoint safeParse (s : schema) (v : value) : option value :=
  match s, v with
  | z_string, JStr _ => Some v
  | z_number, JNum x => if is_nan x then None else Some v
  | z_number_min_max min max, JNum x =>
      if is_nan x || PrimFloat.ltb x min || PrimFloat.ltb max x then None else Some v
  | z_boolean, JBool _ => Some v
  | z_enum values, JStr x => if existsb (String.eqb x) values then Some v else None
  | z_optional inner, JUndefined => Some JUndefined
  | z_optional inner, _ => safeParse inner v
  | z_array element, JArr items => option_map JArr (Zod.each (safeParse element) items)
  | z_object shape, JObj props => option_map JObj (Zod.fields safeParse props shape)
  | _, _ => None
  end.

Definition ParsedQuerySchema : schema :=
  z_object
    [("searchTerm", z_string);
     ("location",
       z_optional
         (z_object
            [("area", z_optional z_string);
             ("coordinates",
               z_optional
                 (z_object [("latitude", z_optional z_number);
                            ("longitude", z_optional z_number)]))]));
     ("context",
       z_optional
         (z_object
            [("type",
               z_optional
                 (z_enum ["restaurant"; "hotel"; "cafe"; "park"; "landmark"; "store";
                          "other"]));
             ("filters",
               z_optional
                 (z_object
                    [("cuisine", z_optional (z_array z_string));
                     ("priceRange", z_optional (z_enum ["low"; "medium"; "high"; "luxury"]));
                     ("openNow", z_optional z_boolean);
                     ("rating", z_optional (z_number_min_max 0 5));
                     ("amenities", z_optional (z_array z_string));
                     ("distance",
                       z_optional
                         (z_object [("value", z_number);
                                    ("unit", z_enum ["miles"; "kilometers"])]))]))]))].

(** What [openai.chat.completions.create] comes back with: a rejection (or
    a completion with no choice), a content that is null or empty, a content
    that [JSON.parse] refuses, or one that it reads. *)
Inductive reply : Type :=
| Rejected
| NoContent
| NotJSON
| Content (parsed : value).

(** [...v] inside an object literal: the own properties of an object,
    nothing for [undefined], [null], a boolean or a number. *)
Definition spread (v : value) : completion (list (string * value)) :=
  match v with
  | JObj props => Normal props
  | JUndefined | JNull | JBool _ | JNum _ => Normal []
  | JStr _ | JArr _ => Unmodelled
  end.

(** [{ searchTerm: query, ...(userLocation && { location: { coordinates:
    userLocation } }) }] *)
Definition raw_intent (query : string) (userLocation : option Mistral.UserLocation)
  : value :=
  JObj (("searchTerm", JStr query) ::
        match userLocation with
        | Some u => [("location", JObj [("coordinates", Mistral.object_of u)])]
        | None => []
        end).

Definition parseSearchQuery (r : reply) (query : string)
    (userLocation : option Mistral.UserLocation) : completion value :=
  let attempt :=
    let* parsed :=
      match r with
      | Rejected => Throw NetworkError
      | NoContent => Throw (Error "Empty response from OpenAI")
      | NotJSON => Throw SyntaxError
      | Content parsed => Normal parsed
      end in
    match safeParse ParsedQuerySchema parsed with
    | None => (* Validation errors *) Normal (raw_intent query userLocation)
    | Some data =>
        let* props := spread data in
        let* location := get data "location" in
        let* located := spread location in
        let located :=
          match userLocation with
          | Some u => store "coordinates" (Mistral.object_of u) located
          | None => located
          end in
        Normal (JObj (store "location" (JObj located) props))
    end in
  match attempt with
  | Throw error => (* Error parsing query *) Normal (raw_intent query userLocation)
  | outcome => outcome
  end.

End OpenAI.

(* ================================================================== *)
(** * The vocabulary of the properties

    Readings of an intent, the halves of the two functions that have a
    [try] and a [catch], the ways a tier can answer, and the worlds and
    intents of the worked examples. *)

Import JS IO Zod Mistral.
Local Open Scope float_scope.

(** The viewbox value: west, north, east, south. *)
Definition viewbox (lat lon half : float) : string :=
  number_to_string (lon - half) ++ "," ++ number_to_string (lat + half) ++ ","
  ++ number_to_string (lon + half) ++ "," ++ number_to_string (lat - half).

(** [intent.location.coordinates], [intent.location.radius] and
    [intent.osmTags] of a validated intent. *)
Definition coordinates_of (intent : value) : option (float * float) :=
  match get intent "location" with
  | Normal location =>
      match get_opt location "coordinates" with
      | Normal (JObj c) =>
          match field c "latitude", field c "longitude" with
          | JNum lat, JNum lon => Some (lat, lon)
          | _, _ => None
          end
      | _ => None
      end
  | _ => None
  end.

Definition radius_of (intent : value) : option float :=
  match get intent "location" with
  | Normal location =>
      match get_opt location "radius" with
      | Normal (JNum r) => Some r
      | _ => None
      end
  | _ => None
  end.

Definition osmTags_of (intent : value) : list value :=
  match get intent "osmTags" with
  | Normal (JArr tags) => tags
  | _ => []
  end.

(** The intents that [ParsedQuerySchema.parse] lets through. *)
Definition validated (intent : value) : Prop :=
  exists v, parse ParsedQuerySchema v = Some intent.

Definition location_shape : list (string * schema) :=
  [("coordinates",
     z_optional (z_object [("latitude", z_number); ("longitude", z_number)]));
   ("radius", z_optional z_number)].

Definition registry_url (key value : string) : string :=
  TAGINFO_API ++ "/tag/values?key=" ++ encodeURIComponent key
  ++ "&value=" ++ encodeURIComponent value.



(** The call sites of intent resolution. *)
Definition intent_site (e : site * request) : Prop :=
  fst e = AnalysisChat \/ fst e = MappingChat \/ fst e = TagRegistry.

(** The object that the fallback hands to the schema. *)
Definition fallback_intent (query : string) (userLocation : option UserLocation)
    (osmTags : value) : value :=
  JObj [("searchTerm", JStr query);
        ("location",
          match userLocation with
          | Some u => JObj [("coordinates", object_of u); ("radius", default_radius)]
          | None => JUndefined
          end);
        ("osmTags", osmTags)].

(** The two halves of [parseSearchQuery]: the body of its [try] and the
    handler of its [catch]. *)
Definition interpretation (w : World) (query : string)
    (userLocation : option UserLocation) : IO value :=
  parsed <- chat_json w AnalysisChat "mistral-medium" (analysis_prompt query) ;;
  location <- lift (get parsed "location") ;;
  ty <- lift (get_opt location "type") ;;
  parsed <-
    match strict_eq ty (JStr "current"), userLocation with
    | true, Some u =>
        location <- lift (set location "coordinates" (object_of u)) ;;
        location <- lift (set location "radius" default_radius) ;;
        lift (set parsed "location" location)
    | _, _ => ret parsed
    end ;;
  schema_parse ParsedQuerySchema parsed.

Definition fallback (w : World) (query : string)
    (userLocation : option UserLocation) : IO value :=
  osmTags <- mapToOsmTags w query ;;
  schema_parse ParsedQuerySchema (fallback_intent query userLocation osmTags).

(** The two halves of [searchLocations]. *)
Definition ladder (w : World) (query : string) (userLocation : option UserLocation)
  : IO value :=
  parsedQuery <- parseSearchQuery w query userLocation ;;
  params <- lift (buildNominatimQuery parsedQuery) ;;
  response <- fetch_url w Tier1 (NOMINATIM_SEARCH ++ params) ;;
  if negb (ok response) then throw (Error "Search failed")
  else
    results <- response_json response ;;
    empty <- lift (length_is_zero results) ;;
    if empty then
      fallbackResponse <- fetch_url w Tier2 (tier2_url query) ;;
      response_json fallbackResponse
    else ret results.

Definition last_resort (w : World) (query : string) : IO value :=
  fallbackResponse <- fetch_url w Tier3 (tier3_url query) ;;
  response_json fallbackResponse.

(** How tier 1 and tier 2 can answer. Tier 1 raises on a rejected request, a
    status that is not ok, an undecodable body, or a body whose length cannot
    be read; tier 2 only on a rejected request or an undecodable body. *)
Definition raised1 (a : fetch_result) : bool :=
  match a with
  | FetchRejected => true
  | FetchResolved r =>
      negb (ok r) ||
      match json r with
      | None => true
      | Some v => match length_is_zero v with Normal _ => false | _ => true end
      end
  end.

Definition empty1 (a : fetch_result) : bool :=
  match a with
  | FetchRejected => false
  | FetchResolved r =>
      ok r &&
      match json r with
      | Some v => match length_is_zero v with Normal true => true | _ => false end
      | None => false
      end
  end.

Definition raised2 (a : fetch_result) : bool :=
  match a with
  | FetchRejected => true
  | FetchResolved r => match json r with None => true | Some _ => false end
  end.

(** The body a request was answered with, if it was. *)
Definition body (a : fetch_result) : option value :=
  match a with
  | FetchRejected => None
  | FetchResolved r => json r
  end.

(** The answer of tier 1, when intent resolution returned and tier 1 ran. *)
Definition tier1_answer (w : World) (query : string)
    (userLocation : option UserLocation) : option fetch_result :=
  match run (parseSearchQuery w query userLocation) with
  | (Normal intent, l1) =>
      match buildNominatimQuery intent with
      | Normal params => Some (fetch w (List.length l1) (NOMINATIM_SEARCH ++ params))
      | _ => None
      end
  | _ => None
  end.

(** The answer of tier 2, were it asked right after tier 1. *)
Definition tier2_answer (w : World) (query : string)
    (userLocation : option UserLocation) : fetch_result :=
  fetch w (S (List.length (snd (run (parseSearchQuery w query userLocation)))))
    (tier2_url query).

(** C3 as the specification states it: the limit-3 tier is issued only
    after tier 1 raised an error. *)
Definition last_resort_only_after_tier1_error (w : World) (query : string)
    (userLocation : option UserLocation) : Prop :=
  issued Tier3 (snd (run (searchLocations w query userLocation))) = true ->
  exists a1, tier1_answer w query userLocation = Some a1 /\ raised1 a1 = true.

(** C7 as the specification states it: the call returns. *)
Definition never_raises (w : World) (query : string)
    (userLocation : option UserLocation) : Prop :=
  exists results, fst (run (searchLocations w query userLocation)) = Normal results.

Definition place (name lat lon : string) : value :=
  JObj [("display_name", JStr name); ("lat", JStr lat); ("lon", JStr lon)].

(** No network: every call is rejected. *)
Definition offline : World :=
  {| chat := fun _ _ _ => ChatRejected; fetch := fun _ _ => FetchRejected |}.

(** A world whose model answers every analysis with [reply] and has no
    mapping to offer, whose registry lists [known] for every key, and whose
    geocoder answers every search with [places]. *)
Definition world_of (reply : value) (known : list string) (places : list value) : World :=
  {| chat := fun _ model _ =>
       if String.eqb model "mistral-medium" then ChatJSON reply else ChatRejected;
     fetch := fun _ url =>
       FetchResolved
         {| ok := true;
            json := Some
              (if String.prefix TAGINFO_API url
               then JObj [("data", JArr (map (fun v => JObj [("value", JStr v)]) known))]
               else JArr places) |} |}.

(** The scenario of the specification: a reply that asks for the current
    position and carries a tag the registry knows. *)
Definition italian_reply : value :=
  JObj [("searchTerm", JStr "Italian restaurants");
        ("location", JObj [("type", JStr "current")]);
        ("osmTags", JArr [JObj [("key", JStr "cuisine"); ("value", JStr "italian")]])].

Definition italian : World :=
  world_of italian_reply ["italian"; "pizza"] [place "Trattoria" "40.01" "-73.02"].

(** A reply with a tag the registry does not list. *)
Definition martian_tag : value := JObj [("key", JStr "cuisine"); ("value", JStr "martian")].

Definition martian_reply : value :=
  JObj [("searchTerm", JStr "restaurants"); ("osmTags", JArr [martian_tag])].

Definition martian : World := world_of martian_reply ["italian"; "pizza"] [].

(** A geocoder that finds nothing for the synthesized query, drops the next
    request, and then answers. *)
Definition flaky : World :=
  {| chat := fun _ model _ =>
       if String.eqb model "mistral-medium"
       then ChatJSON (JObj [("searchTerm", JStr "cafe")]) else ChatRejected;
     fetch := fun n _ =>
       match n with
       | 1 => FetchResolved {| ok := true; json := Some (JArr []) |}
       | 2 => FetchRejected
       | _ => FetchResolved
                {| ok := true; json := Some (JArr [place "Cafe Central" "48.21" "16.36"]) |}
       end |}.

(** A geocoder that finds nothing for the synthesized query and one place
    for every later request. *)
Definition sparse : World :=
  {| chat := fun _ model _ =>
       if String.eqb model "mistral-medium"
       then ChatJSON (JObj [("searchTerm", JStr "cafe")]) else ChatRejected;
     fetch := fun n _ =>
       match n with
       | 1 => FetchResolved {| ok := true; json := Some (JArr []) |}
       | _ => FetchResolved
                {| ok := true; json := Some (JArr [place "Cafe Central" "48.21" "16.36"]) |}
       end |}.

(** Validated intents: one with a tag, one with a radius of 10. *)
Definition tagged_intent : value :=
  JObj [("searchTerm", JStr "pizza");
        ("osmTags", JArr [JObj [("key", JStr "amenity"); ("value", JStr "restaurant")]])].

Definition wide_intent : value :=
  JObj [("searchTerm", JStr "pizza");
        ("location",
          JObj [("coordinates", JObj [("latitude", JNum 40); ("longitude", JNum (-73))]);
                ("radius", JNum 10)])].


Definition far : App.Location :=
  {| App.lat := 0; App.lon := 10; App.display_name := "far" |}.

Definition near : App.Location :=
  {| App.lat := 0; App.lon := 1; App.display_name := "near" |}.

Definition origin : App.Coords := {| App.latitude := 0; App.longitude := 0 |}.

(** ** Further vocabulary *)

(** A registry that answers every request with an empty JSON object. *)
Definition bare_registry : World :=
  {| chat := fun _ _ _ => ChatRejected;
     fetch := fun _ _ => FetchResolved {| ok := true; json := Some (JObj []) |} |}.

(** Induction over schemas, through the shapes of the objects. *)
Section SchemaInduction.
Variable P : schema -> Prop.
Hypothesis P_string : P z_string.
Hypothesis P_number : P z_number.
Hypothesis P_boolean : P z_boolean.
Hypothesis P_object : forall shape, Forall (fun ks => P (snd ks)) shape -> P (z_object shape).
Hypothesis P_array : forall element, P element -> P (z_array element).
Hypothesis P_optional : forall inner, P inner -> P (z_optional inner).

Fixpoint schema_induction (s : schema) : P s :=
  match s with
  | z_string => P_string
  | z_number => P_number
  | z_boolean => P_boolean
  | z_object shape =>
      P_object shape
        ((fix all (l : list (string * schema)) : Forall (fun ks => P (snd ks)) l :=
            match l with
            | [] => Forall_nil _
            | ks :: rest => Forall_cons ks (schema_induction (snd ks)) (all rest)
            end) shape)
  | z_array element => P_array element (schema_induction element)
  | z_optional inner => P_optional inner (schema_induction inner)
  end.

End SchemaInduction.

(** A schema whose object shapes name each key once, at every depth. *)
Inductive distinct_keys : schema -> Prop :=
| distinct_string : distinct_keys z_string
| distinct_number : distinct_keys z_number
| distinct_boolean : distinct_keys z_boolean
| distinct_object : forall shape,
    NoDup (map fst shape) ->
    Forall (fun ks => distinct_keys (snd ks)) shape ->
    distinct_keys (z_object shape)
| distinct_array : forall element, distinct_keys element -> distinct_keys (z_array element)
| distinct_optional : forall inner, distinct_keys inner -> distinct_keys (z_optional inner).

(** The parameters of a URL as the server cuts them out: the text after the
    first question mark, cut at each ampersand, each part cut at its first
    equals sign. Nothing is decoded. *)
Definition occurs (c : ascii) (s : string) : bool :=
  existsb (Ascii.eqb c) (list_ascii_of_string s).

Fixpoint split_on (sep : ascii) (s : string) : list string :=
  match s with
  | "" => [""]
  | String c rest =>
      if Ascii.eqb c sep then "" :: split_on sep rest
      else match split_on sep rest with
           | part :: parts => String c part :: parts
           | [] => [String c ""]
           end
  end.

Fixpoint cut_at (sep : ascii) (s : string) : string * string :=
  match s with
  | "" => ("", "")
  | String c rest =>
      if Ascii.eqb c sep then ("", rest)
      else (String c (fst (cut_at sep rest)), snd (cut_at sep rest))
  end.

Definition parameters (url : string) : list (string * string) :=
  map (cut_at "=") (split_on "&" (snd (cut_at "?" url))).


(** A model that replies with a bare term and a geocoder whose every
    response carries one place under a status that is not ok. *)
Definition unwell : World :=
  {| chat := fun _ model _ =>
       if String.eqb model "mistral-medium"
       then ChatJSON (JObj [("searchTerm", JStr "cafe")]) else ChatRejected;
     fetch := fun _ _ =>
       FetchResolved
         {| ok := false; json := Some (JArr [place "Cafe Central" "48.21" "16.36"]) |} |}.

(** A state that shows at most five results and is not expanded, a setter
    that keeps it so, and the invariant of the component. *)
Definition within_page (st : AppState.State) : Prop :=
  AppState.expandedResults st = false /\
  (List.length (AppState.locations st) <= 5)%nat.

Definition keeps_page (u : AppState.setter) : Prop :=
  match u with
  | AppState.setExpandedResults v => v = false
  | AppState.setLocations v => (List.length v <= 5)%nat
  | _ => True
  end.

Definition page_invariant (s : AppState.System) : Prop :=
  Forall within_page (AppState.rendered s :: AppState.past s) /\
  Forall (Forall keeps_page) (AppState.running s).

(** A session: a search for cafes that finds five places, their display,
    and a click on the button under the list. *)
Definition five_places : list App.Location :=
  map (fun name => {| App.lat := 0; App.lon := 1; App.display_name := name |})
      ["a"; "b"; "c"; "d"; "e"].

Definition five_found : AppState.outcome :=
  {| AppState.context := None; AppState.search := Some (five_places, None) |}.

Definition searching : AppState.System :=
  {| AppState.rendered :=
       AppState.batch AppState.initial (AppState.handleSearch_start "cafe");
     AppState.past := [AppState.initial];
     AppState.running := [AppState.handleSearch_rest App.series_math false five_found] |}.

Definition five_shown : AppState.System :=
  {| AppState.rendered :=
       AppState.apply (AppState.rendered searching) (AppState.setLocations five_places);
     AppState.past := AppState.rendered searching :: AppState.past searching;
     AppState.running := [[AppState.setIsLoading false]] |}.

Definition more_asked : AppState.System :=
  {| AppState.rendered :=
       AppState.batch (AppState.rendered five_shown)
         (AppState.show_more (AppState.rendered five_shown));
     AppState.past := AppState.rendered five_shown :: AppState.past five_shown;
     AppState.running :=
       AppState.handleSearch_rest App.series_math
         (AppState.expandedResults (AppState.rendered five_shown)) five_found
       :: AppState.running five_shown |}.

(** Induction over the schemas of the other resolver, and their shapes
    that name each key once. *)
Section OpenAISchemaInduction.
Variable P : OpenAI.schema -> Prop.
Hypothesis P_string : P OpenAI.z_string.
Hypothesis P_number : P OpenAI.z_number.
Hypothesis P_number_min_max : forall min max, P (OpenAI.z_number_min_max min max).
Hypothesis P_boolean : P OpenAI.z_boolean.
Hypothesis P_enum : forall values, P (OpenAI.z_enum values).
Hypothesis P_object :
  forall shape, Forall (fun ks => P (snd ks)) shape -> P (OpenAI.z_object shape).
Hypothesis P_array : forall element, P element -> P (OpenAI.z_array element).
Hypothesis P_optional : forall inner, P inner -> P (OpenAI.z_optional inner).

Fixpoint openai_schema_induction (s : OpenAI.schema) : P s :=
  match s with
  | OpenAI.z_string => P_string
  | OpenAI.z_number => P_number
  | OpenAI.z_number_min_max min max => P_number_min_max min max
  | OpenAI.z_boolean => P_boolean
  | OpenAI.z_enum values => P_enum values
  | OpenAI.z_object shape =>
      P_object shape
        ((fix all (l : list (string * OpenAI.schema)) : Forall (fun ks => P (snd ks)) l :=
            match l with
            | [] => Forall_nil _
            | ks :: rest => Forall_cons ks (openai_schema_induction (snd ks)) (all rest)
            end) shape)
  | OpenAI.z_array element => P_array element (openai_schema_induction element)
  | OpenAI.z_optional inner => P_optional inner (openai_schema_induction inner)
  end.

End OpenAISchemaInduction.

Inductive distinct_shapes : OpenAI.schema -> Prop :=
| shapes_string : distinct_shapes OpenAI.z_string
| shapes_number : distinct_shapes OpenAI.z_number
| shapes_number_min_max : forall min max, distinct_shapes (OpenAI.z_number_min_max min max)
| shapes_boolean : distinct_shapes OpenAI.z_boolean
| shapes_enum : forall values, distinct_shapes (OpenAI.z_enum values)
| shapes_object : forall shape,
    NoDup (map fst shape) ->
    Forall (fun ks => distinct_shapes (snd ks)) shape ->
    distinct_shapes (OpenAI.z_object shape)
| shapes_array : forall element,
    distinct_shapes element -> distinct_shapes (OpenAI.z_array element)
| shapes_optional : forall inner,
    distinct_shapes inner -> distinct_shapes (OpenAI.z_optional inner).

(** A position whose coordinates are numbers. *)
Definition numeric (userLocation : option UserLocation) : Prop :=
  match userLocation with
  | Some u => is_nan (latitude u) = false /\ is_nan (longitude u) = false
  | None => True
  end.

(** ** The order of the numbers

    The rank of a number that is not NaN: its sign class, then its exponent,
    then its mantissa; the order of the numbers is the order of the ranks,
    the two zeros sharing one. *)

Local Open Scope Z_scope.

Definition rank (f : spec_float) : Z * Z * Z :=
  match f with
  | S754_infinity true => (-2, 0, 0)
  | S754_finite true m e => (-1, - e, - Z.pos m)
  | S754_zero _ | S754_nan => (0, 0, 0)
  | S754_finite false m e => (1, e, Z.pos m)
  | S754_infinity false => (2, 0, 0)
  end.

Definition lex_lt (p q : Z * Z * Z) : Prop :=
  let '(a1, a2, a3) := p in
  let '(b1, b2, b3) := q in
  a1 < b1 \/ (a1 = b1 /\ (a2 < b2 \/ (a2 = b2 /\ a3 < b3))).

Definition lex_le (p q : Z * Z * Z) : Prop := lex_lt p q \/ p = q.

Local Close Scope Z_scope.

(** ** The bounds of the map *)

Section MapVocabulary.
Import MapView.

(** The bounds from [b] on: the step of [getBounds] folded over [locs]. *)
Definition widen (b : Bounds) (loc : App.Location) : Bounds :=
  {| north := Math_max (north b) (App.lat loc);
     south := Math_min (south b) (App.lat loc);
     east := Math_max (east b) (App.lon loc);
     west := Math_min (west b) (App.lon loc) |}.

Definition numbers (b : Bounds) : Prop :=
  is_nan (north b) = false /\ is_nan (south b) = false /\
  is_nan (east b) = false /\ is_nan (west b) = false.

Definition located (loc : App.Location) : Prop :=
  is_nan (App.lat loc) = false /\ is_nan (App.lon loc) = false.

Definition inside (b : Bounds) (loc : App.Location) : Prop :=
  PrimFloat.leb (south b) (App.lat loc) = true /\
  PrimFloat.leb (App.lat loc) (north b) = true /\
  PrimFloat.leb (west b) (App.lon loc) = true /\
  PrimFloat.leb (App.lon loc) (east b) = true.

(** [b'] is [b] or wider. *)
Definition wider (b b' : Bounds) : Prop :=
  PrimFloat.leb (north b) (north b') = true /\
  PrimFloat.leb (south b') (south b) = true /\
  PrimFloat.leb (east b) (east b') = true /\
  PrimFloat.leb (west b') (west b) = true.

(** Each side of [b'] is the side of [b] or a coordinate of [locs]. *)
Definition attained (b : Bounds) (locs : list App.Location) (b' : Bounds) : Prop :=
  (north b' = north b \/ exists loc, In loc locs /\ north b' = App.lat loc) /\
  (south b' = south b \/ exists loc, In loc locs /\ south b' = App.lat loc) /\
  (east b' = east b \/ exists loc, In loc locs /\ east b' = App.lon loc) /\
  (west b' = west b \/ exists loc, In loc locs /\ west b' = App.lon loc).

(** A number strictly between two others is finite. *)
Definition finite (x : float) : Prop :=
  match Prim2SF x with
  | S754_zero _ | S754_finite _ _ _ => True
  | _ => False
  end.

End MapVocabulary.

(** One implementation of [Math.log2], by the series of the inverse
    hyperbolic tangent on the mantissa; used for the worked examples only. *)
Fixpoint atanh_series (n : nat) (power x2 k acc : float) : float :=
  match n with
  | O => acc
  | S n' =>
      let power' := power * x2 in
      atanh_series n' power' x2 (k + 2) (acc + power' / (k + 2))
  end.

Definition of_Z (z : Z) : float := SF2Prim (binary_normalize prec emax z 0 false).

Definition series_log2 (x : float) : float :=
  match Prim2SF x with
  | S754_zero _ => neg_infinity
  | S754_infinity false => infinity
  | S754_finite false m e =>
      let k := Z.log2 (Z.pos m) in
      let t := SF2Prim (binary_normalize prec emax (Z.pos m) (- k) false) in
      let u := (t - 1) / (t + 1) in
      of_Z (e + k) + 2 * atanh_series 40 u (u * u) 1 u / 0x1.62e42fefa39efp-1
  | _ => nan
  end.

Definition series_engine : MapView.MathObject := {| MapView.log2 := series_log2 |}.

(** Two places in Vienna, and a result whose latitude is not a number. *)
Definition cafe_central : App.Location :=
  {| App.lat := 48.21; App.lon := 16.36; App.display_name := "Cafe Central" |}.

Definition cafe_sperl : App.Location :=
  {| App.lat := 48.2; App.lon := 16.37; App.display_name := "Cafe Sperl" |}.

Definition nowhere : App.Location :=
  {| App.lat := nan; App.lon := 16.36; App.display_name := "nowhere" |}.

(** ** The comparator of the ranking stage *)

(** A number of the given sign that is not a zero: what a difference that
    is not zero rounds to. *)
Definition signed (s : bool) (f : spec_float) : Prop :=
  (exists m e, f = S754_finite s m e) \/ f = S754_infinity s.

(** The distance of a result from a position, as the comparator computes
    it, and the rank of a distance. *)
Definition distance_from (Math : App.MathObject) (position : App.Coords)
    (r : App.Location) : float :=
  App.calculateDistance Math (App.latitude position) (App.longitude position)
    (App.lat r) (App.lon r).

Definition distance_rank {A : Type} (d : A -> float) (a : A) : Z * Z * Z :=
  rank (Prim2SF (d a)).

(* ================================================================== *)
(** * Properties *)

(** ** Values *)

Lemma join_by_modelled (print : value -> completion string) (sep : string) :
  forall items,
    Forall (fun x => print x <> Unmodelled) items ->
    join_by print sep items <> Unmodelled.
Proof.
  induction items as [|x rest IH]; intros Hall; cbn [join_by].
  - discriminate.
  - inversion Hall as [|? ? Hx Hrest]; subst.
    assert (Hsx : (match x with
                   | JUndefined | JNull => Normal ""
                   | _ => print x
                   end) <> Unmodelled)
      by (destruct x; auto; discriminate).
    destruct (match x with
              | JUndefined | JNull => Normal ""
              | _ => print x
              end) as [sx|e|]; [|discriminate|congruence].
    cbn [bind]. destruct rest as [|y rest']; [discriminate|].
    specialize (IH Hrest).
    destruct (join_by print sep (y :: rest')); cbn [bind]; congruence.
Qed.

(** ToString stays inside the modelled fragment: it returns or raises. *)
Lemma to_string_modelled : forall v, to_string v <> Unmodelled.
Proof.
  induction v using value_induction; cbn [to_string]; try discriminate.
  - now apply join_by_modelled.
  - destruct (has_own "toString" props); discriminate.
Qed.

(** Reading back a property that was just written. *)
Lemma field_store : forall k v props, field (store k v props) k = v.
Proof.
  intros k v props. unfold field. induction props as [|[k' v'] rest IH]; cbn.
  - now rewrite String.eqb_refl.
  - destruct (String.eqb k k') eqn:E; cbn.
    + now rewrite String.eqb_refl.
    + now rewrite E.
Qed.

Lemma get_modelled : forall v k, get v k <> Unmodelled.
Proof. destruct v; cbn; discriminate. Qed.

(** Number::toString on values the pipeline meets, and on the corner cases
    of the layout rules. *)
Lemma number_to_string_examples :
  map number_to_string
    [0.1; 40 + 0.1; -73 - 0.1; 0.1 + 0.2; 5; 100; 1e21; 1e-7; 0.000001;
     123456789012345680000; 0x0.0000000000001p-1022; 0x1.fffffffffffffp+1023; -0]
  = ["0.1"; "40.1"; "-73.1"; "0.30000000000000004"; "5"; "100"; "1e+21"; "1e-7";
     "0.000001"; "123456789012345680000"; "5e-324"; "1.7976931348623157e+308"; "0"].
Proof. vm_compute. reflexivity. Qed.

Lemma percent_encoding_examples :
  encodeURIComponent "cafes & bars (open)" = "cafes%20%26%20bars%20(open)" /\
  form_urlencode "pizza [amenity=cafe]" = "pizza+%5Bamenity%3Dcafe%5D".
Proof. split; vm_compute; reflexivity. Qed.

(** ** The schema library *)

Lemma parse_undefined : forall s x, parse s JUndefined = Some x -> x = JUndefined.
Proof. destruct s; cbn; intros x H; congruence. Qed.

Lemma parse_string_inv : forall v x,
  parse z_string v = Some x -> exists s, x = JStr s /\ v = JStr s.
Proof. destruct v; cbn; intros y H; try discriminate. inversion H; eauto. Qed.

Lemma parse_number_inv : forall v y,
  parse z_number v = Some y -> exists n, y = JNum n /\ v = JNum n /\ is_nan n = false.
Proof.
  destruct v; cbn; intros y H; try discriminate.
  destruct (is_nan x) eqn:E; [discriminate|]. inversion H; eauto.
Qed.

Lemma parse_optional_inv : forall s v x,
  parse (z_optional s) v = Some x ->
  (v = JUndefined /\ x = JUndefined) \/ (v <> JUndefined /\ parse s v = Some x).
Proof.
  intros s v x H. destruct v; cbn in H;
    try (right; split; [discriminate | exact H]).
  left. split; congruence.
Qed.

(** What [fields] leaves under each key. *)
Lemma fields_lookup {S : Type} (p : S -> value -> option value) props :
  forall shape out,
    fields p props shape = Some out ->
    NoDup (map fst shape) ->
    forall k,
      lookup k out =
      match lookup k shape with
      | Some sk => if has_own k props then p sk (field props k) else None
      | None => None
      end.
Proof.
  induction shape as [|[k0 s0] rest IH]; intros out Hout Hnd k; cbn in Hout.
  - inversion Hout. reflexivity.
  - destruct (p s0 (field props k0)) as [x'|] eqn:Hx; [|discriminate].
    destruct (fields p props rest) as [rest'|] eqn:Hrest; [|discriminate].
    inversion Hnd as [|? ? Hnotin Hnd']; subst.
    specialize (IH rest' eq_refl Hnd').
    cbn [lookup]. destruct (String.eqb k k0) eqn:Hk.
    + apply String.eqb_eq in Hk. subst k0.
      assert (Hnone : lookup k rest = None).
      { clear - Hnotin. induction rest as [|[k1 s1] r IHr]; [reflexivity|].
        cbn in *. destruct (String.eqb k k1) eqn:E.
        - apply String.eqb_eq in E. subst. tauto.
        - apply IHr. tauto. }
      inversion Hout; subst out.
      destruct (has_own k props) eqn:Hown.
      * cbn [lookup]. rewrite String.eqb_refl. now rewrite Hx.
      * rewrite (IH k), Hnone. reflexivity.
    + inversion Hout; subst out.
      destruct (has_own k0 props); [cbn [lookup]; rewrite Hk|]; apply IH.
Qed.

Lemma fields_each_parsed {S : Type} (p : S -> value -> option value) props :
  forall shape out,
    fields p props shape = Some out ->
    forall k sk, lookup k shape = Some sk -> exists x', p sk (field props k) = Some x'.
Proof.
  induction shape as [|[k0 s0] rest IH]; intros out Hout k sk Hk; cbn in *.
  - discriminate.
  - destruct (p s0 (field props k0)) as [x'|] eqn:Hx; [|discriminate].
    destruct (fields p props rest) as [rest'|] eqn:Hrest; [|discriminate].
    destruct (String.eqb k k0) eqn:E.
    + apply String.eqb_eq in E. subst. inversion Hk; subst. eauto.
    + eapply IH; eauto.
Qed.

(** An object schema gives each key of its shape the parsed field ... *)
Lemma parse_object_get : forall shape v pq,
  parse (z_object shape) v = Some pq ->
  NoDup (map fst shape) ->
  forall k sk, lookup k shape = Some sk ->
    exists props x', v = JObj props /\
      parse sk (field props k) = Some x' /\ get pq k = Normal x'.
Proof.
  intros shape v pq H Hnd k sk Hk.
  destruct v; try discriminate. cbn [parse] in H.
  destruct (fields parse props shape) as [out|] eqn:Hout; [|discriminate].
  inversion H; subst pq. clear H.
  destruct (fields_each_parsed _ _ _ _ Hout _ _ Hk) as [x' Hx'].
  exists props, x'. split; [reflexivity|]. split; [exact Hx'|].
  cbn [get]. unfold field at 1.
  rewrite (fields_lookup _ _ _ _ Hout Hnd k), Hk.
  destruct (has_own k props) eqn:Hown.
  - now rewrite Hx'.
  - unfold has_own in Hown. unfold field in Hx'.
    destruct (lookup k props); [discriminate|].
    now rewrite (parse_undefined _ _ Hx').
Qed.

(** ... and strips every other key. *)
Lemma parse_object_strips : forall shape v pq,
  parse (z_object shape) v = Some pq ->
  NoDup (map fst shape) ->
  forall k, lookup k shape = None -> get pq k = Normal JUndefined.
Proof.
  intros shape v pq H Hnd k Hk.
  destruct v; try discriminate. cbn [parse] in H.
  destruct (fields parse props shape) as [out|] eqn:Hout; [|discriminate].
  inversion H; subst pq. cbn [get]. unfold field.
  now rewrite (fields_lookup _ _ _ _ Hout Hnd k), Hk.
Qed.

(** An object whose field fails the schema of its key is refused. *)
Lemma parse_object_refuses : forall shape props k sk,
  lookup k shape = Some sk ->
  parse sk (field props k) = None ->
  parse (z_object shape) (JObj props) = None.
Proof.
  intros shape props k sk Hk Hnone. cbn [parse].
  destruct (fields parse props shape) as [out|] eqn:Hout; [|reflexivity].
  destruct (fields_each_parsed _ _ _ _ Hout _ _ Hk) as [x' Hx']. congruence.
Qed.

(** ** Validated intents *)

Ltac distinct_keys :=
  cbn; repeat (constructor; [cbn; intuition discriminate|]); constructor.

Lemma validated_searchTerm : forall intent,
  validated intent -> exists term, get intent "searchTerm" = Normal (JStr term).
Proof.
  intros intent [v Hv].
  destruct (parse_object_get _ _ _ Hv ltac:(distinct_keys) "searchTerm" z_string eq_refl)
    as (props & x' & _ & Hx & Hget).
  apply parse_string_inv in Hx. destruct Hx as (s & -> & _). eauto.
Qed.

(** The builder reads [osm_tags], a key the schema does not have. *)
Lemma validated_no_osm_tags : forall intent,
  validated intent -> get intent "osm_tags" = Normal JUndefined.
Proof.
  intros intent [v Hv].
  exact (parse_object_strips _ _ _ Hv ltac:(distinct_keys) "osm_tags" eq_refl).
Qed.

Lemma validated_location : forall intent,
  validated intent ->
  exists location, get intent "location" = Normal location /\
    (location = JUndefined \/
     exists raw, parse (z_object location_shape) raw = Some location).
Proof.
  intros intent [v Hv].
  destruct (parse_object_get _ _ _ Hv ltac:(distinct_keys) "location"
              (z_optional (z_object location_shape)) eq_refl)
    as (props & x' & _ & Hx & Hget).
  exists x'. split; [exact Hget|].
  apply parse_optional_inv in Hx. destruct Hx as [[_ ->]|[_ Hx]]; eauto.
Qed.

(** A validated location holds a radius that is a plain number, if any ... *)
Lemma location_radius : forall raw location,
  parse (z_object location_shape) raw = Some location ->
  get location "radius" = Normal JUndefined \/
  exists r, get location "radius" = Normal (JNum r).
Proof.
  intros raw location H.
  destruct (parse_object_get _ _ _ H ltac:(distinct_keys) "radius"
              (z_optional z_number) eq_refl) as (props & x' & _ & Hx & Hget).
  apply parse_optional_inv in Hx. destruct Hx as [[_ ->]|[_ Hx]]; [now left|].
  apply parse_number_inv in Hx. destruct Hx as (n & -> & _). right. eauto.
Qed.

(** ... and coordinates that are a pair of numbers, if any. *)
Lemma location_coordinates : forall raw location,
  parse (z_object location_shape) raw = Some location ->
  get location "coordinates" = Normal JUndefined \/
  exists c lat lon,
    get location "coordinates" = Normal (JObj c) /\
    field c "latitude" = JNum lat /\ field c "longitude" = JNum lon.
Proof.
  intros raw location H.
  destruct (parse_object_get _ _ _ H ltac:(distinct_keys) "coordinates"
              (z_optional (z_object [("latitude", z_number); ("longitude", z_number)]))
              eq_refl) as (props & x' & _ & Hx & Hget).
  apply parse_optional_inv in Hx. destruct Hx as [[_ ->]|[_ Hx]]; [now left|].
  right.
  destruct (parse_object_get _ _ _ Hx ltac:(distinct_keys) "latitude" z_number eq_refl)
    as (p1 & lat' & _ & Hlat & Hglat).
  destruct (parse_object_get _ _ _ Hx ltac:(distinct_keys) "longitude" z_number eq_refl)
    as (p2 & lon' & _ & Hlon & Hglon).
  apply parse_number_inv in Hlat, Hlon.
  destruct Hlat as (lat & -> & _), Hlon as (lon & -> & _).
  destruct x'; try discriminate. cbn [get] in Hglat, Hglon.
  exists props0, lat, lon. repeat split; congruence.
Qed.

Lemma location_is_object : forall raw location,
  parse (z_object location_shape) raw = Some location -> exists l, location = JObj l.
Proof.
  intros raw location H. destruct raw; try discriminate. cbn [parse] in H.
  destruct (fields parse props location_shape); [|discriminate].
  inversion H. eauto.
Qed.

(** What [buildNominatimQuery] appends for a validated intent: the bare
    term, then a viewbox of half-width [5 * 0.02] when coordinates are
    present, then the format and the limit. *)
Lemma buildNominatimParams_validated : forall intent,
  validated intent ->
  exists term,
    get intent "searchTerm" = Normal (JStr term) /\
    buildNominatimParams intent =
    Normal ((("q", term) ::
             match coordinates_of intent with
             | Some (lat, lon) =>
                 [("viewbox", viewbox lat lon (5 * 0.02)); ("bounded", "1")]
             | None => []
             end) ++ [("format", "json"); ("limit", "10")])%list.
Proof.
  intros intent Hval.
  destruct (validated_searchTerm _ Hval) as [term Hterm].
  pose proof (validated_no_osm_tags _ Hval) as Hosm.
  destruct (validated_location _ Hval) as (location & Hloc & Hcases).
  exists term. split; [exact Hterm|].
  unfold buildNominatimParams, coordinates_of.
  rewrite Hterm, Hosm, Hloc. cbn [bind get_opt truthy join join_by to_string].
  destruct Hcases as [->|[raw Hraw]]; [reflexivity|].
  destruct (location_is_object _ _ Hraw) as [l ->].
  cbn [get_opt].
  destruct (location_coordinates _ _ Hraw) as [Hc|(c & lat & lon & Hc & Hlat & Hlon)];
    rewrite Hc; cbn [bind truthy]; [reflexivity|].
  cbn [get]. rewrite Hlat, Hlon. cbn [bind].
  destruct (location_radius _ _ Hraw) as [Hr|[r Hr]]; cbn [get] in Hr;
    injection Hr as Hr; rewrite Hr; reflexivity.
Qed.

(** ** The tag vocabulary validator *)

Lemma some_value_is_modelled : forall val entries,
  some_value_is val entries <> Unmodelled.
Proof.
  intros val. induction entries as [|e rest IH]; cbn [some_value_is]; [discriminate|].
  pose proof (get_modelled e "value") as Hg.
  destruct (get e "value") as [v|err|]; cbn [bind]; [|discriminate|congruence].
  destruct (strict_eq v val); [discriminate|exact IH].
Qed.


(** The validator always returns, whatever it is given: true, or a value
    that reads as false. It asks the registry at most once. *)
Lemma validateOsmTag_returns : forall w key val l,
  exists answer ext,
    validateOsmTag w key val l = (Normal answer, (l ++ ext)%list) /\
    Forall (fun e => fst e = TagRegistry) ext /\
    (answer = JBool true \/ truthy answer = false).
Proof.
  intros w key val l. unfold validateOsmTag, try_catch, bindIO, lift, ret.
  assert (Hfalse : forall ext,
    Forall (fun e : site * request => fst e = TagRegistry) ext ->
    exists answer ext0,
      (Normal (JBool false), (l ++ ext)%list) = (Normal answer, (l ++ ext0)%list) /\
      Forall (fun e : site * request => fst e = TagRegistry) ext0 /\
      (answer = JBool true \/ truthy answer = false)).
  { intros ext Hext. exists (JBool false), ext. auto. }
  pose proof (to_string_modelled key) as Hk.
  destruct (to_string key) as [k|e|];
    [|exists (JBool false), []; rewrite app_nil_r; auto|congruence].
  pose proof (to_string_modelled val) as Hv.
  destruct (to_string val) as [v|e|];
    [|exists (JBool false), []; rewrite app_nil_r; auto|congruence].
  unfold fetch_url.
  set (url := TAGINFO_API ++ _).
  assert (Hext : Forall (fun e : site * request => fst e = TagRegistry)
                   [(TagRegistry, FetchRequest url)])
    by (repeat constructor).
  destruct (fetch w (List.length l) url) as [|r]; [now apply Hfalse|].
  unfold response_json.
  destruct (json r) as [data|]; cbn [ret throw]; [|now apply Hfalse].
  pose proof (get_modelled data "data") as Hd.
  destruct (get data "data") as [listing|e|]; [|now apply Hfalse|congruence].
  destruct listing;
    try (exists JUndefined, [(TagRegistry, FetchRequest url)]; auto; fail);
    try (now apply Hfalse).
  pose proof (some_value_is_modelled val items) as Hs.
  destruct (some_value_is val items) as [found|e|]; [|now apply Hfalse|congruence].
  exists (JBool found), [(TagRegistry, FetchRequest url)].
  split; [reflexivity|]. split; [exact Hext|]. destruct found; auto.
Qed.



(** With a registry that lists italian and pizza. *)
Lemma validateOsmTag_examples :
  fst (run (validateOsmTag italian (JStr "cuisine") (JStr "italian"))) = Normal (JBool true) /\
  fst (run (validateOsmTag italian (JStr "cuisine") (JStr "martian"))) = Normal (JBool false) /\
  fst (run (validateOsmTag offline (JStr "cuisine") (JStr "italian"))) = Normal (JBool false).
Proof. repeat split; vm_compute; reflexivity. Qed.

(** ** The intent resolver *)

Lemma Forall_intent_registry : forall ext,
  Forall (fun e : site * request => fst e = TagRegistry) ext -> Forall intent_site ext.
Proof.
  intros ext H. eapply Forall_impl; [|exact H]. unfold intent_site. intuition.
Qed.

(** The single-tag mapping always returns: [null], or the model's reply
    when the validator answered with a truthy value for it. *)
Lemma mapToOsmTags_returns : forall w term l,
  exists tag ext,
    mapToOsmTags w term l = (Normal tag, (l ++ ext)%list) /\
    Forall intent_site ext /\
    (tag = JNull \/
     chat w (List.length l) "mistral-large-latest" (mapping_prompt term) = ChatJSON tag /\
     exists k, get tag "key" = Normal k).
Proof.
  intros w term l. unfold mapToOsmTags, try_catch, bindIO, chat_json, lift, ret.
  set (req := (MappingChat, ChatRequest "mistral-large-latest" (mapping_prompt term))).
  assert (Hreq : Forall intent_site [req])
    by (repeat constructor; unfold intent_site; cbn; intuition).
  destruct (chat w (List.length l) "mistral-large-latest" (mapping_prompt term))
    as [| |result] eqn:Hchat;
    try (exists JNull, [req]; repeat split; auto; fail).
  pose proof (get_modelled result "key") as Hk.
  destruct (get result "key") as [key|e|] eqn:Hkey;
    [|exists JNull, [req]; repeat split; auto|congruence].
  pose proof (get_modelled result "value") as Hv.
  destruct (get result "value") as [val|e|];
    [|exists JNull, [req]; repeat split; auto|congruence].
  destruct (validateOsmTag_returns w key val (l ++ [req])%list)
    as (answer & ext & Hval & Hext & _).
  rewrite Hval. rewrite <- app_assoc.
  assert (Hall : Forall intent_site ([req] ++ ext)%list)
    by (apply Forall_app; split; [exact Hreq|now apply Forall_intent_registry]).
  destruct (truthy answer).
  - exists result, ([req] ++ ext)%list. repeat split; eauto.
  - exists JNull, ([req] ++ ext)%list. repeat split; auto.
Qed.

(** The schema refuses it as soon as a position is supplied (the radius is
    an object, the schema wants a number) ... *)
Lemma fallback_intent_with_position : forall query u osmTags,
  parse ParsedQuerySchema (fallback_intent query (Some u) osmTags) = None.
Proof.
  intros query u osmTags. cbn.
  destruct (is_nan (latitude u)); [reflexivity|].
  destruct (is_nan (longitude u)); reflexivity.
Qed.


Lemma parseSearchQuery_halves : forall w query userLocation,
  parseSearchQuery w query userLocation =
  try_catch (interpretation w query userLocation)
            (fun _ => fallback w query userLocation).
Proof. reflexivity. Qed.

Lemma schema_parse_outcome : forall v l,
  schema_parse ParsedQuerySchema v l = (Throw ZodError, l) \/
  exists intent, schema_parse ParsedQuerySchema v l = (Normal intent, l) /\
                 parse ParsedQuerySchema v = Some intent.
Proof.
  intros v l. unfold schema_parse.
  destruct (parse ParsedQuerySchema v) as [intent|] eqn:H.
  - right. exists intent. split; reflexivity.
  - left. reflexivity.
Qed.

(** The fallback raises a ZodError or returns a validated intent whose term
    is the raw text. *)
Lemma fallback_outcome : forall w query userLocation l,
  exists ext,
    snd (fallback w query userLocation l) = (l ++ ext)%list /\
    Forall intent_site ext /\
    (fst (fallback w query userLocation l) = Throw ZodError \/
     exists intent,
       fst (fallback w query userLocation l) = Normal intent /\
       validated intent /\ get intent "searchTerm" = Normal (JStr query)).
Proof.
  intros w query userLocation l. unfold fallback, bindIO.
  destruct (mapToOsmTags_returns w query l) as (tag & ext & Hmap & Hext & _).
  rewrite Hmap. exists ext.
  destruct (schema_parse_outcome (fallback_intent query userLocation tag) (l ++ ext)%list)
    as [H|(intent & H & Hparse)]; rewrite H; cbn [fst snd].
  - auto.
  - split; [reflexivity|]. split; [exact Hext|]. right. exists intent.
    split; [reflexivity|]. split; [now exists (fallback_intent query userLocation tag)|].
    destruct (parse_object_get _ _ _ Hparse ltac:(distinct_keys) "searchTerm" z_string
                eq_refl) as (props & x' & Hprops & Hx & Hget).
    inversion Hprops; subst props. cbn in Hx. inversion Hx; subst x'. exact Hget.
Qed.

(** The body of the [try] never leaves the modelled fragment: it raises, or
    returns a validated intent, after the one model call. *)
Lemma interpretation_outcome : forall w query userLocation l,
  let req := (AnalysisChat, ChatRequest "mistral-medium" (analysis_prompt query)) in
  snd (interpretation w query userLocation l) = (l ++ [req])%list /\
  ((exists e, fst (interpretation w query userLocation l) = Throw e) \/
   exists intent,
     fst (interpretation w query userLocation l) = Normal intent /\ validated intent).
Proof.
  intros w query userLocation l req.
  unfold interpretation, bindIO, chat_json, lift, ret. fold req.
  destruct (chat w (List.length l) "mistral-medium" (analysis_prompt query))
    as [| |parsed]; cbn [fst snd]; try (split; [reflexivity|left; eauto]; fail).
  assert (Hschema : forall v,
    snd (schema_parse ParsedQuerySchema v (l ++ [req])%list) = (l ++ [req])%list /\
    ((exists e, fst (schema_parse ParsedQuerySchema v (l ++ [req])%list) = Throw e) \/
     exists intent,
       fst (schema_parse ParsedQuerySchema v (l ++ [req])%list) = Normal intent /\
       validated intent)).
  { intros v. destruct (schema_parse_outcome v (l ++ [req])%list)
      as [H|(intent & H & Hp)]; rewrite H; cbn [fst snd]; split; auto.
    - left; eauto.
    - right. exists intent. split; [reflexivity|now exists v]. }
  destruct parsed as [| | | | | |props]; cbn [get]; cbn [fst snd];
    try (split; [reflexivity|left; eauto]; fail);
    try (cbn [get_opt strict_eq]; apply Hschema).
  destruct (field props "location") as [| | | | | |lprops] eqn:Hloc;
    cbn [get_opt get strict_eq]; try apply Hschema.
  destruct (strict_eq (field lprops "type") (JStr "current")); [|apply Hschema].
  destruct userLocation as [u|]; [|apply Hschema].
  cbn [set]. apply Hschema.
Qed.

(** Intent resolution raises only a ZodError, from the schema check of its
    fallback; otherwise it returns a validated intent. Its requests are the
    model calls and the registry lookup. *)
Lemma parseSearchQuery_outcome : forall w query userLocation l,
  exists ext,
    snd (parseSearchQuery w query userLocation l) = (l ++ ext)%list /\
    Forall intent_site ext /\
    (fst (parseSearchQuery w query userLocation l) = Throw ZodError \/
     exists intent,
       fst (parseSearchQuery w query userLocation l) = Normal intent /\
       validated intent).
Proof.
  intros w query userLocation l. rewrite parseSearchQuery_halves. unfold try_catch.
  destruct (interpretation_outcome w query userLocation l) as [Hlog Hres].
  set (req := (AnalysisChat, ChatRequest "mistral-medium" (analysis_prompt query))) in *.
  assert (Hreq : Forall intent_site [req])
    by (repeat constructor; unfold intent_site; cbn; intuition).
  destruct (interpretation w query userLocation l) as [r l1].
  cbn [fst snd] in *. subst l1.
  destruct Hres as [[e ->]|(intent & -> & Hval)].
  - destruct (fallback_outcome w query userLocation (l ++ [req])%list)
      as (ext & Hsnd & Hext & Hfst).
    exists ([req] ++ ext)%list. rewrite app_assoc. split; [exact Hsnd|].
    split; [now apply Forall_app|].
    destruct Hfst as [H|(intent & H & Hval & _)]; [now left|right; eauto].
  - exists [req]. cbn [fst snd]. repeat split; auto. right; eauto.
Qed.

Lemma fallback_intent_refused : forall query userLocation osmTags,
  osmTags <> JUndefined ->
  (forall items, osmTags <> JArr items) ->
  parse ParsedQuerySchema (fallback_intent query userLocation osmTags) = None.
Proof.
  intros query [u|] osmTags Hu Ha; [apply fallback_intent_with_position|].
  destruct osmTags; try reflexivity; [congruence|].
  now specialize (Ha items).
Qed.

(** X5. When the analysis call fails or its content is not JSON, and the
    mapping call does not answer with a JSON array, the resolver raises a
    ZodError, with or without a position: the fallback it announces does not
    return. *)
Lemma resolver_fallback_raises : forall w query userLocation l,
  chat w (List.length l) "mistral-medium" (analysis_prompt query) = ChatRejected \/
  chat w (List.length l) "mistral-medium" (analysis_prompt query) = ChatInvalidJSON ->
  (forall items,
     chat w (S (List.length l)) "mistral-large-latest" (mapping_prompt query)
     <> ChatJSON (JArr items)) ->
  fst (parseSearchQuery w query userLocation l) = Throw ZodError.
Proof.
  intros w query userLocation l Hchat Hmap.
  rewrite parseSearchQuery_halves. unfold try_catch.
  set (req := (AnalysisChat, ChatRequest "mistral-medium" (analysis_prompt query))).
  assert (Hbody : exists e, interpretation w query userLocation l = (Throw e, (l ++ [req])%list)).
  { unfold interpretation, bindIO, chat_json. fold req.
    destruct Hchat as [-> | ->]; eauto. }
  destruct Hbody as [e ->]. unfold fallback, bindIO.
  destruct (mapToOsmTags_returns w query (l ++ [req])%list)
    as (tag & ext & Hrun & _ & Htag).
  rewrite Hrun. unfold schema_parse.
  rewrite fallback_intent_refused; [reflexivity| |].
  - destruct Htag as [->|[_ [k Hk]]]; [discriminate|].
    intros ->. discriminate.
  - intros items ->. destruct Htag as [H|[H _]]; [discriminate|].
    rewrite length_app in H. cbn [List.length] in H.
    rewrite Nat.add_1_r in H. now apply Hmap in H.
Qed.

(** X6. A reply that asks for the current position, resolved with a
    position at hand, never yields an intent: the radius written into the
    reply is an object, the schema refuses it, and so it does in the
    fallback. *)
Lemma current_location_raises : forall w query u l props lprops,
  chat w (List.length l) "mistral-medium" (analysis_prompt query) = ChatJSON (JObj props) ->
  field props "location" = JObj lprops ->
  field lprops "type" = JStr "current" ->
  fst (parseSearchQuery w query (Some u) l) = Throw ZodError.
Proof.
  intros w query u l props lprops Hchat Hloc Hty.
  rewrite parseSearchQuery_halves. unfold try_catch.
  set (req := (AnalysisChat, ChatRequest "mistral-medium" (analysis_prompt query))).
  assert (Hbody : interpretation w query (Some u) l = (Throw ZodError, (l ++ [req])%list)).
  { unfold interpretation, bindIO, chat_json, lift. fold req. rewrite Hchat.
    cbn [get]. rewrite Hloc. cbn [get_opt get]. rewrite Hty. cbn [strict_eq].
    rewrite String.eqb_refl. cbn [set]. unfold schema_parse.
    set (located := store "radius" default_radius
                      (store "coordinates" (object_of u) lprops)).
    assert (Hfield : field (store "location" (JObj located) props) "location"
                     = JObj located) by apply field_store.
    assert (Hradius : field located "radius" = default_radius) by apply field_store.
    assert (Hnone : parse ParsedQuerySchema (JObj (store "location" (JObj located) props))
                    = None).
    { unfold ParsedQuerySchema.
      eapply parse_object_refuses with (k := "location"); [reflexivity|].
      rewrite Hfield. cbn [parse].
      eapply parse_object_refuses with (k := "radius"); [reflexivity|].
      now rewrite Hradius. }
    now rewrite Hnone. }
  rewrite Hbody. unfold fallback, bindIO.
  destruct (mapToOsmTags_returns w query (l ++ [req])%list) as (tag & ext & Hrun & _).
  rewrite Hrun. unfold schema_parse. now rewrite fallback_intent_with_position.
Qed.

(** When the reply passes the schema, the intent is returned after the one
    model call: the registry is not asked about its tags. *)
Lemma interpreted_intent_is_returned : forall w query userLocation l intent,
  fst (interpretation w query userLocation l) = Normal intent ->
  parseSearchQuery w query userLocation l =
  (Normal intent,
   (l ++ [(AnalysisChat, ChatRequest "mistral-medium" (analysis_prompt query))])%list).
Proof.
  intros w query userLocation l intent H.
  rewrite parseSearchQuery_halves. unfold try_catch.
  destruct (interpretation_outcome w query userLocation l) as [Hlog _].
  destruct (interpretation w query userLocation l) as [r l1].
  cbn [fst snd] in *. now subst.
Qed.

(** ** The geocode resolver *)

Lemma searchLocations_halves : forall w query userLocation,
  searchLocations w query userLocation =
  try_catch (ladder w query userLocation) (fun _ => last_resort w query).
Proof. reflexivity. Qed.

Lemma length_is_zero_modelled : forall v, length_is_zero v <> Unmodelled.
Proof. destruct v; cbn; discriminate. Qed.

Lemma buildNominatimQuery_validated : forall intent,
  validated intent -> exists params, buildNominatimQuery intent = Normal params.
Proof.
  intros intent H. destruct (buildNominatimParams_validated _ H) as (term & _ & Hp).
  unfold buildNominatimQuery. rewrite Hp. cbn [bind]. eauto.
Qed.

(** The last resort returns the body of its request, or raises because the
    request was rejected or its body could not be decoded. *)
Lemma last_resort_outcome : forall w query l,
  let a3 := fetch w (List.length l) (tier3_url query) in
  last_resort w query l =
  (match a3 with
   | FetchRejected => Throw NetworkError
   | FetchResolved r =>
       match json r with Some v => Normal v | None => Throw SyntaxError end
   end, (l ++ [(Tier3, FetchRequest (tier3_url query))])%list).
Proof.
  intros w query l a3. unfold last_resort, bindIO, fetch_url, response_json. fold a3.
  destruct a3 as [|r]; [reflexivity|]. destruct (json r); reflexivity.
Qed.

(** The ladder once intent resolution has returned [intent] with log [l1]:
    what it completes with and what it adds to the log, by the answers of
    tier 1 and tier 2. *)
Lemma ladder_outcome : forall w query userLocation l intent l1 params,
  parseSearchQuery w query userLocation l = (Normal intent, l1) ->
  buildNominatimQuery intent = Normal params ->
  let url1 := NOMINATIM_SEARCH ++ params in
  let a1 := fetch w (List.length l1) url1 in
  let a2 := fetch w (S (List.length l1)) (tier2_url query) in
  let t1 := (Tier1, FetchRequest url1) in
  let t2 := (Tier2, FetchRequest (tier2_url query)) in
  if raised1 a1 then
    exists e, ladder w query userLocation l = (Throw e, (l1 ++ [t1])%list)
  else if empty1 a1 then
    if raised2 a2 then
      exists e, ladder w query userLocation l = (Throw e, (l1 ++ [t1; t2])%list)
    else
      exists v, body a2 = Some v /\
        ladder w query userLocation l = (Normal v, (l1 ++ [t1; t2])%list)
  else
    exists v, body a1 = Some v /\
      ladder w query userLocation l = (Normal v, (l1 ++ [t1])%list).
Proof.
  intros w query userLocation l intent l1 params Hintent Hparams url1 a1 a2 t1 t2.
  unfold ladder, bindIO. rewrite Hintent. unfold lift. rewrite Hparams.
  unfold fetch_url. fold url1. fold a1. fold t1.
  unfold raised1, empty1.
  destruct a1 as [|r1]; [eauto|]. cbn [body].
  destruct (ok r1); cbn [negb orb andb]; [|unfold throw; eauto].
  unfold response_json. destruct (json r1) as [results|]; unfold ret, throw; [|eauto].
  pose proof (length_is_zero_modelled results) as Hm.
  destruct (length_is_zero results) as [[|]|e|]; [| |eauto|congruence].
  - replace (List.length (l1 ++ [t1])) with (S (List.length l1))
      by (rewrite length_app; cbn; lia).
    fold a2. fold t2. unfold raised2. rewrite <- app_assoc. cbn [app].
    destruct a2 as [|r2]; [eauto|]. cbn [body].
    destruct (json r2) as [v|]; unfold ret, throw; eauto.
  - eauto.
Qed.

(** C7, as amended. [searchLocations] stays inside the model; what it returns
    is the decoded body of the last request it made; and an exception reaches
    the caller only from the limit-3 request itself, rejected or answered with
    a body that cannot be decoded. Any earlier failure has been caught. *)
Theorem searchLocations_raises_only_from_last_resort :
  forall w query userLocation l,
    match searchLocations w query userLocation l with
    | (Normal v, l') =>
        exists l0 s url,
          l' = (l0 ++ [(s, FetchRequest url)])%list /\
          (s = Tier1 \/ s = Tier2 \/ s = Tier3) /\
          body (fetch w (List.length l0) url) = Some v
    | (Throw e, l') =>
        exists l0,
          l' = (l0 ++ [(Tier3, FetchRequest (tier3_url query))])%list /\
          body (fetch w (List.length l0) (tier3_url query)) = None
    | (Unmodelled, _) => False
    end.
Proof.
  intros w query userLocation l. rewrite searchLocations_halves. unfold try_catch.
  assert (Hlast : forall l0,
    match last_resort w query l0 with
    | (Normal v, l') =>
        exists l0 s url,
          l' = (l0 ++ [(s, FetchRequest url)])%list /\
          (s = Tier1 \/ s = Tier2 \/ s = Tier3) /\
          body (fetch w (List.length l0) url) = Some v
    | (Throw e, l') =>
        exists l0,
          l' = (l0 ++ [(Tier3, FetchRequest (tier3_url query))])%list /\
          body (fetch w (List.length l0) (tier3_url query)) = None
    | (Unmodelled, _) => False
    end).
  { intros l0. rewrite last_resort_outcome.
    destruct (fetch w (List.length l0) (tier3_url query)) as [|r] eqn:Ha.
    - exists l0. now rewrite Ha.
    - destruct (json r) as [v|] eqn:Hj.
      + exists l0, Tier3, (tier3_url query). rewrite Ha. auto.
      + exists l0. now rewrite Ha. }
  destruct (parseSearchQuery_outcome w query userLocation l) as (ext & Hlog & _ & Hres).
  destruct (parseSearchQuery w query userLocation l) as [r l1] eqn:Hintent.
  cbn [fst snd] in Hlog, Hres. destruct Hres as [->|(intent & -> & Hval)].
  - unfold ladder, bindIO. rewrite Hintent. apply Hlast.
  - destruct (buildNominatimQuery_validated _ Hval) as [params Hparams].
    pose proof (ladder_outcome w query userLocation l intent l1 params Hintent Hparams)
      as H. cbn zeta in H.
    destruct (raised1 _).
    { destruct H as [e ->]. apply Hlast. }
    destruct (empty1 _).
    + destruct (raised2 _).
      * destruct H as [e ->]. apply Hlast.
      * destruct H as (v & Hbody & ->).
        exists (l1 ++ [(Tier1, FetchRequest (NOMINATIM_SEARCH ++ params))])%list,
               Tier2, (tier2_url query).
        split; [now rewrite <- app_assoc|]. split; [auto|].
        rewrite length_app, Nat.add_1_r. exact Hbody.
    + destruct H as (v & Hbody & ->).
      exists l1, Tier1, (NOMINATIM_SEARCH ++ params). auto.
Qed.

(** The requests of intent resolution are none of the three tiers. *)
Lemma intent_sites_no_tier : forall l s,
  Forall intent_site l -> s = Tier1 \/ s = Tier2 \/ s = Tier3 -> issued s l = false.
Proof.
  intros l s H Hs. unfold issued. induction H as [|[s0 r] rest Hx _ IH]; [reflexivity|].
  cbn [existsb fst]. rewrite IH, orb_false_r.
  unfold intent_site in Hx. cbn [fst] in Hx.
  destruct Hx as [-> | [-> | ->]], Hs as [-> | [-> | ->]]; reflexivity.
Qed.

Lemma issued_app : forall s (l1 l2 : log),
  issued s (l1 ++ l2)%list = issued s l1 || issued s l2.
Proof. intros. unfold issued. apply existsb_app. Qed.

(** C3, as amended. Once intent resolution has returned, tier 1 is issued;
    tier 2 is issued exactly when tier 1 succeeded with zero results; the
    limit-3 tier is issued exactly when tier 1 raised an error, or tier 2 did
    after an empty tier 1, and never on results that are merely empty; and
    after an empty tier 1 the body that tier 2 answers with is what is
    returned. *)
Theorem ladder_tiers :
  forall w query userLocation a1,
    tier1_answer w query userLocation = Some a1 ->
    let a2 := tier2_answer w query userLocation in
    let outcome := run (searchLocations w query userLocation) in
    issued Tier1 (snd outcome) = true /\
    issued Tier2 (snd outcome) = empty1 a1 /\
    issued Tier3 (snd outcome) = raised1 a1 || (empty1 a1 && raised2 a2) /\
    (empty1 a1 = true -> forall v, body a2 = Some v -> fst outcome = Normal v).
Proof.
  intros w query userLocation a1 Ha1 a2 outcome.
  unfold tier1_answer, run in Ha1. unfold tier2_answer, run in a2.
  destruct (parseSearchQuery_outcome w query userLocation []) as (ext & Hlog & Hsites & _).
  destruct (parseSearchQuery w query userLocation []) as [r l1] eqn:Hintent.
  cbn [fst snd app] in Hlog, a2. subst ext.
  destruct r as [intent|e|]; try discriminate.
  destruct (buildNominatimQuery intent) as [params|e|] eqn:Hparams; try discriminate.
  assert (Ha : fetch w (List.length l1) (NOMINATIM_SEARCH ++ params) = a1)
    by congruence.
  pose proof (ladder_outcome w query userLocation [] intent l1 params Hintent Hparams)
    as H. cbn zeta in H. rewrite Ha in H. fold a2 in H.
  unfold outcome, run. rewrite searchLocations_halves. unfold try_catch.
  assert (N1 := intent_sites_no_tier l1 Tier1 Hsites ltac:(auto)).
  assert (N2 := intent_sites_no_tier l1 Tier2 Hsites ltac:(auto)).
  assert (N3 := intent_sites_no_tier l1 Tier3 Hsites ltac:(auto)).
  destruct (raised1 a1) eqn:R1.
  { destruct H as [e ->]. rewrite last_resort_outcome. cbn [snd fst].
    rewrite !issued_app, N1, N2, N3.
    assert (E1 : empty1 a1 = false).
    { unfold raised1, empty1 in *. destruct a1 as [|r1]; [reflexivity|].
      destruct (ok r1); [|reflexivity]. cbn [negb orb andb] in *.
      destruct (json r1) as [v|]; [|reflexivity].
      destruct (length_is_zero v) as [[|]|?|]; congruence. }
    rewrite E1. repeat split; try reflexivity. discriminate. }
  destruct (empty1 a1) eqn:E1.
  - destruct (raised2 a2) eqn:R2.
    + destruct H as [e ->]. rewrite last_resort_outcome. cbn [snd fst].
      rewrite !issued_app, N1, N2, N3. repeat split; try reflexivity.
      intros _ v Hv. unfold raised2, body in *. destruct a2 as [|r2]; [discriminate|].
      destruct (json r2); discriminate.
    + destruct H as (v & Hbody & ->). cbn [snd fst].
      rewrite !issued_app, N1, N2, N3. repeat split; try reflexivity.
      intros _ v' Hv'. congruence.
  - destruct H as (v & Hbody & ->). cbn [snd fst].
    rewrite !issued_app, N1, N2, N3. repeat split; try reflexivity. discriminate.
Qed.

(** ** Intent resolution on the worked examples *)

(** C1 (defect in the code). With the model unreachable, the resolver does
    not return an intent whose term is the raw text: its fallback hands
    [osmTags: null] to the schema, which raises, and the ZodError leaves
    [parseSearchQuery]. *)
Theorem resolver_raises_when_model_is_down :
  fst (run (parseSearchQuery offline "coffee shops" None)) = Throw ZodError /\
  fst (run (mapToOsmTags offline "coffee shops")) = Normal JNull /\
  parse ParsedQuerySchema (fallback_intent "coffee shops" None JNull) = None.
Proof. repeat split; vm_compute; reflexivity. Qed.

(** C2 (defect in the code). The resolver returns the tag of the model's
    reply although the validator answers false for it: on this path the
    registry is never asked. *)
Theorem unvalidated_tag_is_returned :
  osmTags_of martian_reply = [martian_tag] /\
  fst (run (validateOsmTag martian (JStr "cuisine") (JStr "martian"))) = Normal (JBool false) /\
  fst (run (parseSearchQuery martian "restaurants" None)) = Normal martian_reply /\
  issued TagRegistry (snd (run (parseSearchQuery martian "restaurants" None))) = false.
Proof. repeat split; vm_compute; reflexivity. Qed.

(** C9 (defect in the code). On the scenario of the specification, a reply
    that asks for the current position and a position at hand, no intent is
    returned at all: the resolver raises the ZodError of its fallback. *)
Theorem current_location_scenario_raises :
  fst (run (parseSearchQuery italian "Italian restaurants near me"
              (Some {| latitude := 40; longitude := -73 |}))) = Throw ZodError /\
  fst (run (parseSearchQuery italian "Italian restaurants near me" None))
  = Normal (JObj [("searchTerm", JStr "Italian restaurants");
                  ("location", JObj []);
                  ("osmTags",
                    JArr [JObj [("key", JStr "cuisine"); ("value", JStr "italian")]])]).
Proof. split; vm_compute; reflexivity. Qed.

(** ** The synthesized query *)

(** The term list of a validated intent is its bare search term. *)
Lemma query_term_is_bare : forall intent,
  validated intent ->
  exists term params,
    get intent "searchTerm" = Normal (JStr term) /\
    buildNominatimParams intent = Normal params /\
    lookup "q" params = Some term.
Proof.
  intros intent H. destruct (buildNominatimParams_validated _ H) as (term & Ht & Hp).
  exists term. eexists. split; [exact Ht|]. split; [exact Hp|]. reflexivity.
Qed.

(** The format and the limit are always requested. *)
Lemma format_and_limit_always : forall intent,
  validated intent ->
  exists params,
    buildNominatimParams intent = Normal params /\
    In ("format", "json") params /\ In ("limit", "10") params.
Proof.
  intros intent H. destruct (buildNominatimParams_validated _ H) as (term & _ & Hp).
  eexists. split; [exact Hp|].
  split; apply in_or_app; right; cbn; auto.
Qed.

(** C4 (defect in the code). An intent that carries one tag is synthesized
    without any bracketed clause: the builder looks for the tag under
    [osm_tags.specific], which the schema never produces. *)
Theorem tag_clause_is_missing :
  parse ParsedQuerySchema tagged_intent = Some tagged_intent /\
  osmTags_of tagged_intent = [JObj [("key", JStr "amenity"); ("value", JStr "restaurant")]] /\
  buildNominatimParams tagged_intent
  = Normal [("q", "pizza"); ("format", "json"); ("limit", "10")] /\
  buildNominatimQuery tagged_intent = Normal "q=pizza&format=json&limit=10".
Proof. repeat split; vm_compute; reflexivity. Qed.

(** C6 (defect in the code). An intent with a radius of 10 gets the viewbox
    of half-width 0.1 around its coordinates, not the one of half-width
    [10 * 0.02]; the format and the limit are there. *)
Theorem radius_is_not_applied :
  parse ParsedQuerySchema wide_intent = Some wide_intent /\
  coordinates_of wide_intent = Some (40, -73) /\
  radius_of wide_intent = Some 10 /\
  buildNominatimParams wide_intent
  = Normal [("q", "pizza"); ("viewbox", "-73.1,40.1,-72.9,39.9"); ("bounded", "1");
            ("format", "json"); ("limit", "10")] /\
  viewbox 40 (-73) (10 * 0.02) = "-73.2,40.2,-72.8,39.8".
Proof. repeat split; vm_compute; reflexivity. Qed.

(** C10. For a validated intent with coordinates, whatever radius it
    holds, the viewbox has half-width [5 * 0.02], which is 0.1: the builder
    reads [radius.value] on a radius that the schema made a plain number. *)
Theorem viewbox_ignores_radius :
  forall intent lat lon (radius : option float),
    validated intent ->
    coordinates_of intent = Some (lat, lon) ->
    radius_of intent = radius ->
    (5 * 0.02 = 0.1) /\
    exists term,
      let params :=
        [("q", term); ("viewbox", viewbox lat lon 0.1); ("bounded", "1");
         ("format", "json"); ("limit", "10")] in
      buildNominatimParams intent = Normal params /\
      buildNominatimQuery intent = Normal (URLSearchParams_toString params).
Proof.
  intros intent lat lon radius Hval Hc _. split; [reflexivity|].
  destruct (buildNominatimParams_validated _ Hval) as (term & _ & Hp).
  exists term. cbn zeta. unfold buildNominatimQuery. rewrite Hp, Hc. split; reflexivity.
Qed.

Lemma viewbox_ignores_radius_witness :
  (5 * 0.02 = 0.1) /\
  exists term,
    let params :=
      [("q", term); ("viewbox", viewbox 40 (-73) 0.1); ("bounded", "1");
       ("format", "json"); ("limit", "10")] in
    buildNominatimParams wide_intent = Normal params /\
    buildNominatimQuery wide_intent = Normal (URLSearchParams_toString params).
Proof.
  apply (viewbox_ignores_radius wide_intent 40 (-73) (Some 10)).
  - exists wide_intent. reflexivity.
  - reflexivity.
  - reflexivity.
Defined.

(** ** The geocode resolver on the worked examples *)

(** Tier 1 comes back empty without an error, tier 2 is rejected, and the
    limit-3 tier is issued all the same. *)
Lemma last_resort_after_tier2_error :
  ~ last_resort_only_after_tier1_error flaky "cafe" None.
Proof.
  intros H. destruct H as (a1 & Ha & Hr); [vm_compute; reflexivity|].
  vm_compute in Ha. inversion Ha; subst a1. vm_compute in Hr. discriminate.
Qed.

Lemma ladder_tiers_witness :
  let a1 := FetchResolved {| ok := true; json := Some (JArr []) |} in
  let a2 := tier2_answer flaky "cafe" None in
  let outcome := run (searchLocations flaky "cafe" None) in
  issued Tier1 (snd outcome) = true /\
  issued Tier2 (snd outcome) = empty1 a1 /\
  issued Tier3 (snd outcome) = raised1 a1 || (empty1 a1 && raised2 a2) /\
  (empty1 a1 = true -> forall v, body a2 = Some v -> fst outcome = Normal v).
Proof.
  apply (ladder_tiers flaky "cafe" None). vm_compute. reflexivity.
Defined.

(** An empty tier 1 followed by a tier 2 that finds a place: the place is
    returned and the limit-3 tier stays out. *)
Lemma plain_term_results_are_returned :
  run (searchLocations sparse "cafes nearby" None)
  = (Normal (JArr [place "Cafe Central" "48.21" "16.36"]),
     [(AnalysisChat, ChatRequest "mistral-medium" (analysis_prompt "cafes nearby"));
      (Tier1, FetchRequest (NOMINATIM_SEARCH ++ "q=cafe&format=json&limit=10"));
      (Tier2, FetchRequest (NOMINATIM_SEARCH ++ "q=cafes%20nearby&format=json&limit=10"))]).
Proof. vm_compute. reflexivity. Qed.

(** The scenario of the specification, through [searchLocations]: intent
    resolution raises, and the places come from the limit-3 request. *)
Lemma scenario_falls_to_last_resort :
  fst (run (searchLocations italian "Italian restaurants near me"
              (Some {| latitude := 40; longitude := -73 |})))
  = Normal (JArr [place "Trattoria" "40.01" "-73.02"]) /\
  issued Tier1 (snd (run (searchLocations italian "Italian restaurants near me"
                            (Some {| latitude := 40; longitude := -73 |})))) = false /\
  issued Tier3 (snd (run (searchLocations italian "Italian restaurants near me"
                            (Some {| latitude := 40; longitude := -73 |})))) = true.
Proof. repeat split; vm_compute; reflexivity. Qed.

(** With no network the limit-3 request is rejected too, and the rejection
    reaches the caller. *)
Lemma searchLocations_raises_offline : ~ never_raises offline "coffee shops" None.
Proof. intros [results H]. vm_compute in H. discriminate. Qed.

(** ** The ranking stage *)

Section Sorting.
Import App.
Context {A : Type}.
Variable comparefn : A -> A -> float.

Lemma insert_permutation : forall x sorted,
  Permutation (x :: sorted) (insert comparefn x sorted).
Proof.
  intros x. induction sorted as [|y rest IH]; cbn [insert]; [reflexivity|].
  destruct (after comparefn x y); [|reflexivity].
  rewrite perm_swap. now constructor.
Qed.

Lemma Array_sort_permutation : forall array,
  Permutation array (Array_sort comparefn array).
Proof.
  induction array as [|x rest IH]; cbn [Array_sort]; [constructor|].
  rewrite <- insert_permutation. now constructor.
Qed.

Lemma consistent_comparator_on : forall array,
  consistent_comparator comparefn array = true -> consistent_on comparefn array.
Proof.
  intros array H a b c Ha Hb Hc. unfold consistent_comparator in H.
  rewrite forallb_forall in H. specialize (H a Ha).
  apply andb_prop in H. destruct H as [Hrefl H].
  rewrite forallb_forall in H. specialize (H b Hb).
  apply andb_prop in H. destruct H as [H H3].
  apply andb_prop in H. destruct H as [_ Hsym].
  rewrite forallb_forall in H3. specialize (H3 c Hc).
  apply andb_prop in H3. destruct H3 as [H3 Hgt].
  apply andb_prop in H3. destruct H3 as [Htie Hlt].
  constructor.
  - exact Hrefl.
  - intros E. now rewrite E in Hsym.
  - intros E1 E2. now rewrite E1, E2 in Htie.
  - intros E1 E2. now rewrite E1, E2 in Hlt.
  - intros E1 E2. now rewrite E1, E2 in Hgt.
Qed.

(** The three relations exclude one another and cover every pair. *)
Lemma trichotomy : forall x y,
  (before comparefn x y = true /\ tied comparefn x y = false /\ after comparefn x y = false) \/
  (before comparefn x y = false /\ tied comparefn x y = true /\ after comparefn x y = false) \/
  (before comparefn x y = false /\ tied comparefn x y = false /\ after comparefn x y = true).
Proof.
  intros x y. unfold before, tied, after.
  destruct (sort_compare (comparefn x y)); intuition.
Qed.

Ltac contradict_order x y :=
  let T1 := fresh in let T2 := fresh in let T3 := fresh in
  destruct (trichotomy x y) as [(T1 & T2 & T3)|[(T1 & T2 & T3)|(T1 & T2 & T3)]];
  congruence.

Section Consistent.
Variable array : list A.
Hypothesis consistent : consistent_on comparefn array.

Lemma after_flips : forall a b,
  In a array -> In b array -> after comparefn a b = true -> before comparefn b a = true.
Proof.
  intros a b Ha Hb Hab.
  destruct (trichotomy b a) as [(H & _)|[(_ & H & _)|(_ & _ & H)]]; [exact H| |].
  - pose proof (tie_sym _ _ _ _ (consistent b a a Hb Ha Ha) H) as E.
    contradict_order a b.
  - pose proof (after_trans _ _ _ _ (consistent a b a Ha Hb Ha) Hab H) as E.
    pose proof (tie_refl _ _ _ _ (consistent a a a Ha Ha Ha)) as R.
    contradict_order a a.
Qed.

Lemma before_flips : forall a b,
  In a array -> In b array -> before comparefn a b = true -> after comparefn b a = true.
Proof.
  intros a b Ha Hb Hab.
  destruct (trichotomy b a) as [(H & _)|[(_ & H & _)|(_ & _ & H)]]; [| |exact H].
  - pose proof (before_trans _ _ _ _ (consistent a b a Ha Hb Ha) Hab H) as E.
    pose proof (tie_refl _ _ _ _ (consistent a a a Ha Ha Ha)) as R.
    contradict_order a a.
  - pose proof (tie_sym _ _ _ _ (consistent b a a Hb Ha Ha) H) as E.
    contradict_order a b.
Qed.

(** Not standing after is transitive. *)
Lemma not_after_trans : forall a b c,
  In a array -> In b array -> In c array ->
  after comparefn a b = false -> after comparefn b c = false ->
  after comparefn a c = false.
Proof.
  intros a b c Ha Hb Hc Hab Hbc.
  destruct (after comparefn a c) eqn:Hac; [exfalso|reflexivity].
  pose proof (after_flips a c Ha Hc Hac) as Hca.
  destruct (trichotomy a b) as [(Lab & _)|[(_ & Tab & _)|(_ & _ & F)]]; [| |congruence];
    destruct (trichotomy b c) as [(Lbc & _)|[(_ & Tbc & _)|(_ & _ & F)]]; try congruence.
  - pose proof (before_trans _ _ _ _ (consistent a b c Ha Hb Hc) Lab Lbc) as E.
    contradict_order a c.
  - pose proof (before_trans _ _ _ _ (consistent c a b Hc Ha Hb) Hca Lab) as E.
    pose proof (tie_sym _ _ _ _ (consistent b c c Hb Hc Hc) Tbc) as S.
    contradict_order c b.
  - pose proof (before_trans _ _ _ _ (consistent b c a Hb Hc Ha) Lbc Hca) as E.
    pose proof (tie_sym _ _ _ _ (consistent a b b Ha Hb Hb) Tab) as S.
    contradict_order b a.
  - pose proof (tie_trans _ _ _ _ (consistent a b c Ha Hb Hc) Tab Tbc) as E.
    contradict_order a c.
Qed.

Lemma insert_sorted : forall x sorted,
  In x array -> incl sorted array ->
  StronglySorted (fun a b => after comparefn a b = false) sorted ->
  StronglySorted (fun a b => after comparefn a b = false) (insert comparefn x sorted).
Proof.
  intros x sorted Hx. induction sorted as [|y rest IH]; intros Hincl Hs; cbn [insert].
  - repeat constructor.
  - inversion Hs as [|? ? Hrest Hy]; subst.
    assert (Hyin : In y array) by (apply Hincl; now left).
    assert (Hrin : incl rest array) by (intros z Hz; apply Hincl; now right).
    destruct (after comparefn x y) eqn:Hxy.
    + constructor; [now apply IH|].
      apply (Permutation_Forall (insert_permutation x rest)).
      constructor; [|exact Hy].
      pose proof (after_flips x y Hx Hyin Hxy) as B.
      contradict_order y x.
    + constructor; [exact Hs|]. constructor; [exact Hxy|].
      rewrite Forall_forall in *. intros z Hz.
      apply (not_after_trans x y z); auto.
Qed.


End Consistent.

(** With a consistent comparator the sort returns its input in an order in
    which no element stands after one it should precede ... *)
Lemma Array_sort_sorted : forall array,
  consistent_on comparefn array ->
  StronglySorted (fun a b => after comparefn a b = false) (Array_sort comparefn array).
Proof.
  intros array Hc.
  assert (H : forall part, incl part array ->
            StronglySorted (fun a b => after comparefn a b = false)
              (Array_sort comparefn part)).
  { induction part as [|x rest IH]; intros Hincl; cbn [Array_sort]; [constructor|].
    apply (insert_sorted array Hc).
    - apply Hincl. now left.
    - intros z Hz. apply Hincl. right.
      now apply (Permutation_in _ (Permutation_sym (Array_sort_permutation rest))).
    - apply IH. intros z Hz. apply Hincl. now right. }
  apply H. apply incl_refl.
Qed.


End Sorting.



(** The example of the specification: from (0,0), the result at (0,1) comes
    before the one at (0,10). *)
Lemma nearer_result_first :
  App.handleSearch App.series_math [far; near] (Some origin) false
  = App.setLocations [near; far].
Proof. vm_compute. reflexivity. Qed.

(* ================================================================== *)
(** * Further properties of the code *)

(** ** The validator and the single-tag mapping *)

(** X1. When the registry's body decodes to an object that has no [data]
    member, or a null one, [validateOsmTag] resolves to [undefined], not to
    [false]: the optional chaining stops before [some] is called. *)
Theorem validateOsmTag_without_listing :
  forall (w : World) (key value : string) (l : log) r props,
    fetch w (List.length l) (registry_url key value) = FetchResolved r ->
    json r = Some (JObj props) ->
    field props "data" = JUndefined \/ field props "data" = JNull ->
    fst (validateOsmTag w (JStr key) (JStr value) l) = Normal JUndefined.
Proof.
  intros w key val l r props Hfetch Hjson Hdata.
  unfold validateOsmTag, try_catch, bindIO, lift, fetch_url. cbn [to_string].
  fold (registry_url key val). rewrite Hfetch. unfold response_json. rewrite Hjson.
  cbn [ret get]. destruct Hdata as [-> | ->]; reflexivity.
Qed.

Lemma validateOsmTag_without_listing_witness :
  fst (validateOsmTag bare_registry (JStr "amenity") (JStr "cafe") []) = Normal JUndefined.
Proof.
  apply (validateOsmTag_without_listing bare_registry "amenity" "cafe" []
           {| ok := true; json := Some (JObj []) |} []).
  - reflexivity.
  - reflexivity.
  - left. reflexivity.
Defined.

(** X2. [mapToOsmTags] never raises. It returns [null], or the model's
    reply itself, and the reply only when its [key] and [value] could be read
    and the validator gave a truthy answer for them. *)
Theorem mapToOsmTags_null_or_validated :
  forall (w : World) (term : string) (l : log),
    let req := (MappingChat, ChatRequest "mistral-large-latest" (mapping_prompt term)) in
    exists tag,
      fst (mapToOsmTags w term l) = Normal tag /\
      (tag = JNull \/
       (chat w (List.length l) "mistral-large-latest" (mapping_prompt term) = ChatJSON tag /\
        exists key val answer,
          get tag "key" = Normal key /\ get tag "value" = Normal val /\
          fst (validateOsmTag w key val (l ++ [req])%list) = Normal answer /\
          truthy answer = true)).
Proof.
  intros w term l req.
  unfold mapToOsmTags, try_catch, bindIO, chat_json, lift, ret. fold req.
  destruct (chat w (List.length l) "mistral-large-latest" (mapping_prompt term))
    as [| |result] eqn:Hchat; try (exists JNull; auto; fail).
  pose proof (get_modelled result "key") as Hk.
  destruct (get result "key") as [key|e|] eqn:Hkey;
    [|exists JNull; auto|congruence].
  pose proof (get_modelled result "value") as Hv.
  destruct (get result "value") as [val|e|] eqn:Hval;
    [|exists JNull; auto|congruence].
  destruct (validateOsmTag_returns w key val (l ++ [req])%list)
    as (answer & ext & Hrun & _ & _).
  rewrite Hrun. destruct (truthy answer) eqn:Ht.
  - exists result. split; [reflexivity|]. right. split; [reflexivity|].
    exists key, val, answer. rewrite Hrun. auto.
  - exists JNull. auto.
Qed.

(** ** The intent resolver *)

Lemma strict_eq_string : forall v s, strict_eq v (JStr s) = true -> v = JStr s.
Proof.
  destruct v; cbn; intros s' H; try discriminate.
  apply String.eqb_eq in H. now subst.
Qed.

(** X3. When the reply of the model passes the schema, and no position was
    supplied or the reply does not ask for the current one, the resolver
    returns the parsed reply after its one model call: no mapping call, no
    registry lookup. *)
Theorem reply_that_passes_is_returned :
  forall (w : World) (query : string) (userLocation : option UserLocation) (l : log)
         reply location intent,
    chat w (List.length l) "mistral-medium" (analysis_prompt query) = ChatJSON reply ->
    parse ParsedQuerySchema reply = Some intent ->
    get reply "location" = Normal location ->
    userLocation = None \/ get_opt location "type" <> Normal (JStr "current") ->
    parseSearchQuery w query userLocation l
    = (Normal intent,
       (l ++ [(AnalysisChat, ChatRequest "mistral-medium" (analysis_prompt query))])%list).
Proof.
  intros w query userLocation l reply location intent Hchat Hparse Hloc Hcur.
  unfold parseSearchQuery, try_catch, bindIO, chat_json, lift. rewrite Hchat, Hloc.
  assert (Hty : exists ty, get_opt location "type" = Normal ty).
  { destruct location; cbn; eauto. }
  destruct Hty as [ty Hty]. rewrite Hty.
  assert (Hskip : match strict_eq ty (JStr "current"), userLocation with
                  | true, Some _ => False
                  | _, _ => True
                  end).
  { destruct (strict_eq ty (JStr "current")) eqn:E; [|exact I].
    destruct userLocation as [u|]; [|exact I].
    apply strict_eq_string in E. subst ty.
    destruct Hcur as [H|H]; [discriminate|]. now apply H. }
  unfold schema_parse.
  destruct (strict_eq ty (JStr "current")); [destruct userLocation; [contradiction|]|];
    unfold ret; rewrite Hparse; reflexivity.
Qed.

Lemma reply_that_passes_is_returned_witness :
  parseSearchQuery martian "restaurants" None []
  = (Normal martian_reply,
     ([] ++ [(AnalysisChat, ChatRequest "mistral-medium" (analysis_prompt "restaurants"))])%list).
Proof.
  apply (reply_that_passes_is_returned martian "restaurants" None [] martian_reply
           JUndefined martian_reply).
  - reflexivity.
  - reflexivity.
  - reflexivity.
  - left. reflexivity.
Defined.

Lemma resolver_fallback_raises_witness :
  fst (parseSearchQuery offline "coffee shops" None []) = Throw ZodError.
Proof.
  apply (resolver_fallback_raises offline "coffee shops" None []).
  - left. reflexivity.
  - intros items. discriminate.
Defined.

Lemma current_location_raises_witness :
  fst (parseSearchQuery italian "Italian restaurants near me"
         (Some {| latitude := 40; longitude := -73 |}) []) = Throw ZodError.
Proof.
  apply (current_location_raises italian "Italian restaurants near me"
           {| latitude := 40; longitude := -73 |} []
           [("searchTerm", JStr "Italian restaurants");
            ("location", JObj [("type", JStr "current")]);
            ("osmTags", JArr [JObj [("key", JStr "cuisine"); ("value", JStr "italian")]])]
           [("type", JStr "current")]).
  - reflexivity.
  - reflexivity.
  - reflexivity.
Defined.

(** A reply into which the position was written is refused: the radius
    that comes with it is an object. *)
Lemma located_reply_is_refused : forall props lprops u,
  parse ParsedQuerySchema
    (JObj (store "location"
             (JObj (store "radius" default_radius
                      (store "coordinates" (object_of u) lprops))) props)) = None.
Proof.
  intros props lprops u.
  set (located := store "radius" default_radius
                    (store "coordinates" (object_of u) lprops)).
  assert (Hfield : field (store "location" (JObj located) props) "location"
                   = JObj located) by apply field_store.
  assert (Hradius : field located "radius" = default_radius) by apply field_store.
  unfold ParsedQuerySchema.
  eapply parse_object_refuses with (k := "location"); [reflexivity|].
  rewrite Hfield. cbn [parse].
  eapply parse_object_refuses with (k := "radius"); [reflexivity|].
  now rewrite Hradius.
Qed.

(** What the body of the [try] returns is the reply itself, as parsed by
    the schema. *)
Lemma interpretation_returns_reply : forall w query userLocation l intent,
  fst (interpretation w query userLocation l) = Normal intent ->
  exists reply,
    chat w (List.length l) "mistral-medium" (analysis_prompt query) = ChatJSON reply /\
    parse ParsedQuerySchema reply = Some intent.
Proof.
  intros w query userLocation l intent.
  unfold interpretation, bindIO, chat_json, lift, ret.
  destruct (chat w (List.length l) "mistral-medium" (analysis_prompt query))
    as [| |reply]; cbn [fst]; try discriminate.
  intros H. exists reply. split; [reflexivity|].
  assert (Hplain : fst (schema_parse ParsedQuerySchema reply
                          (l ++ [(AnalysisChat,
                                  ChatRequest "mistral-medium" (analysis_prompt query))])%list)
                   = Normal intent -> parse ParsedQuerySchema reply = Some intent).
  { unfold schema_parse, ret, throw. destruct (parse ParsedQuerySchema reply); cbn [fst];
      intros E; [inversion E; reflexivity|discriminate E]. }
  destruct reply as [| | | | | |props]; cbn [get] in H; try discriminate;
    try (cbn [get_opt strict_eq] in H; now apply Hplain).
  destruct (field props "location") as [| | | | | |lprops] eqn:Hloc;
    cbn [get_opt get strict_eq] in H; try (now apply Hplain).
  destruct (strict_eq (field lprops "type") (JStr "current")); [|now apply Hplain].
  destruct userLocation as [u|]; [|now apply Hplain].
  cbn [set] in H. unfold schema_parse in H.
  rewrite located_reply_is_refused in H. discriminate.
Qed.

(** What the handler of the [catch] returns was built from the raw text,
    with no position, around an array that the mapping call replied. *)
Lemma fallback_returns_text : forall w query userLocation l intent,
  fst (fallback w query userLocation l) = Normal intent ->
  userLocation = None /\
  get intent "searchTerm" = Normal (JStr query) /\
  get intent "location" = Normal JUndefined /\
  exists items,
    chat w (List.length l) "mistral-large-latest" (mapping_prompt query)
    = ChatJSON (JArr items).
Proof.
  intros w query userLocation l intent. unfold fallback, bindIO.
  destruct (mapToOsmTags_returns w query l) as (tag & ext & Hmap & _ & Htag).
  rewrite Hmap. unfold schema_parse.
  destruct (parse ParsedQuerySchema (fallback_intent query userLocation tag))
    as [intent'|] eqn:Hparse; cbn [fst]; [|discriminate].
  intros H. inversion H; subst intent'. clear H.
  destruct userLocation as [u|];
    [now rewrite fallback_intent_with_position in Hparse|].
  split; [reflexivity|].
  destruct (parse_object_get _ _ _ Hparse ltac:(distinct_keys) "searchTerm" z_string
              eq_refl) as (props & x' & Hprops & Hx & Hget).
  inversion Hprops; subst props. cbn in Hx. inversion Hx; subst x'.
  split; [exact Hget|].
  destruct (parse_object_get _ _ _ Hparse ltac:(distinct_keys) "location"
              (z_optional (z_object location_shape)) eq_refl)
    as (props & y' & Hprops' & Hy & Hgety).
  inversion Hprops'; subst props. cbn in Hy. inversion Hy; subst y'.
  split; [exact Hgety|].
  destruct tag as [| | | | |items|]; try discriminate.
  - destruct Htag as [H|[_ [k Hk]]]; discriminate.
  - exists items. destruct Htag as [H|[H _]]; [discriminate|exact H].
Qed.

(** X14. The position handed to the resolver never reaches the intent it
    returns. A returned intent is either the model's reply as the schema
    parsed it, with nothing written into it, or, after a failed analysis and
    only when no position was supplied, the raw text with no location around
    an array that the mapping call replied. *)
Theorem supplied_position_is_never_returned :
  forall w query userLocation l intent,
    fst (parseSearchQuery w query userLocation l) = Normal intent ->
    (exists reply,
       chat w (List.length l) "mistral-medium" (analysis_prompt query) = ChatJSON reply /\
       parse ParsedQuerySchema reply = Some intent) \/
    (userLocation = None /\
     get intent "searchTerm" = Normal (JStr query) /\
     get intent "location" = Normal JUndefined /\
     exists items,
       chat w (S (List.length l)) "mistral-large-latest" (mapping_prompt query)
       = ChatJSON (JArr items)).
Proof.
  intros w query userLocation l intent. rewrite parseSearchQuery_halves.
  unfold try_catch.
  destruct (interpretation_outcome w query userLocation l) as [Hlog _].
  pose proof (interpretation_returns_reply w query userLocation l) as Hreply.
  destruct (interpretation w query userLocation l) as [[intent'|e|] l1];
    cbn [fst snd] in *.
  - intros H. left. apply Hreply. exact H.
  - intros H. right. subst l1.
    destruct (fallback_returns_text _ _ _ _ _ H) as (Hu & Hterm & Hloc & items & Hitems).
    rewrite length_app, Nat.add_1_r in Hitems. eauto 6.
  - discriminate.
Qed.

Lemma supplied_position_is_never_returned_witness :
  (exists reply,
     chat martian (List.length (@nil (site * request))) "mistral-medium"
       (analysis_prompt "restaurants") = ChatJSON reply /\
     parse ParsedQuerySchema reply = Some martian_reply) \/
  (Some {| latitude := 40; longitude := -73 |} = None /\
   get martian_reply "searchTerm" = Normal (JStr "restaurants") /\
   get martian_reply "location" = Normal JUndefined /\
   exists items,
     chat martian (S (List.length (@nil (site * request)))) "mistral-large-latest"
       (mapping_prompt "restaurants") = ChatJSON (JArr items)).
Proof.
  apply (supplied_position_is_never_returned martian "restaurants"
           (Some {| latitude := 40; longitude := -73 |}) [] martian_reply).
  vm_compute. reflexivity.
Defined.

(** ** Validation is idempotent *)

Lemma lookup_in {A : Type} : forall (l : list (string * A)) k a,
  NoDup (map fst l) -> In (k, a) l -> lookup k l = Some a.
Proof.
  induction l as [|[k0 a0] rest IH]; intros k a Hnd Hin; [contradiction|].
  inversion Hnd as [|? ? Hnotin Hnd']; subst. cbn [lookup].
  destruct Hin as [Heq|Hin].
  - inversion Heq; subst. now rewrite String.eqb_refl.
  - destruct (String.eqb k k0) eqn:E; [|now apply IH].
    apply String.eqb_eq in E. subst k0. exfalso. apply Hnotin.
    change k with (fst (k, a)). now apply in_map.
Qed.

Lemma each_idempotent : forall (p : value -> option value) items items',
  (forall v x, p v = Some x -> p x = Some x) ->
  each p items = Some items' -> each p items' = Some items'.
Proof.
  intros p. induction items as [|v rest IH]; intros items' Hp H; cbn [each] in H.
  - inversion H. reflexivity.
  - destruct (p v) as [x|] eqn:Hx; [|discriminate].
    destruct (each p rest) as [rest'|] eqn:Hr; [|discriminate].
    inversion H; subst. cbn [each]. rewrite (Hp _ _ Hx), (IH _ Hp eq_refl). reflexivity.
Qed.

Lemma fields_idempotent {S : Type} (p : S -> value -> option value) :
  forall shape props out,
    NoDup (map fst shape) ->
    Forall (fun ks => forall v x, p (snd ks) v = Some x -> p (snd ks) x = Some x) shape ->
    fields p props shape = Some out ->
    fields p out shape = Some out.
Proof.
  intros shape props out Hnd Hall Hout.
  assert (Hsuffix : forall suffix o',
            incl suffix shape ->
            fields p props suffix = Some o' ->
            fields p out suffix = Some o').
  { induction suffix as [|[k sk] rest IH]; intros o' Hincl Hs; cbn [fields] in *.
    - exact Hs.
    - destruct (p sk (field props k)) as [x'|] eqn:Hx; [|discriminate].
      destruct (fields p props rest) as [rest'|] eqn:Hr; [|discriminate].
      assert (Hin : In (k, sk) shape) by (apply Hincl; now left).
      assert (Hk : lookup k shape = Some sk) by now apply lookup_in.
      pose proof (fields_lookup _ _ _ _ Hout Hnd k) as Hl. rewrite Hk in Hl.
      rewrite Forall_forall in Hall. specialize (Hall _ Hin). cbn [snd] in Hall.
      rewrite (IH rest' (fun z Hz => Hincl z (or_intror Hz)) eq_refl).
      unfold has_own at 1. unfold field at 1. rewrite Hl.
      destruct (has_own k props) eqn:Hown.
      + rewrite Hx. rewrite (Hall _ _ Hx). exact Hs.
      + unfold has_own in Hown. unfold field in Hx.
        destruct (lookup k props); [discriminate|]. rewrite Hx. exact Hs. }
  apply Hsuffix; [apply incl_refl|exact Hout].
Qed.

Lemma parse_idempotent : forall s,
  distinct_keys s -> forall v x, parse s v = Some x -> parse s x = Some x.
Proof.
  induction s using schema_induction; intros Hd v x Hp.
  - destruct v; cbn in Hp; try discriminate. inversion Hp. reflexivity.
  - destruct v; cbn in Hp; try discriminate.
    destruct (is_nan x0) eqn:E; [discriminate|]. inversion Hp. cbn. now rewrite E.
  - destruct v; cbn in Hp; try discriminate. inversion Hp. reflexivity.
  - destruct v; cbn [parse] in Hp; try discriminate.
    destruct (fields parse props shape) as [out|] eqn:Hout; [|discriminate].
    inversion Hp; subst x. cbn [parse]. inversion Hd as [| | |? Hnd Hsub| |]; subst.
    rewrite (fields_idempotent parse shape props out); [reflexivity|exact Hnd| |exact Hout].
    rewrite Forall_forall in *. intros ks Hin. apply H; [exact Hin|]. now apply Hsub.
  - destruct v; cbn [parse] in Hp; try discriminate.
    destruct (each (parse s) items) as [items'|] eqn:He; [|discriminate].
    inversion Hp; subst x. cbn [parse]. inversion Hd; subst.
    rewrite (each_idempotent (parse s) items items'); [reflexivity| |exact He].
    intros v0 x0 Hv0. now apply (IHs H0 v0).
  - inversion Hd; subst.
    apply parse_optional_inv in Hp. destruct Hp as [[_ ->]|[_ Hp]]; [reflexivity|].
    specialize (IHs H0 _ _ Hp). destruct x; cbn [parse]; auto.
Qed.

Lemma ParsedQuerySchema_distinct_keys : distinct_keys ParsedQuerySchema.
Proof.
  unfold ParsedQuerySchema.
  repeat (first [ apply distinct_object; [distinct_keys|]
                | apply distinct_optional
                | apply distinct_array
                | apply distinct_string
                | apply distinct_number
                | apply distinct_boolean
                | apply Forall_cons; cbn [snd]
                | apply Forall_nil ]).
Qed.

(** X4. The only exception that leaves [parseSearchQuery] is a ZodError,
    and an intent that it returns is a fixed point of the schema: checking
    it again with [ParsedQuerySchema.parse] gives the same intent. *)
Theorem parseSearchQuery_returns_fixed_point :
  forall (w : World) (query : string) (userLocation : option UserLocation) (l : log),
    match fst (parseSearchQuery w query userLocation l) with
    | Normal intent => parse ParsedQuerySchema intent = Some intent
    | Throw e => e = ZodError
    | Unmodelled => False
    end.
Proof.
  intros w query userLocation l.
  destruct (parseSearchQuery_outcome w query userLocation l)
    as (ext & _ & _ & [H|(intent & H & v & Hv)]); rewrite H.
  - reflexivity.
  - exact (parse_idempotent _ ParsedQuerySchema_distinct_keys _ _ Hv).
Qed.

(** ** The synthesized query and the fallback URLs *)

Lemma occurs_app : forall c a b, occurs c (a ++ b) = occurs c a || occurs c b.
Proof.
  intros c a b. unfold occurs. induction a as [|x a IH]; [reflexivity|].
  cbn [String.append list_ascii_of_string existsb]. now rewrite IH, orb_assoc.
Qed.

Lemma split_on_free : forall sep a, occurs sep a = false -> split_on sep a = [a].
Proof.
  intros sep. induction a as [|x a IH]; intros H; [reflexivity|].
  unfold occurs in H. cbn [list_ascii_of_string existsb] in H.
  apply orb_false_elim in H. destruct H as [Hx Ha].
  cbn [split_on]. rewrite Ascii.eqb_sym, Hx. now rewrite (IH Ha).
Qed.

Lemma split_on_app : forall sep a b,
  occurs sep a = false -> split_on sep (a ++ String sep b) = a :: split_on sep b.
Proof.
  intros sep. induction a as [|x a IH]; intros b H.
  - cbn [String.append split_on]. now rewrite Ascii.eqb_refl.
  - unfold occurs in H. cbn [list_ascii_of_string existsb] in H.
    apply orb_false_elim in H. destruct H as [Hx Ha].
    cbn [String.append split_on]. rewrite Ascii.eqb_sym, Hx. now rewrite (IH b Ha).
Qed.

Lemma cut_at_free : forall sep a, occurs sep a = false -> cut_at sep a = (a, "").
Proof.
  intros sep. induction a as [|x a IH]; intros H; [reflexivity|].
  unfold occurs in H. cbn [list_ascii_of_string existsb] in H.
  apply orb_false_elim in H. destruct H as [Hx Ha].
  cbn [cut_at]. rewrite Ascii.eqb_sym, Hx. now rewrite (IH Ha).
Qed.

Lemma cut_at_app : forall sep a b,
  occurs sep a = false -> cut_at sep (a ++ String sep b) = (a, b).
Proof.
  intros sep. induction a as [|x a IH]; intros b H.
  - cbn [String.append cut_at]. now rewrite Ascii.eqb_refl.
  - unfold occurs in H. cbn [list_ascii_of_string existsb] in H.
    apply orb_false_elim in H. destruct H as [Hx Ha].
    cbn [String.append cut_at]. rewrite Ascii.eqb_sym, Hx. now rewrite (IH b Ha).
Qed.

Lemma append_assoc : forall a b c : string, (a ++ b) ++ c = a ++ (b ++ c).
Proof.
  induction a as [|x a IH]; intros b c; [reflexivity|].
  cbn [String.append]. now rewrite IH.
Qed.

(** Neither encoder lets an ampersand or an equals sign through. *)
Lemma encodeURIComponent_free : forall c s,
  c = "&"%char \/ c = "="%char -> occurs c (encodeURIComponent s) = false.
Proof.
  intros c s Hc. induction s as [|a s IH]; [reflexivity|].
  cbn [encodeURIComponent]. rewrite occurs_app, IH, orb_false_r.
  destruct Hc as [-> | ->];
    destruct a as [[] [] [] [] [] [] [] []]; vm_compute; reflexivity.
Qed.

Lemma form_urlencode_free : forall c s,
  c = "&"%char \/ c = "="%char -> occurs c (form_urlencode s) = false.
Proof.
  intros c s Hc. induction s as [|a s IH]; [reflexivity|].
  cbn [form_urlencode]. rewrite occurs_app, IH, orb_false_r.
  destruct Hc as [-> | ->];
    destruct a as [[] [] [] [] [] [] [] []]; vm_compute; reflexivity.
Qed.

Lemma parameters_of_search : forall qs,
  parameters (NOMINATIM_SEARCH ++ qs) = map (cut_at "=") (split_on "&" qs).
Proof.
  intros qs. unfold parameters.
  change (NOMINATIM_SEARCH ++ qs)
    with ("https://nominatim.openstreetmap.org/search" ++ String "?" qs).
  rewrite cut_at_app by (vm_compute; reflexivity). reflexivity.
Qed.

Lemma parameters_of_fallback : forall query limit,
  occurs "&" limit = false -> occurs "=" limit = false ->
  parameters (NOMINATIM_SEARCH ++ "q=" ++ encodeURIComponent query
              ++ "&format=json&limit=" ++ limit)
  = [("q", encodeURIComponent query); ("format", "json"); ("limit", limit)].
Proof.
  intros query limit Ha He. rewrite parameters_of_search.
  change ("q=" ++ encodeURIComponent query ++ "&format=json&limit=" ++ limit)
    with ("q=" ++ encodeURIComponent query
          ++ String "&" ("format=json" ++ String "&" ("limit=" ++ limit))).
  rewrite <- append_assoc.
  rewrite split_on_app
    by (rewrite occurs_app, encodeURIComponent_free by auto; reflexivity).
  rewrite split_on_app by reflexivity.
  rewrite split_on_free by (rewrite occurs_app, Ha; reflexivity).
  cbn [map].
  change ("q=" ++ encodeURIComponent query)
    with ("q" ++ String "=" (encodeURIComponent query)).
  rewrite cut_at_app by reflexivity.
  change ("format=json") with ("format" ++ String "=" "json").
  rewrite cut_at_app by reflexivity.
  change ("limit=" ++ limit) with ("limit" ++ String "=" limit).
  rewrite cut_at_app by reflexivity. reflexivity.
Qed.

(** X7. Whatever the text of the query, the URLs of the two fallback tiers
    carry exactly three parameters: q, holding the encoded text, format=json,
    and the limit, 10 for tier 2 and 3 for the last resort. The text cannot
    add a parameter or change the format or the limit. *)
Theorem fallback_urls_carry_three_parameters :
  forall query : string,
    parameters (tier2_url query)
    = [("q", encodeURIComponent query); ("format", "json"); ("limit", "10")] /\
    parameters (tier3_url query)
    = [("q", encodeURIComponent query); ("format", "json"); ("limit", "3")].
Proof.
  intros query. split.
  - exact (parameters_of_fallback query "10" eq_refl eq_refl).
  - exact (parameters_of_fallback query "3" eq_refl eq_refl).
Qed.

(** X23. For a key and a value that are strings, the validator makes
    exactly one request, whatever comes back, and its URL carries exactly two
    parameters, the encoded key and the encoded value: neither text can add
    a parameter to the registry lookup. *)
Theorem validateOsmTag_asks_once :
  forall (w : World) (key value : string) (l : log),
    snd (validateOsmTag w (JStr key) (JStr value) l)
    = (l ++ [(TagRegistry, FetchRequest (registry_url key value))])%list /\
    parameters (registry_url key value)
    = [("key", encodeURIComponent key); ("value", encodeURIComponent value)].
Proof.
  intros w key val l. split.
  - unfold validateOsmTag, try_catch, bindIO, lift, ret, fetch_url. cbn [to_string].
    fold (registry_url key val).
    destruct (fetch w (List.length l) (registry_url key val)) as [|r]; [reflexivity|].
    unfold response_json. destruct (json r) as [data|]; unfold ret, throw; [|reflexivity].
    destruct (get data "data") as [listing|e|]; [|reflexivity|reflexivity].
    destruct listing; try reflexivity.
    destruct (some_value_is (JStr val) items); reflexivity.
  - unfold parameters, registry_url.
    change (TAGINFO_API ++ "/tag/values?key=" ++ encodeURIComponent key
            ++ "&value=" ++ encodeURIComponent val)
      with ("https://taginfo.openstreetmap.org/api/4/tag/values"
            ++ String "?" ("key=" ++ encodeURIComponent key
                           ++ String "&" ("value=" ++ encodeURIComponent val))).
    rewrite cut_at_app by (vm_compute; reflexivity). cbn [snd].
    rewrite <- append_assoc.
    rewrite split_on_app
      by (rewrite occurs_app, encodeURIComponent_free by auto; reflexivity).
    rewrite split_on_free
      by (rewrite occurs_app, encodeURIComponent_free by auto; reflexivity).
    cbn [map].
    change ("key=" ++ encodeURIComponent key)
      with ("key" ++ String "=" (encodeURIComponent key)).
    rewrite cut_at_app by reflexivity.
    change ("value=" ++ encodeURIComponent val)
      with ("value" ++ String "=" (encodeURIComponent val)).
    rewrite cut_at_app by reflexivity. reflexivity.
Qed.

Lemma append_empty_r : forall a : string, a ++ "" = a.
Proof. induction a as [|x a IH]; [reflexivity|]. cbn [String.append]. now rewrite IH. Qed.

Lemma parameters_of_toString : forall params,
  params <> [] ->
  map (cut_at "=") (split_on "&" (URLSearchParams_toString params))
  = map (fun nv => (form_urlencode (fst nv), form_urlencode (snd nv))) params.
Proof.
  induction params as [|[n v] rest IH]; intros Hne; [congruence|].
  cbn [URLSearchParams_toString map fst snd].
  assert (Hpair : occurs "&" (form_urlencode n ++ String "=" (form_urlencode v)) = false).
  { rewrite occurs_app, form_urlencode_free by auto.
    unfold occurs. cbn [list_ascii_of_string existsb orb].
    fold (occurs "&" (form_urlencode v)). rewrite form_urlencode_free by auto.
    reflexivity. }
  assert (Hcut : cut_at "=" (form_urlencode n ++ String "=" (form_urlencode v))
                 = (form_urlencode n, form_urlencode v)).
  { apply cut_at_app. apply form_urlencode_free. auto. }
  destruct rest as [|p rest'].
  - rewrite append_empty_r.
    change ("=" ++ form_urlencode v) with (String "=" (form_urlencode v)).
    rewrite split_on_free by exact Hpair. cbn [map]. now rewrite Hcut.
  - change (form_urlencode n ++ "=" ++ form_urlencode v
            ++ "&" ++ URLSearchParams_toString (p :: rest'))
      with (form_urlencode n ++ String "=" (form_urlencode v
            ++ String "&" (URLSearchParams_toString (p :: rest')))).
    change (String "=" (form_urlencode v ++ String "&" (URLSearchParams_toString (p :: rest'))))
      with (String "=" (form_urlencode v) ++ String "&" (URLSearchParams_toString (p :: rest'))).
    rewrite <- append_assoc.
    rewrite split_on_app by exact Hpair.
    cbn [map]. rewrite Hcut. f_equal. apply IH. discriminate.
Qed.

(** X8. For every validated intent, the URL of tier 1 carries the encoded
    term in q, the viewbox and the bounded flag when the intent has
    coordinates, then format=json and limit=10, and nothing else: neither
    the term nor the coordinates can add a parameter. *)
Theorem synthesized_url_parameters :
  forall intent : value,
    validated intent ->
    exists term qs,
      get intent "searchTerm" = Normal (JStr term) /\
      buildNominatimQuery intent = Normal qs /\
      parameters (NOMINATIM_SEARCH ++ qs)
      = (("q", form_urlencode term) ::
         match coordinates_of intent with
         | Some (lat, lon) =>
             [("viewbox", form_urlencode (viewbox lat lon (5 * 0.02))); ("bounded", "1")]
         | None => []
         end ++ [("format", "json"); ("limit", "10")])%list.
Proof.
  intros intent Hval.
  destruct (buildNominatimParams_validated _ Hval) as (term & Hterm & Hp).
  exists term. eexists. split; [exact Hterm|].
  unfold buildNominatimQuery. rewrite Hp. cbn [bind]. split; [reflexivity|].
  rewrite parameters_of_search, parameters_of_toString by discriminate.
  cbn [map app fst snd]. f_equal.
  destruct (coordinates_of intent) as [[lat lon]|]; reflexivity.
Qed.

Lemma synthesized_url_parameters_witness :
  exists term qs,
    get wide_intent "searchTerm" = Normal (JStr term) /\
    buildNominatimQuery wide_intent = Normal qs /\
    parameters (NOMINATIM_SEARCH ++ qs)
    = (("q", form_urlencode term) ::
       match coordinates_of wide_intent with
       | Some (lat, lon) =>
           [("viewbox", form_urlencode (viewbox lat lon (5 * 0.02))); ("bounded", "1")]
       | None => []
       end ++ [("format", "json"); ("limit", "10")])%list.
Proof.
  apply (synthesized_url_parameters wide_intent).
  exists wide_intent. reflexivity.
Defined.

(** X9. An intent in the shape the builder reads, with a tag under
    [osm_tags.specific] and no location, gets the tag as a bracketed clause
    after the term, one space between them. *)
Theorem legacy_tag_clause :
  forall props tags specific term key val,
    field props "searchTerm" = JStr term ->
    field props "osm_tags" = JObj tags ->
    field tags "specific" = JObj specific ->
    field specific "key" = JStr key ->
    field specific "value" = JStr val ->
    field props "location" = JUndefined ->
    buildNominatimParams (JObj props)
    = Normal [("q", term ++ " [" ++ key ++ "=" ++ val ++ "]");
              ("format", "json"); ("limit", "10")].
Proof.
  intros props tags specific term key val Hterm Htags Hspecific Hkey Hval Hloc.
  unfold buildNominatimParams. cbn [get bind]. rewrite Hterm, Htags.
  cbn [get_opt get bind]. rewrite Hspecific. cbn [truthy get bind].
  rewrite Hkey, Hval, Hloc. reflexivity.
Qed.

Lemma legacy_tag_clause_witness :
  buildNominatimParams
    (JObj [("searchTerm", JStr "pizza");
           ("osm_tags",
             JObj [("specific", JObj [("key", JStr "amenity"); ("value", JStr "restaurant")])])])
  = Normal [("q", "pizza" ++ " [" ++ "amenity" ++ "=" ++ "restaurant" ++ "]");
            ("format", "json"); ("limit", "10")].
Proof.
  apply (legacy_tag_clause _
           [("specific", JObj [("key", JStr "amenity"); ("value", JStr "restaurant")])]
           [("key", JStr "amenity"); ("value", JStr "restaurant")]);
    reflexivity.
Defined.

(** X10. An intent whose radius is an object with a numeric [value] gets
    the viewbox of half-width [value * 0.02]; a value of zero, or one that
    is not a number, is replaced by the default of 5. *)
Theorem radius_value_is_honoured :
  forall props location coordinates radius term lat lon r,
    field props "searchTerm" = JStr term ->
    field props "osm_tags" = JUndefined ->
    field props "location" = JObj location ->
    field location "coordinates" = JObj coordinates ->
    field coordinates "latitude" = JNum lat ->
    field coordinates "longitude" = JNum lon ->
    field location "radius" = JObj radius ->
    field radius "value" = JNum r ->
    buildNominatimParams (JObj props)
    = Normal [("q", term);
              ("viewbox",
                viewbox lat lon ((if truthy (JNum r) then r else 5) * 0.02));
              ("bounded", "1"); ("format", "json"); ("limit", "10")].
Proof.
  intros props location coordinates radius term lat lon r
         Hterm Htags Hloc Hc Hlat Hlon Hradius Hr.
  unfold buildNominatimParams. cbn [get bind]. rewrite Hterm, Htags.
  cbn [get_opt get bind truthy join join_by to_string]. rewrite Hloc.
  cbn [get_opt get bind]. rewrite Hc. cbn [truthy get bind].
  rewrite Hlat, Hlon, Hradius. cbn [get_opt get bind]. rewrite Hr.
  unfold or_else. cbn [truthy]. destruct (negb _); reflexivity.
Qed.

Lemma radius_value_is_honoured_witness :
  buildNominatimParams
    (JObj [("searchTerm", JStr "pizza");
           ("location",
             JObj [("coordinates", JObj [("latitude", JNum 40); ("longitude", JNum (-73))]);
                   ("radius", JObj [("value", JNum 0); ("unit", JStr "kilometers")])])])
  = Normal [("q", "pizza");
            ("viewbox", viewbox 40 (-73) ((if truthy (JNum 0) then 0 else 5) * 0.02));
            ("bounded", "1"); ("format", "json"); ("limit", "10")].
Proof.
  apply (radius_value_is_honoured _
           [("coordinates", JObj [("latitude", JNum 40); ("longitude", JNum (-73))]);
            ("radius", JObj [("value", JNum 0); ("unit", JStr "kilometers")])]
           [("latitude", JNum 40); ("longitude", JNum (-73))]
           [("value", JNum 0); ("unit", JStr "kilometers")]);
    reflexivity.
Defined.

(** ** The geocode resolver: what reaches the last resort *)

(** X11. When intent resolution raises, the geocoder is asked once only:
    the limit-3 request with the raw text follows the requests of intent
    resolution directly, and its body, or its failure, is the outcome. *)
Theorem failed_intent_goes_to_last_resort :
  forall w query userLocation l e l1,
    parseSearchQuery w query userLocation l = (Throw e, l1) ->
    searchLocations w query userLocation l
    = (match fetch w (List.length l1) (tier3_url query) with
       | FetchRejected => Throw NetworkError
       | FetchResolved r =>
           match json r with Some v => Normal v | None => Throw SyntaxError end
       end, (l1 ++ [(Tier3, FetchRequest (tier3_url query))])%list).
Proof.
  intros w query userLocation l e l1 H.
  rewrite searchLocations_halves. unfold try_catch, ladder, bindIO. rewrite H.
  apply last_resort_outcome.
Qed.

Lemma failed_intent_goes_to_last_resort_witness :
  searchLocations italian "Italian restaurants near me"
    (Some {| latitude := 40; longitude := -73 |}) []
  = (Normal (JArr [place "Trattoria" "40.01" "-73.02"]),
     [(AnalysisChat,
        ChatRequest "mistral-medium" (analysis_prompt "Italian restaurants near me"));
      (MappingChat,
        ChatRequest "mistral-large-latest" (mapping_prompt "Italian restaurants near me"));
      (Tier3, FetchRequest (tier3_url "Italian restaurants near me"))]).
Proof.
  rewrite (failed_intent_goes_to_last_resort italian "Italian restaurants near me"
             (Some {| latitude := 40; longitude := -73 |}) [] ZodError
             [(AnalysisChat,
                ChatRequest "mistral-medium" (analysis_prompt "Italian restaurants near me"));
              (MappingChat,
                ChatRequest "mistral-large-latest"
                  (mapping_prompt "Italian restaurants near me"))]).
  - reflexivity.
  - vm_compute. reflexivity.
Defined.

(** X12. The status of a response is read for tier 1 only. A tier-1
    response whose status is not ok is discarded with whatever results it
    carries, and the body of the limit-3 response that follows is returned
    whatever its own status is. *)
Theorem status_is_read_for_tier1_only :
  forall w query userLocation l intent l1 params r1 r3 v3,
    parseSearchQuery w query userLocation l = (Normal intent, l1) ->
    buildNominatimQuery intent = Normal params ->
    fetch w (List.length l1) (NOMINATIM_SEARCH ++ params) = FetchResolved r1 ->
    ok r1 = false ->
    fetch w (S (List.length l1)) (tier3_url query) = FetchResolved r3 ->
    json r3 = Some v3 ->
    searchLocations w query userLocation l
    = (Normal v3,
       (l1 ++ [(Tier1, FetchRequest (NOMINATIM_SEARCH ++ params));
               (Tier3, FetchRequest (tier3_url query))])%list).
Proof.
  intros w query userLocation l intent l1 params r1 r3 v3 Hintent Hparams H1 Hok H3 Hv.
  rewrite searchLocations_halves. unfold try_catch, ladder, bindIO.
  rewrite Hintent. unfold lift. rewrite Hparams. unfold fetch_url. rewrite H1, Hok.
  cbn [negb]. unfold throw. rewrite last_resort_outcome.
  rewrite length_app. cbn [List.length]. rewrite Nat.add_1_r, H3, Hv.
  now rewrite <- app_assoc.
Qed.

Lemma status_is_read_for_tier1_only_witness :
  searchLocations unwell "cafe" None []
  = (Normal (JArr [place "Cafe Central" "48.21" "16.36"]),
     ([(AnalysisChat, ChatRequest "mistral-medium" (analysis_prompt "cafe"))]
      ++ [(Tier1, FetchRequest (NOMINATIM_SEARCH ++ "q=cafe&format=json&limit=10"));
          (Tier3, FetchRequest (tier3_url "cafe"))])%list).
Proof.
  apply (status_is_read_for_tier1_only unwell "cafe" None []
           (JObj [("searchTerm", JStr "cafe")])
           [(AnalysisChat, ChatRequest "mistral-medium" (analysis_prompt "cafe"))]
           "q=cafe&format=json&limit=10"
           {| ok := false; json := Some (JArr [place "Cafe Central" "48.21" "16.36"]) |}
           {| ok := false; json := Some (JArr [place "Cafe Central" "48.21" "16.36"]) |});
    vm_compute; reflexivity.
Defined.

(** ** The requests of a search, in order *)







(** ** The ranking stage, for every comparator *)

(** X15. Whatever the comparator does, [handleSearch] never drops,
    repeats or invents a result before it truncates: what it displays is the
    first 5 (or 10) of a rearrangement of the results, so as many of them as
    there are, up to the page size; and it reports that nothing was found
    exactly when the result list is empty. *)
Theorem handleSearch_shows_a_page_of_the_results :
  forall (Math : App.MathObject) (results : list App.Location)
         (userPosition : option App.Coords) (expandedResults : bool),
    let page := if expandedResults then 10%nat else 5%nat in
    match App.handleSearch Math results userPosition expandedResults with
    | App.setError message =>
        results = [] /\ message = "No locations found. Try a different search term."
    | App.setLocations shown =>
        results <> [] /\
        List.length shown = Nat.min page (List.length results) /\
        exists ranked, Permutation results ranked /\ shown = firstn page ranked
    end.
Proof.
  intros Math results userPosition expandedResults page.
  destruct results as [|r rest]; [split; reflexivity|].
  cbn [App.handleSearch]. split; [discriminate|].
  destruct userPosition as [position|].
  - pose proof (Array_sort_permutation (App.by_distance Math position) (r :: rest)) as Hp.
    split.
    + unfold App.slice0. rewrite length_firstn.
      now rewrite <- (Permutation_length Hp).
    + eexists. split; [exact Hp|reflexivity].
  - split.
    + unfold App.slice0. now rewrite length_firstn.
    + exists (r :: rest). split; [reflexivity|reflexivity].
Qed.

(** ** The result list never grows past five *)

Lemma apply_keeps_page : forall st u,
  within_page st -> keeps_page u -> within_page (AppState.apply st u).
Proof.
  intros st u [He Hl] Hu. unfold within_page.
  destruct u; cbn [AppState.apply AppState.expandedResults AppState.locations];
    cbn [keeps_page] in Hu; auto.
Qed.

Lemma batch_keeps_page : forall us st,
  within_page st -> Forall keeps_page us -> within_page (AppState.batch st us).
Proof.
  unfold AppState.batch.
  induction us as [|u us IH]; intros st Hst Hus; [exact Hst|].
  inversion Hus; subst. cbn [fold_left]. apply IH; [|assumption].
  now apply apply_keeps_page.
Qed.

Lemma handleSearch_start_keeps_page : forall query,
  Forall keeps_page (AppState.handleSearch_start query).
Proof. intros query. repeat constructor. Qed.

Lemma clearSearch_keeps_page : Forall keeps_page AppState.clearSearch.
Proof. repeat constructor. Qed.

(** A run whose handler saw the list not expanded only sets lists of at
    most five results. *)
Lemma handleSearch_rest_keeps_page : forall Math o,
  Forall keeps_page (AppState.handleSearch_rest Math false o).
Proof.
  intros Math [context search]. unfold AppState.handleSearch_rest.
  cbn [AppState.context AppState.search].
  apply Forall_app. split; [destruct context; repeat constructor|].
  apply Forall_app. split; [|repeat constructor].
  destruct search as [[results userPosition]|]; [|repeat constructor].
  destruct results as [|r rest]; [repeat constructor|].
  cbn [App.handleSearch]. constructor; [|constructor].
  cbn [keeps_page]. unfold App.slice0. rewrite length_firstn. apply Nat.le_min_l.
Qed.

(** The click on the button leaves the list not expanded: the flag it sets
    is cleared by the start of the search it triggers, in the same batch. *)
Lemma show_more_keeps_page : forall st,
  within_page st -> within_page (AppState.batch st (AppState.show_more st)).
Proof. intros st [He Hl]. split; [reflexivity|exact Hl]. Qed.

Lemma page_invariant_step : forall Math s s',
  page_invariant s -> AppState.step Math s s' -> page_invariant s'.
Proof.
  intros Math s s' [Hstates Hrunning] Hstep.
  assert (Hrendered : within_page (AppState.rendered s)) by now inversion Hstates.
  destruct Hstep as [query from o Hfrom|o Hfive Hflag| |index|before u rest after Hrun];
    unfold page_invariant; cbn [AppState.rendered AppState.past AppState.running].
  - split.
    + constructor; [|exact Hstates].
      apply batch_keeps_page; [exact Hrendered|apply handleSearch_start_keeps_page].
    + constructor; [|exact Hrunning].
      rewrite Forall_forall in Hstates. destruct (Hstates from Hfrom) as [-> _].
      apply handleSearch_rest_keeps_page.
  - split.
    + constructor; [|exact Hstates]. now apply show_more_keeps_page.
    + constructor; [|exact Hrunning]. rewrite Hflag.
      apply handleSearch_rest_keeps_page.
  - split; [|exact Hrunning].
    constructor; [|exact Hstates].
    apply batch_keeps_page; [exact Hrendered|apply clearSearch_keeps_page].
  - split; [|exact Hrunning].
    constructor; [|exact Hstates]. now apply apply_keeps_page.
  - rewrite Hrun in Hrunning. apply Forall_app in Hrunning.
    destruct Hrunning as [Hbefore Hrest]. inversion Hrest as [|? ? Hhead Hafter]; subst.
    inversion Hhead as [|? ? Hu Htail]; subst. split.
    + constructor; [|exact Hstates]. now apply apply_keeps_page.
    + apply Forall_app. split; [exact Hbefore|]. now constructor.
Qed.

(** X16. In every state the component can reach, by searches typed or
    spoken, clicks on the button under the list, selections and clearings,
    in any interleaving of the searches that are still running, the list is
    not expanded and holds at most five results: the flag that the button
    sets is cleared by the search it starts before anything reads it, so the
    page of ten is never shown. *)
Theorem result_list_never_exceeds_five :
  forall (Math : App.MathObject) (s : AppState.System),
    AppState.reachable Math s ->
    AppState.expandedResults (AppState.rendered s) = false /\
    (List.length (AppState.locations (AppState.rendered s)) <= 5)%nat.
Proof.
  intros Math s Hreach.
  assert (Hinv : page_invariant s).
  { induction Hreach as [|s s' _ IH Hstep].
    - split; [|constructor]. constructor; [|constructor].
      split; [reflexivity|apply Nat.le_0_l].
    - exact (page_invariant_step Math s s' IH Hstep). }
  destruct Hinv as [Hstates _]. now inversion Hstates.
Qed.

Lemma result_list_never_exceeds_five_witness :
  AppState.expandedResults (AppState.rendered more_asked) = false /\
  (List.length (AppState.locations (AppState.rendered more_asked)) <= 5)%nat.
Proof.
  assert (H1 : AppState.step App.series_math AppState.boot searching)
    by (apply (AppState.step_search App.series_math AppState.boot "cafe"
                 AppState.initial five_found); left; reflexivity).
  assert (H2 : AppState.step App.series_math searching five_shown)
    by (apply (AppState.step_advance App.series_math searching []
                 (AppState.setLocations five_places) [AppState.setIsLoading false] []);
        reflexivity).
  assert (H3 : AppState.step App.series_math five_shown more_asked)
    by (apply (AppState.step_show_more App.series_math five_shown five_found);
        reflexivity).
  exact (result_list_never_exceeds_five App.series_math more_asked
           (AppState.reachable_step _ _ _
              (AppState.reachable_step _ _ _
                 (AppState.reachable_step _ _ _ (AppState.reachable_boot _) H1) H2) H3)).
Defined.

(** ** The order of the numbers *)

Local Open Scope Z_scope.

Lemma SFcompare_rank : forall a b,
  a <> S754_nan -> b <> S754_nan ->
  exists c, SFcompare a b = Some c /\
    match c with
    | Lt => lex_lt (rank a) (rank b)
    | Eq => rank a = rank b
    | Gt => lex_lt (rank b) (rank a)
    end.
Proof.
  intros a b Ha Hb.
  destruct a as [sa|sa| |sa ma ea], b as [sb|sb| |sb mb eb]; try congruence;
    cbn [SFcompare]; eexists; (split; [reflexivity|]);
    try (destruct sa; try destruct sb; cbn; first [lia|reflexivity]).
  destruct sa, sb; cbn [rank lex_lt]; try lia.
  - destruct (Z.compare_spec ea eb); try lia.
    change (PosDef.Pos.compare_cont Eq ma mb) with (Pos.compare ma mb).
    destruct (Pos.compare_spec ma mb); cbn [CompOpp]; subst; try lia. reflexivity.
  - destruct (Z.compare_spec ea eb); try lia.
    change (PosDef.Pos.compare_cont Eq ma mb) with (Pos.compare ma mb).
    destruct (Pos.compare_spec ma mb); subst; try lia. reflexivity.
Qed.

Lemma lex_lt_irrefl : forall p, ~ lex_lt p p.
Proof. intros [[a1 a2] a3]. cbn. lia. Qed.

Lemma lex_lt_asym : forall p q, lex_lt p q -> ~ lex_lt q p.
Proof. intros [[a1 a2] a3] [[b1 b2] b3]. cbn. lia. Qed.

Lemma lex_lt_neq : forall p q, lex_lt p q -> p <> q.
Proof. intros p q H E. subst. now apply (lex_lt_irrefl q). Qed.

Lemma lex_le_trans : forall p q r, lex_le p q -> lex_le q r -> lex_le p r.
Proof.
  intros [[a1 a2] a3] [[b1 b2] b3] [[c1 c2] c3] [H1|H1] [H2|H2];
    try (inversion H1; subst); try (inversion H2; subst); unfold lex_le; cbn in *;
    try (left; lia); auto.
Qed.

Lemma is_nan_spec : forall x, is_nan x = false <-> Prim2SF x <> S754_nan.
Proof.
  intros x. unfold is_nan. rewrite eqb_spec. unfold SFeqb. split.
  - intros H E. rewrite E in H. discriminate.
  - intros H. destruct (SFcompare_rank _ _ H H) as (c & -> & Hc).
    destruct c; [reflexivity| |]; now apply lex_lt_irrefl in Hc.
Qed.

Lemma ltb_rank : forall x y,
  is_nan x = false -> is_nan y = false ->
  (PrimFloat.ltb x y = true <-> lex_lt (rank (Prim2SF x)) (rank (Prim2SF y))).
Proof.
  intros x y Hx Hy. apply is_nan_spec in Hx, Hy.
  rewrite ltb_spec. unfold SFltb.
  destruct (SFcompare_rank _ _ Hx Hy) as (c & -> & Hc).
  destruct c; split; intros H; try reflexivity; try discriminate; try assumption.
  - rewrite Hc in H. now apply lex_lt_irrefl in H.
  - now apply lex_lt_asym in H.
Qed.

Lemma leb_rank : forall x y,
  is_nan x = false -> is_nan y = false ->
  (PrimFloat.leb x y = true <-> lex_le (rank (Prim2SF x)) (rank (Prim2SF y))).
Proof.
  intros x y Hx Hy. apply is_nan_spec in Hx, Hy.
  rewrite leb_spec. unfold SFleb.
  destruct (SFcompare_rank _ _ Hx Hy) as (c & -> & Hc).
  destruct c; split; intros H; try reflexivity; try discriminate.
  - now right.
  - now left.
  - destruct H as [H|H].
    + now apply lex_lt_asym in H.
    + symmetry in H. now apply lex_lt_neq in H.
Qed.

Lemma leb_number : forall x y,
  PrimFloat.leb x y = true -> is_nan x = false /\ is_nan y = false.
Proof.
  intros x y. rewrite leb_spec. unfold SFleb. intros H.
  split; apply is_nan_spec; intros E; rewrite E in H.
  - discriminate.
  - destruct (Prim2SF x); discriminate.
Qed.

Lemma ltb_number : forall x y,
  PrimFloat.ltb x y = true -> is_nan x = false /\ is_nan y = false.
Proof.
  intros x y. rewrite ltb_spec. unfold SFltb. intros H.
  split; apply is_nan_spec; intros E; rewrite E in H.
  - discriminate.
  - destruct (Prim2SF x); discriminate.
Qed.

Lemma leb_refl : forall x, is_nan x = false -> PrimFloat.leb x x = true.
Proof. intros x H. apply leb_rank; auto. now right. Qed.

Lemma ltb_leb : forall x y, PrimFloat.ltb x y = true -> PrimFloat.leb x y = true.
Proof.
  intros x y H. destruct (ltb_number _ _ H) as [Hx Hy].
  apply leb_rank; auto. left. now apply ltb_rank.
Qed.

Lemma leb_trans : forall x y z,
  PrimFloat.leb x y = true -> PrimFloat.leb y z = true -> PrimFloat.leb x z = true.
Proof.
  intros x y z H1 H2.
  destruct (leb_number _ _ H1) as [Hx Hy]. destruct (leb_number _ _ H2) as [_ Hz].
  apply leb_rank; auto. apply lex_le_trans with (rank (Prim2SF y)); now apply leb_rank.
Qed.

Lemma lex_total : forall p q, lex_lt p q \/ lex_le q p.
Proof. intros [[a1 a2] a3] [[b1 b2] b3]. unfold lex_le. cbn.
  destruct (Z.lt_total a1 b1) as [|[|]]; destruct (Z.lt_total a2 b2) as [|[|]];
  destruct (Z.lt_total a3 b3) as [|[|]]; subst; try lia; auto.
Qed.

Lemma not_ltb_leb : forall x y,
  is_nan x = false -> is_nan y = false ->
  PrimFloat.ltb x y = false -> PrimFloat.leb y x = true.
Proof.
  intros x y Hx Hy H. apply leb_rank; auto.
  destruct (lex_total (rank (Prim2SF x)) (rank (Prim2SF y))) as [Hlt|Hle]; [|exact Hle].
  apply ltb_rank in Hlt; auto. congruence.
Qed.

Local Close Scope Z_scope.

(** ** The bounds and the zoom level of the map *)

Section MapProperties.
Import MapView.

Lemma Math_round_examples :
  map Math_round [2.5; -2.5; 0.49999999999999994; -0.2; 3; 1e300; 4503599627370495.5;
                  0.5; -0.5; 1.4999999999999998; infinity; neg_infinity; -7.6]
  = [3; -2; 0; -0; 3; 1e300; 4503599627370496; 1; -0; 1; infinity; neg_infinity; -8].
Proof. vm_compute. reflexivity. Qed.


Lemma negative_zero_rank : forall x,
  is_zero true x = true -> Prim2SF x = S754_zero true.
Proof.
  intros x. unfold is_zero. rewrite classify_spec. unfold SF64classify, SFclassify.
  destruct (Prim2SF x) as [[|]|[|]| |[|] m e]; try discriminate; try reflexivity;
    destruct (Z.eqb _ _); discriminate.
Qed.

Lemma positive_zero_rank : forall x,
  is_zero false x = true -> Prim2SF x = S754_zero false.
Proof.
  intros x. unfold is_zero. rewrite classify_spec. unfold SF64classify, SFclassify.
  destruct (Prim2SF x) as [[|]|[|]| |[|] m e]; try discriminate; try reflexivity;
    destruct (Z.eqb _ _); discriminate.
Qed.

Lemma zeros_leb : forall x y s t,
  Prim2SF x = S754_zero s -> Prim2SF y = S754_zero t -> PrimFloat.leb x y = true.
Proof. intros x y s t Hx Hy. rewrite leb_spec, Hx, Hy. reflexivity. Qed.

(** [Math.max] of two numbers is one of them and is not below either. *)
Lemma Math_max_upper : forall x y,
  is_nan x = false -> is_nan y = false ->
  (Math_max x y = x \/ Math_max x y = y) /\
  PrimFloat.leb x (Math_max x y) = true /\ PrimFloat.leb y (Math_max x y) = true.
Proof.
  intros x y Hx Hy. unfold Math_max. rewrite Hx, Hy. cbn [orb].
  destruct (is_zero true x && is_zero false y) eqn:Hz.
  - apply andb_prop in Hz. destruct Hz as [Hzx Hzy].
    apply negative_zero_rank in Hzx. apply positive_zero_rank in Hzy.
    split; [now right|]. split; [exact (zeros_leb _ _ _ _ Hzx Hzy)|now apply leb_refl].
  - destruct (PrimFloat.ltb x y) eqn:Hlt.
    + split; [now right|]. split; [now apply ltb_leb|now apply leb_refl].
    + split; [now left|]. split; [now apply leb_refl|now apply not_ltb_leb].
Qed.

Lemma Math_min_lower : forall x y,
  is_nan x = false -> is_nan y = false ->
  (Math_min x y = x \/ Math_min x y = y) /\
  PrimFloat.leb (Math_min x y) x = true /\ PrimFloat.leb (Math_min x y) y = true.
Proof.
  intros x y Hx Hy. unfold Math_min. rewrite Hx, Hy. cbn [orb].
  destruct (is_zero false x && is_zero true y) eqn:Hz.
  - apply andb_prop in Hz. destruct Hz as [Hzx Hzy].
    apply positive_zero_rank in Hzx. apply negative_zero_rank in Hzy.
    split; [now right|]. split; [exact (zeros_leb _ _ _ _ Hzy Hzx)|now apply leb_refl].
  - destruct (PrimFloat.ltb y x) eqn:Hlt.
    + split; [now right|]. split; [now apply ltb_leb|now apply leb_refl].
    + split; [now left|]. split; [now apply leb_refl|now apply not_ltb_leb].
Qed.

Lemma Math_max_nan : forall x y,
  is_nan x = true \/ is_nan y = true -> is_nan (Math_max x y) = true.
Proof.
  intros x y H. unfold Math_max.
  destruct H as [-> | ->]; [|rewrite orb_true_r]; reflexivity.
Qed.

Lemma Math_min_nan : forall x y,
  is_nan x = true \/ is_nan y = true -> is_nan (Math_min x y) = true.
Proof.
  intros x y H. unfold Math_min.
  destruct H as [-> | ->]; [|rewrite orb_true_r]; reflexivity.
Qed.


Lemma widen_bounds : forall b loc,
  numbers b -> located loc ->
  numbers (widen b loc) /\ wider b (widen b loc) /\ inside (widen b loc) loc /\
  attained b [loc] (widen b loc).
Proof.
  intros b loc (Hn & Hs & He & Hw) (Hlat & Hlon).
  destruct (Math_max_upper _ _ Hn Hlat) as (Hn1 & Hn2 & Hn3).
  destruct (Math_min_lower _ _ Hs Hlat) as (Hs1 & Hs2 & Hs3).
  destruct (Math_max_upper _ _ He Hlon) as (He1 & He2 & He3).
  destruct (Math_min_lower _ _ Hw Hlon) as (Hw1 & Hw2 & Hw3).
  unfold numbers, wider, inside, attained, widen; cbn [north south east west].
  repeat split; auto;
    try (match goal with
         | H : _ = _ \/ _ = _ |- is_nan ?m = false =>
             match type of H with context [m] => destruct H as [-> | ->]; assumption end
         end);
    try (match goal with
         | H : ?m = _ \/ ?m = _ |- ?m = _ \/ _ =>
             destruct H as [H|H]; [now left|right; exists loc; split; [now left|exact H]]
         end).
Qed.

Lemma fold_widen : forall locs b,
  numbers b -> Forall located locs ->
  let b' := fold_left widen locs b in
  numbers b' /\ wider b b' /\ Forall (inside b') locs /\ attained b locs b'.
Proof.
  induction locs as [|loc rest IH]; intros b Hb Hlocs; cbn [fold_left].
  - destruct Hb as (Hn & Hs & He & Hw).
    split; [repeat split; assumption|].
    split; [repeat split; now apply leb_refl|].
    split; [constructor|]. repeat split; now left.
  - inversion Hlocs as [|? ? Hloc Hrest]; subst.
    destruct (widen_bounds b loc Hb Hloc) as (Hb1 & Hw1 & Hi1 & Ha1).
    destruct (IH (widen b loc) Hb1 Hrest) as (Hb2 & Hw2 & Hi2 & Ha2).
    cbn zeta in *. set (b' := fold_left widen rest (widen b loc)) in *.
    destruct Hw1 as (W1 & W2 & W3 & W4), Hw2 as (V1 & V2 & V3 & V4).
    destruct Hi1 as (I1 & I2 & I3 & I4).
    split; [exact Hb2|].
    split; [repeat split; eapply leb_trans; eassumption|].
    split.
    + constructor; [|exact Hi2]. repeat split; eapply leb_trans; eassumption.
    + destruct Ha1 as (A1 & A2 & A3 & A4), Ha2 as (B1 & B2 & B3 & B4).
      repeat split.
      * destruct B1 as [B|(l & Hl & B)]; [|right; exists l; split; [now right|exact B]].
        rewrite B. destruct A1 as [A|(l & Hl & A)]; [now left|].
        right. exists l. split; [|exact A]. destruct Hl as [->|[]]. now left.
      * destruct B2 as [B|(l & Hl & B)]; [|right; exists l; split; [now right|exact B]].
        rewrite B. destruct A2 as [A|(l & Hl & A)]; [now left|].
        right. exists l. split; [|exact A]. destruct Hl as [->|[]]. now left.
      * destruct B3 as [B|(l & Hl & B)]; [|right; exists l; split; [now right|exact B]].
        rewrite B. destruct A3 as [A|(l & Hl & A)]; [now left|].
        right. exists l. split; [|exact A]. destruct Hl as [->|[]]. now left.
      * destruct B4 as [B|(l & Hl & B)]; [|right; exists l; split; [now right|exact B]].
        rewrite B. destruct A4 as [A|(l & Hl & A)]; [now left|].
        right. exists l. split; [|exact A]. destruct Hl as [->|[]]. now left.
Qed.

(** X17. When every result has numbers for coordinates, the bounds that
    [getBounds] returns contain every result, and each side is attained: it
    is the coordinate of one of the results, unless it is still the value
    the side started from. *)
Theorem getBounds_contains :
  forall locs : list App.Location,
    Forall located locs ->
    let bounds := getBounds locs in
    Forall (inside bounds) locs /\
    (north bounds = -90 \/ exists loc, In loc locs /\ north bounds = App.lat loc) /\
    (south bounds = 90 \/ exists loc, In loc locs /\ south bounds = App.lat loc) /\
    (east bounds = -180 \/ exists loc, In loc locs /\ east bounds = App.lon loc) /\
    (west bounds = 180 \/ exists loc, In loc locs /\ west bounds = App.lon loc).
Proof.
  intros locs Hlocs.
  assert (H0 : numbers {| north := -90; south := 90; east := -180; west := 180 |})
    by (repeat split; reflexivity).
  destruct (fold_widen locs _ H0 Hlocs) as (_ & _ & Hin & Hat).
  split; [exact Hin|exact Hat].
Qed.

Lemma getBounds_contains_witness :
  let bounds := getBounds [cafe_central; cafe_sperl] in
  Forall (inside bounds) [cafe_central; cafe_sperl] /\
  (north bounds = -90 \/
   exists loc, In loc [cafe_central; cafe_sperl] /\ north bounds = App.lat loc) /\
  (south bounds = 90 \/
   exists loc, In loc [cafe_central; cafe_sperl] /\ south bounds = App.lat loc) /\
  (east bounds = -180 \/
   exists loc, In loc [cafe_central; cafe_sperl] /\ east bounds = App.lon loc) /\
  (west bounds = 180 \/
   exists loc, In loc [cafe_central; cafe_sperl] /\ west bounds = App.lon loc).
Proof.
  apply (getBounds_contains [cafe_central; cafe_sperl]).
  repeat constructor.
Defined.

Lemma is_nan_true : forall x, is_nan x = true <-> Prim2SF x = S754_nan.
Proof.
  intros x. split; intros H.
  - destruct (Prim2SF x) eqn:E; try reflexivity;
      assert (Hn : is_nan x = false) by (apply is_nan_spec; rewrite E; discriminate);
      congruence.
  - destruct (is_nan x) eqn:E; [reflexivity|].
    apply is_nan_spec in E. contradiction.
Qed.

(** NaN on either side of a sum makes the half of the sum NaN. *)
Lemma half_sum_nan : forall x y,
  is_nan x = true \/ is_nan y = true -> is_nan ((x + y) / 2) = true.
Proof.
  intros x y H. apply is_nan_true. rewrite div_spec, add_spec.
  destruct H as [H|H]; apply is_nan_true in H; rewrite H.
  - reflexivity.
  - destruct (Prim2SF x); reflexivity.
Qed.

Lemma fold_widen_nan_lat : forall locs b,
  is_nan (north b) = true /\ is_nan (south b) = true ->
  is_nan (north (fold_left widen locs b)) = true /\
  is_nan (south (fold_left widen locs b)) = true.
Proof.
  induction locs as [|loc rest IH]; intros b [Hn Hs]; cbn [fold_left]; [auto|].
  apply IH. unfold widen; cbn [north south].
  split; [apply Math_max_nan|apply Math_min_nan]; auto.
Qed.

Lemma fold_widen_nan_lon : forall locs b,
  is_nan (east b) = true /\ is_nan (west b) = true ->
  is_nan (east (fold_left widen locs b)) = true /\
  is_nan (west (fold_left widen locs b)) = true.
Proof.
  induction locs as [|loc rest IH]; intros b [He Hw]; cbn [fold_left]; [auto|].
  apply IH. unfold widen; cbn [east west].
  split; [apply Math_max_nan|apply Math_min_nan]; auto.
Qed.

Lemma fold_widen_poisoned : forall locs b loc,
  In loc locs ->
  (is_nan (App.lat loc) = true ->
   is_nan (north (fold_left widen locs b)) = true /\
   is_nan (south (fold_left widen locs b)) = true) /\
  (is_nan (App.lon loc) = true ->
   is_nan (east (fold_left widen locs b)) = true /\
   is_nan (west (fold_left widen locs b)) = true).
Proof.
  induction locs as [|l rest IH]; intros b loc Hin; [contradiction|].
  cbn [fold_left]. destruct Hin as [->|Hin]; [|now apply IH].
  split; intros H.
  - apply fold_widen_nan_lat. unfold widen; cbn [north south].
    split; [apply Math_max_nan|apply Math_min_nan]; auto.
  - apply fold_widen_nan_lon. unfold widen; cbn [east west].
    split; [apply Math_max_nan|apply Math_min_nan]; auto.
Qed.

(** X18. One result whose latitude is not a number makes the latitude
    of the view that shows all results not a number, wherever the other
    results are; and so for the longitude. *)
Theorem one_bad_coordinate_blanks_the_view :
  forall (Math : MathObject) (locs : list App.Location) (loc : App.Location),
    In loc locs ->
    exists v,
      view Math false locs None = Some v /\
      (is_nan (App.lat loc) = true -> is_nan (latitude v) = true) /\
      (is_nan (App.lon loc) = true -> is_nan (longitude v) = true).
Proof.
  intros Math locs loc Hin.
  destruct (fold_widen_poisoned locs
              {| north := -90; south := 90; east := -180; west := 180 |} loc Hin)
    as [Hlat Hlon].
  destruct locs as [|l rest]; [contradiction|].
  eexists. split; [reflexivity|]. cbn [latitude longitude].
  split; intros H; apply half_sum_nan; left.
  - now apply Hlat.
  - now apply Hlon.
Qed.

Lemma one_bad_coordinate_blanks_the_view_witness :
  exists v,
    view series_engine false [cafe_central; nowhere] None = Some v /\
    (is_nan (App.lat nowhere) = true -> is_nan (latitude v) = true) /\
    (is_nan (App.lon nowhere) = true -> is_nan (longitude v) = true).
Proof.
  apply (one_bad_coordinate_blanks_the_view series_engine [cafe_central; nowhere] nowhere).
  right. left. reflexivity.
Defined.

Lemma between_finite : forall a x b,
  PrimFloat.ltb a x = true -> PrimFloat.ltb x b = true -> finite x.
Proof.
  intros a x b. rewrite !ltb_spec. unfold SFltb, finite.
  destruct (Prim2SF x) as [s|[|]| |s m e]; intros H1 H2; try exact I.
  - destruct (Prim2SF a) as [?|[|]| |[|] ? ?]; discriminate.
  - destruct (Prim2SF b) as [?|[|]| |[|] ? ?]; discriminate.
  - destruct (Prim2SF a); discriminate.
Qed.

Lemma finite_number : forall x, finite x -> is_nan x = false.
Proof.
  intros x H. apply is_nan_spec. unfold finite in H. intros E. now rewrite E in H.
Qed.

(** The difference of a finite number and itself is the positive zero. *)
Lemma sub_diag : forall x, finite x -> x - x = 0.
Proof.
  intros x H. apply Prim2SF_inj. rewrite sub_spec. unfold finite in H.
  destruct (Prim2SF x) as [[|]| | |s m e]; try contradiction; try reflexivity.
  unfold SF64sub, SFsub. cbv zeta. rewrite Z.sub_diag. reflexivity.
Qed.

Lemma ltb_irrefl : forall x, PrimFloat.ltb x x = false.
Proof.
  intros x. destruct (PrimFloat.ltb x x) eqn:E; [|reflexivity].
  destruct (ltb_number _ _ E) as [Hx _].
  apply ltb_rank in E; auto. now apply lex_lt_irrefl in E.
Qed.

Lemma zero_of_one_sign : forall x, is_zero true x && is_zero false x = false.
Proof.
  intros x. unfold is_zero. destruct (PrimFloat.classify x); reflexivity.
Qed.

Lemma Math_max_same : forall x, is_nan x = false -> Math_max x x = x.
Proof.
  intros x H. unfold Math_max. rewrite H, zero_of_one_sign, ltb_irrefl. reflexivity.
Qed.

Lemma Math_min_same : forall x, is_nan x = false -> Math_min x x = x.
Proof.
  intros x H. unfold Math_min. rewrite H, andb_comm, zero_of_one_sign, ltb_irrefl.
  reflexivity.
Qed.

Lemma fold_widen_same : forall locs lat0 lon0,
  is_nan lat0 = false -> is_nan lon0 = false ->
  Forall (fun l => App.lat l = lat0 /\ App.lon l = lon0) locs ->
  fold_left widen locs {| north := lat0; south := lat0; east := lon0; west := lon0 |}
  = {| north := lat0; south := lat0; east := lon0; west := lon0 |}.
Proof.
  intros locs lat0 lon0 Hlat Hlon. induction locs as [|l rest IH]; intros H; [reflexivity|].
  inversion H as [|? ? HE Hrest]; subst. destruct HE as [E1 E2]. cbn [fold_left].
  unfold widen at 2. cbn [north south east west].
  rewrite E1, E2, !Math_max_same, !Math_min_same by assumption. now apply IH.
Qed.

(** X19. When all the results shown lie at one point, strictly inside
    the range of the coordinates (a single result, for one), the bounds
    shrink to that point and the zoom level that [calculateZoomLevel] returns
    is Infinity: the logarithm of a zero extent is minus infinity, as
    ECMA-262 prescribes for [Math.log2]. *)
Theorem places_at_one_point_zoom_without_bound :
  forall (Math : MathObject) (loc : App.Location) (others : list App.Location),
    log2 Math 0 = neg_infinity ->
    PrimFloat.ltb (-90) (App.lat loc) = true ->
    PrimFloat.ltb (App.lat loc) 90 = true ->
    PrimFloat.ltb (-180) (App.lon loc) = true ->
    PrimFloat.ltb (App.lon loc) 180 = true ->
    Forall (fun l => App.lat l = App.lat loc /\ App.lon l = App.lon loc) others ->
    getBounds (loc :: others)
    = {| north := App.lat loc; south := App.lat loc;
         east := App.lon loc; west := App.lon loc |} /\
    calculateZoomLevel Math (getBounds (loc :: others)) = infinity /\
    view Math false (loc :: others) None
    = Some {| latitude := (App.lat loc + App.lat loc) / 2;
              longitude := (App.lon loc + App.lon loc) / 2;
              zoom := infinity |}.
Proof.
  intros Math loc others Hlog Hs Hn Hw He Hothers.
  pose proof (between_finite _ _ _ Hs Hn) as Flat.
  pose proof (between_finite _ _ _ Hw He) as Flon.
  pose proof (finite_number _ Flat) as Nlat.
  pose proof (finite_number _ Flon) as Nlon.
  assert (Hb : getBounds (loc :: others)
               = {| north := App.lat loc; south := App.lat loc;
                    east := App.lon loc; west := App.lon loc |}).
  { unfold getBounds. cbn [fold_left north south east west].
    assert (E1 : Math_max (-90) (App.lat loc) = App.lat loc).
    { unfold Math_max. rewrite Nlat, Hs.
      change (is_nan (-90)) with false. change (is_zero true (-90)) with false.
      reflexivity. }
    assert (E2 : Math_min 90 (App.lat loc) = App.lat loc).
    { unfold Math_min. rewrite Nlat, Hn.
      change (is_nan 90) with false. change (is_zero false 90) with false.
      reflexivity. }
    assert (E3 : Math_max (-180) (App.lon loc) = App.lon loc).
    { unfold Math_max. rewrite Nlon, Hw.
      change (is_nan (-180)) with false. change (is_zero true (-180)) with false.
      reflexivity. }
    assert (E4 : Math_min 180 (App.lon loc) = App.lon loc).
    { unfold Math_min. rewrite Nlon, He.
      change (is_nan 180) with false. change (is_zero false 180) with false.
      reflexivity. }
    rewrite E1, E2, E3, E4. now apply (fold_widen_same others). }
  assert (Hz : calculateZoomLevel Math
                 {| north := App.lat loc; south := App.lat loc;
                    east := App.lon loc; west := App.lon loc |} = infinity).
  { unfold calculateZoomLevel. cbn [north south east west].
    rewrite !sub_diag by assumption.
    change (Math_max 0 0 * 10) with 0. rewrite Hlog. reflexivity. }
  split; [exact Hb|]. split; [now rewrite Hb|].
  unfold view. rewrite Hb. cbn [north south east west]. now rewrite Hz.
Qed.

Lemma places_at_one_point_zoom_without_bound_witness :
  getBounds [cafe_central]
  = {| north := 48.21; south := 48.21; east := 16.36; west := 16.36 |} /\
  calculateZoomLevel series_engine (getBounds [cafe_central]) = infinity /\
  view series_engine false [cafe_central] None
  = Some {| latitude := (48.21 + 48.21) / 2; longitude := (16.36 + 16.36) / 2;
            zoom := infinity |}.
Proof.
  apply (places_at_one_point_zoom_without_bound series_engine cafe_central []);
    try reflexivity.
  constructor.
Defined.

End MapProperties.

(** ** The other intent resolver *)

Lemma safeParse_undefined : forall s x,
  OpenAI.safeParse s JUndefined = Some x -> x = JUndefined.
Proof. destruct s; cbn; intros x H; congruence. Qed.

Lemma safeParse_optional_inv : forall s v x,
  OpenAI.safeParse (OpenAI.z_optional s) v = Some x ->
  (v = JUndefined /\ x = JUndefined) \/ (v <> JUndefined /\ OpenAI.safeParse s v = Some x).
Proof.
  intros s v x H. destruct v; cbn in H;
    try (right; split; [discriminate | exact H]).
  left. split; congruence.
Qed.

Lemma safeParse_object_get : forall shape v data,
  OpenAI.safeParse (OpenAI.z_object shape) v = Some data ->
  NoDup (map fst shape) ->
  exists props out,
    v = JObj props /\ data = JObj out /\
    forall k sk, lookup k shape = Some sk ->
      exists x', OpenAI.safeParse sk (field props k) = Some x' /\ field out k = x'.
Proof.
  intros shape v data H Hnd.
  destruct v; try discriminate. cbn [OpenAI.safeParse] in H.
  destruct (fields OpenAI.safeParse props shape) as [out|] eqn:Hout; [|discriminate].
  inversion H; subst data. clear H.
  exists props, out. split; [reflexivity|]. split; [reflexivity|].
  intros k sk Hk.
  destruct (fields_each_parsed _ _ _ _ Hout _ _ Hk) as [x' Hx'].
  exists x'. split; [exact Hx'|].
  unfold field at 1.
  rewrite (fields_lookup _ _ _ _ Hout Hnd k), Hk.
  destruct (has_own k props) eqn:Hown.
  - now rewrite Hx'.
  - unfold has_own in Hown. unfold field in Hx'.
    destruct (lookup k props); [discriminate|].
    now rewrite (safeParse_undefined _ _ Hx').
Qed.

Lemma field_store_other : forall k k' v props,
  k' <> k -> field (store k v props) k' = field props k'.
Proof.
  intros k k' v props Hne. unfold field.
  assert (Hk : String.eqb k' k = false) by now apply String.eqb_neq.
  induction props as [|[k0 v0] rest IH]; cbn [store lookup].
  - now rewrite Hk.
  - destruct (String.eqb k k0) eqn:E; cbn [lookup].
    + apply String.eqb_eq in E. subst k0. now rewrite Hk.
    + destruct (String.eqb k' k0); [reflexivity|exact IH].
Qed.

(** What a reply that passes the schema is turned into. *)
Lemma validated_reply_is_located : forall parsed data query userLocation,
  OpenAI.safeParse OpenAI.ParsedQuerySchema parsed = Some data ->
  exists out base term,
    data = JObj out /\
    field out "searchTerm" = JStr term /\
    (field out "location" = JUndefined /\ base = [] \/ field out "location" = JObj base) /\
    OpenAI.parseSearchQuery (OpenAI.Content parsed) query userLocation
    = Normal
        (JObj (store "location"
                 (JObj match userLocation with
                       | Some u => store "coordinates" (object_of u) base
                       | None => base
                       end) out)).
Proof.
  intros parsed data query userLocation Hdata.
  destruct (safeParse_object_get _ _ _ Hdata ltac:(distinct_keys))
    as (props & out & -> & -> & Hshape).
  destruct (Hshape "searchTerm" _ eq_refl) as (term' & Hterm & Eterm).
  destruct (field props "searchTerm"); try discriminate.
  cbn in Hterm. inversion Hterm; subst term'.
  destruct (Hshape "location" _ eq_refl) as (location & Hloc & Eloc).
  unfold OpenAI.parseSearchQuery. cbn [bind]. rewrite Hdata.
  cbn [OpenAI.spread bind get]. rewrite Eloc.
  apply safeParse_optional_inv in Hloc. destruct Hloc as [[_ ->]|[_ Hloc]].
  - exists out, [], s. repeat split; auto.
  - destruct (safeParse_object_get _ _ _ Hloc ltac:(distinct_keys))
      as (lprops & base & _ & -> & _).
    exists out, base, s. repeat split; auto.
Qed.

(** X20. The other resolver always returns an intent with a string for
    its search term, whatever the model call comes back with: the data of a
    reply that passes the schema, with its term and its context kept and a
    location object put in even where the reply had none; in every other
    case, rejection, empty content, content that is not JSON or that the
    schema refuses, the raw text as the term, with nothing but the position
    beside it. *)
Theorem openai_resolver_always_returns :
  forall (r : OpenAI.reply) (query : string) (userLocation : option UserLocation),
    exists props term,
      OpenAI.parseSearchQuery r query userLocation = Normal (JObj props) /\
      field props "searchTerm" = JStr term /\
      ((exists parsed data located,
          r = OpenAI.Content parsed /\
          OpenAI.safeParse OpenAI.ParsedQuerySchema parsed = Some data /\
          get data "searchTerm" = Normal (JStr term) /\
          get data "context" = Normal (field props "context") /\
          field props "location" = JObj located) \/
       (JObj props = OpenAI.raw_intent query userLocation /\
        term = query /\
        forall parsed, r = OpenAI.Content parsed ->
          OpenAI.safeParse OpenAI.ParsedQuerySchema parsed = None)).
Proof.
  intros r query userLocation.
  assert (Hraw : OpenAI.parseSearchQuery r query userLocation
                 = Normal (OpenAI.raw_intent query userLocation) ->
                 (forall parsed, r = OpenAI.Content parsed ->
                    OpenAI.safeParse OpenAI.ParsedQuerySchema parsed = None) ->
                 exists props term,
                   OpenAI.parseSearchQuery r query userLocation = Normal (JObj props) /\
                   field props "searchTerm" = JStr term /\
                   ((exists parsed data located,
                       r = OpenAI.Content parsed /\
                       OpenAI.safeParse OpenAI.ParsedQuerySchema parsed = Some data /\
                       get data "searchTerm" = Normal (JStr term) /\
                       get data "context" = Normal (field props "context") /\
                       field props "location" = JObj located) \/
                    (JObj props = OpenAI.raw_intent query userLocation /\
                     term = query /\
                     forall parsed, r = OpenAI.Content parsed ->
                       OpenAI.safeParse OpenAI.ParsedQuerySchema parsed = None))).
  { intros Hrun Hnone. eexists. exists query. split; [exact Hrun|].
    split; [reflexivity|]. right. auto. }
  destruct r as [| | |parsed]; try (apply Hraw; [reflexivity|discriminate]).
  destruct (OpenAI.safeParse OpenAI.ParsedQuerySchema parsed) as [data|] eqn:Hdata.
  - destruct (validated_reply_is_located parsed data query userLocation Hdata)
      as (out & base & term & -> & Hterm & _ & Hrun).
    eexists. exists term. split; [exact Hrun|].
    split; [now rewrite field_store_other by discriminate|].
    left. exists parsed, (JObj out). eexists.
    split; [reflexivity|]. split; [exact Hdata|].
    split; [cbn [get]; now rewrite Hterm|].
    split; [cbn [get]; now rewrite field_store_other by discriminate|].
    apply field_store.
  - apply Hraw.
    + unfold OpenAI.parseSearchQuery. cbn [bind]. now rewrite Hdata.
    + intros parsed' E. inversion E; subst. exact Hdata.
Qed.

(** X21. With a position, the other resolver always returns it: on every
    path, validated reply or not, the intent holds the position under
    [location.coordinates], in place of any coordinates of the reply. *)
Theorem openai_resolver_returns_the_position :
  forall (r : OpenAI.reply) (query : string) (u : UserLocation),
    exists intent location,
      OpenAI.parseSearchQuery r query (Some u) = Normal intent /\
      get intent "location" = Normal location /\
      get location "coordinates" = Normal (object_of u).
Proof.
  intros r query u.
  assert (Hraw : exists intent location,
            Normal (OpenAI.raw_intent query (Some u)) = Normal intent /\
            get intent "location" = Normal location /\
            get location "coordinates" = Normal (object_of u)).
  { eexists. eexists. split; [reflexivity|]. split; reflexivity. }
  destruct r as [| | |parsed]; try exact Hraw.
  destruct (OpenAI.safeParse OpenAI.ParsedQuerySchema parsed) as [data|] eqn:Hdata.
  - destruct (validated_reply_is_located parsed data query (Some u) Hdata)
      as (out & base & term & _ & _ & _ & Hrun).
    eexists. eexists. split; [exact Hrun|].
    split; [cbn [get]; now rewrite field_store|].
    cbn [get]. now rewrite field_store.
  - unfold OpenAI.parseSearchQuery. cbn [bind]. rewrite Hdata. exact Hraw.
Qed.

Lemma safeParse_idempotent : forall s,
  distinct_shapes s ->
  forall v x, OpenAI.safeParse s v = Some x -> OpenAI.safeParse s x = Some x.
Proof.
  induction s using openai_schema_induction; intros Hd v x Hp.
  - destruct v; cbn in Hp; try discriminate. inversion Hp. reflexivity.
  - destruct v; cbn in Hp; try discriminate.
    destruct (is_nan x0) eqn:E; [discriminate|]. inversion Hp. cbn. now rewrite E.
  - destruct v; cbn in Hp; try discriminate.
    destruct (is_nan x0 || PrimFloat.ltb x0 min || PrimFloat.ltb max x0) eqn:E;
      [discriminate|]. inversion Hp. cbn. now rewrite E.
  - destruct v; cbn in Hp; try discriminate. inversion Hp. reflexivity.
  - destruct v; cbn in Hp; try discriminate.
    destruct (existsb (String.eqb s) values) eqn:E; [|discriminate].
    inversion Hp. cbn. now rewrite E.
  - destruct v; cbn [OpenAI.safeParse] in Hp; try discriminate.
    destruct (fields OpenAI.safeParse props shape) as [out|] eqn:Hout; [|discriminate].
    inversion Hp; subst x. cbn [OpenAI.safeParse].
    inversion Hd as [| | | | |? Hnd Hsub| |]; subst.
    rewrite (fields_idempotent OpenAI.safeParse shape props out);
      [reflexivity|exact Hnd| |exact Hout].
    rewrite Forall_forall in *. intros ks Hin. apply H; [exact Hin|]. now apply Hsub.
  - destruct v; cbn [OpenAI.safeParse] in Hp; try discriminate.
    destruct (each (OpenAI.safeParse s) items) as [items'|] eqn:He; [|discriminate].
    inversion Hp; subst x. cbn [OpenAI.safeParse]. inversion Hd; subst.
    rewrite (each_idempotent (OpenAI.safeParse s) items items'); [reflexivity| |exact He].
    intros v0 x0 Hv0. now apply (IHs H0 v0).
  - inversion Hd; subst.
    apply safeParse_optional_inv in Hp. destruct Hp as [[_ ->]|[_ Hp]]; [reflexivity|].
    specialize (IHs H0 _ _ Hp). destruct x; cbn [OpenAI.safeParse]; auto.
Qed.

Ltac distinct_shapes :=
  repeat (first [ apply shapes_object; [distinct_keys|]
                | apply shapes_optional
                | apply shapes_array
                | apply shapes_string
                | apply shapes_number
                | apply shapes_number_min_max
                | apply shapes_boolean
                | apply shapes_enum
                | apply Forall_cons; cbn [snd]
                | apply Forall_nil ]).

(** An object passes a shape as soon as each of its fields passes the
    schema of its key. *)
Lemma fields_pass {S : Type} (p : S -> value -> option value) props :
  forall shape,
    (forall k sk, In (k, sk) shape -> exists x, p sk (field props k) = Some x) ->
    exists out, fields p props shape = Some out.
Proof.
  induction shape as [|[k sk] rest IH]; intros H; cbn [fields]; [eauto|].
  destruct (H k sk (or_introl eq_refl)) as [x ->].
  destruct (IH (fun k' sk' Hin => H k' sk' (or_intror Hin))) as [out ->]. eauto.
Qed.

Lemma safeParse_object : forall shape props,
  OpenAI.safeParse (OpenAI.z_object shape) (JObj props)
  = option_map JObj (fields OpenAI.safeParse props shape).
Proof. reflexivity. Qed.

(** Each field of a parsed object passes the schema of its key again. *)
Lemma parsed_fields_pass : forall shape v out,
  OpenAI.safeParse (OpenAI.z_object shape) v = Some (JObj out) ->
  distinct_shapes (OpenAI.z_object shape) ->
  forall k sk, lookup k shape = Some sk ->
    OpenAI.safeParse sk (field out k) = Some (field out k).
Proof.
  intros shape v out Hparse Hd k sk Hk.
  pose proof (safeParse_idempotent _ Hd _ _ Hparse) as Hfix.
  inversion Hd as [| | | | |? Hnd _| |]; subst.
  destruct (safeParse_object_get _ _ _ Hfix Hnd) as (props & out' & E & E' & Hshape).
  inversion E; subst props. inversion E'; subst out'.
  destruct (Hshape k sk Hk) as (x' & Hx & Ex). rewrite <- Ex in Hx. exact Hx.
Qed.

Lemma position_passes : forall u,
  numeric (Some u) ->
  OpenAI.safeParse
    (OpenAI.z_optional
       (OpenAI.z_object [("latitude", OpenAI.z_optional OpenAI.z_number);
                         ("longitude", OpenAI.z_optional OpenAI.z_number)]))
    (object_of u) = Some (object_of u).
Proof.
  intros u [Hlat Hlon]. unfold object_of. cbn. rewrite Hlat, Hlon. reflexivity.
Qed.

Lemma raw_intent_passes : forall query userLocation,
  numeric userLocation ->
  exists checked,
    OpenAI.safeParse OpenAI.ParsedQuerySchema (OpenAI.raw_intent query userLocation)
    = Some checked.
Proof.
  intros query [u|] H.
  - destruct H as [Hlat Hlon]. unfold OpenAI.raw_intent, object_of. cbn.
    rewrite Hlat, Hlon. cbn. eauto.
  - cbn. eauto.
Qed.

(** X22. What the other resolver returns passes its own schema, on every
    path, provided the coordinates of the position, if one is supplied, are
    numbers: the position written into a validated reply, and the intent
    built from the raw text, are of the declared type. *)
Theorem openai_resolver_returns_a_parsed_query :
  forall (r : OpenAI.reply) (query : string) (userLocation : option UserLocation),
    numeric userLocation ->
    exists intent checked,
      OpenAI.parseSearchQuery r query userLocation = Normal intent /\
      OpenAI.safeParse OpenAI.ParsedQuerySchema intent = Some checked.
Proof.
  intros r query userLocation Hnum.
  destruct (raw_intent_passes query userLocation Hnum) as [checked Hchecked].
  assert (Hraw : exists intent checked0,
            Normal (OpenAI.raw_intent query userLocation) = Normal intent /\
            OpenAI.safeParse OpenAI.ParsedQuerySchema intent = Some checked0)
    by eauto.
  destruct r as [| | |parsed]; try exact Hraw.
  destruct (OpenAI.safeParse OpenAI.ParsedQuerySchema parsed) as [data|] eqn:Hdata;
    [|unfold OpenAI.parseSearchQuery; cbn [bind]; rewrite Hdata; exact Hraw].
  destruct (validated_reply_is_located parsed data query userLocation Hdata)
    as (out & base & term & -> & Hterm & Hbase & Hrun).
  rewrite Hrun. eexists.
  set (located := match userLocation with
                  | Some u => store "coordinates" (object_of u) base
                  | None => base
                  end).
  assert (Htop : forall k sk,
            lookup k [("searchTerm", OpenAI.z_string);
                      ("location",
                        OpenAI.z_optional
                          (OpenAI.z_object
                             [("area", OpenAI.z_optional OpenAI.z_string);
                              ("coordinates",
                                OpenAI.z_optional
                                  (OpenAI.z_object
                                     [("latitude", OpenAI.z_optional OpenAI.z_number);
                                      ("longitude", OpenAI.z_optional OpenAI.z_number)]))]))]
            = Some sk ->
            OpenAI.safeParse sk (field out k) = Some (field out k)).
  { intros k sk Hk.
    apply (parsed_fields_pass _ parsed out Hdata ltac:(unfold OpenAI.ParsedQuerySchema; distinct_shapes)).
    cbn [lookup] in *. destruct (String.eqb k "searchTerm"); [exact Hk|].
    destruct (String.eqb k "location"); [exact Hk|]. discriminate. }
  assert (Hlocated : forall k sk,
            In (k, sk) [("area", OpenAI.z_optional OpenAI.z_string);
                        ("coordinates",
                          OpenAI.z_optional
                            (OpenAI.z_object
                               [("latitude", OpenAI.z_optional OpenAI.z_number);
                                ("longitude", OpenAI.z_optional OpenAI.z_number)]))] ->
            exists x, OpenAI.safeParse sk (field located k) = Some x).
  { assert (Hb : forall k sk,
              lookup k [("area", OpenAI.z_optional OpenAI.z_string);
                        ("coordinates",
                          OpenAI.z_optional
                            (OpenAI.z_object
                               [("latitude", OpenAI.z_optional OpenAI.z_number);
                                ("longitude", OpenAI.z_optional OpenAI.z_number)]))]
              = Some sk ->
              exists x, OpenAI.safeParse sk (field base k) = Some x).
    { intros k sk Hk. destruct Hbase as [[_ ->]|Hobj].
      - cbn [lookup] in Hk.
        destruct (String.eqb k "area"); [inversion Hk; subst; cbn; eauto|].
        destruct (String.eqb k "coordinates"); [inversion Hk; subst; cbn; eauto|].
        discriminate.
      - pose proof (Htop "location" _ eq_refl) as Hloc. rewrite Hobj in Hloc.
        exists (field base k).
        apply (parsed_fields_pass _ (JObj base) base Hloc ltac:(distinct_shapes) k sk Hk). }
    intros k sk [E|[E|[]]]; inversion E; subst k sk; unfold located.
    - destruct userLocation as [u|];
        [rewrite field_store_other by discriminate|]; now apply Hb.
    - destruct userLocation as [u|]; [|now apply Hb].
      rewrite field_store. exists (object_of u). now apply position_passes. }
  destruct (fields_pass OpenAI.safeParse located _ Hlocated) as [lout Hlout].
  destruct (fields_pass OpenAI.safeParse (store "location" (JObj located) out)
              (match OpenAI.ParsedQuerySchema with
               | OpenAI.z_object shape => shape
               | _ => []
               end)) as [tout Htout].
  { intros k sk [E|[E|[E|[]]]]; inversion E; subst k sk.
    - rewrite field_store_other by discriminate. eexists. now apply Htop.
    - rewrite field_store. cbn [OpenAI.safeParse]. rewrite Hlout. cbn. eauto.
    - rewrite field_store_other by discriminate. eexists.
      apply (parsed_fields_pass _ parsed out Hdata
               ltac:(unfold OpenAI.ParsedQuerySchema; distinct_shapes)).
      reflexivity. }
  exists (JObj tout). split; [reflexivity|].
  fold located. unfold OpenAI.ParsedQuerySchema in *. cbn iota in Htout.
  rewrite safeParse_object, Htout. reflexivity.
Qed.

Lemma openai_resolver_returns_a_parsed_query_witness :
  exists intent checked,
    OpenAI.parseSearchQuery
      (OpenAI.Content
         (JObj [("searchTerm", JStr "cafes");
                ("location", JObj [("area", JStr "Central Park")])]))
      "cafes near Central Park" (Some {| latitude := 40; longitude := -73 |})
    = Normal intent /\
    OpenAI.safeParse OpenAI.ParsedQuerySchema intent = Some checked.
Proof.
  apply (openai_resolver_returns_a_parsed_query
           (OpenAI.Content
              (JObj [("searchTerm", JStr "cafes");
                     ("location", JObj [("area", JStr "Central Park")])]))
           "cafes near Central Park" (Some {| latitude := 40; longitude := -73 |})).
  split; reflexivity.
Defined.

(** The example of the prompt, resolved with a position at hand. *)
Lemma openai_resolver_example :
  OpenAI.parseSearchQuery
    (OpenAI.Content
       (JObj [("searchTerm", JStr "cafes");
              ("location", JObj [("area", JStr "Central Park")]);
              ("context",
                JObj [("type", JStr "cafe");
                      ("filters",
                        JObj [("openNow", JBool true);
                              ("amenities", JArr [JStr "wifi"; JStr "pet-friendly"])])])]))
    "Find pet-friendly cafes with wifi near Central Park open now"
    (Some {| latitude := 40; longitude := -73 |})
  = Normal
      (JObj [("searchTerm", JStr "cafes");
             ("location",
               JObj [("area", JStr "Central Park");
                     ("coordinates",
                       JObj [("latitude", JNum 40); ("longitude", JNum (-73))])]);
             ("context",
               JObj [("type", JStr "cafe");
                     ("filters",
                       JObj [("openNow", JBool true);
                             ("amenities", JArr [JStr "wifi"; JStr "pet-friendly"])])])]) /\
  OpenAI.parseSearchQuery
    (OpenAI.Content (JObj [("searchTerm", JStr "sushi"); ("context", JObj [("type", JStr "bar")])]))
    "sushi bars" None
  = Normal (JObj [("searchTerm", JStr "sushi bars")]).
Proof. split; vm_compute; reflexivity. Qed.

(** ** The sign of a difference

    From the definition of the subtraction of binary64 numbers: the
    difference of two finite numbers is zero exactly when they are equal,
    and has otherwise the sign of their order, also when it is rounded or
    overflows. *)

Local Open Scope Z_scope.

Lemma digits2_pos_bounds : forall m,
  2 ^ (Z.pos (digits2_pos m) - 1) <= Z.pos m < 2 ^ Z.pos (digits2_pos m).
Proof.
  induction m as [m IH|m IH|]; cbn [digits2_pos].
  - rewrite Pos2Z.inj_succ.
    replace (Z.succ (Z.pos (digits2_pos m)) - 1) with (Z.succ (Z.pos (digits2_pos m) - 1)) by lia.
    rewrite !Z.pow_succ_r by lia. lia.
  - rewrite Pos2Z.inj_succ.
    replace (Z.succ (Z.pos (digits2_pos m)) - 1) with (Z.succ (Z.pos (digits2_pos m) - 1)) by lia.
    rewrite !Z.pow_succ_r by lia. lia.
  - cbn. lia.
Qed.

Lemma iter_xO : forall d m, Z.pos (Pos.iter xO m d) = Z.pos m * 2 ^ Z.pos d.
Proof.
  intros d m. change (Pos.iter xO m d) with (shift_pos d m).
  rewrite shift_pos_correct, Z.pow_pos_fold. lia.
Qed.

Lemma shl_align_spec : forall m e e',
  e' <= e ->
  Z.pos (fst (shl_align m e e')) = Z.pos m * 2 ^ (e - e') /\
  (snd (shl_align m e e') = e').
Proof.
  intros m e e' H. unfold shl_align.
  destruct (e' - e) as [|d|d] eqn:E; cbn [fst snd]; try lia.
  - replace (e - e') with 0 by lia. split; lia.
  - rewrite iter_xO. replace (e - e') with (Z.pos d) by lia. split; lia.
Qed.

Lemma shl_align_keeps : forall m e e',
  e < e' -> shl_align m e e' = (m, e).
Proof.
  intros m e e' H. unfold shl_align. destruct (e' - e) eqn:E; try reflexivity. lia.
Qed.

(** Shifting right *)
Lemma shr_1_m : forall mrs, 0 <= shr_m mrs -> shr_m (shr_1 mrs) = shr_m mrs / 2.
Proof.
  intros [m r s] H. cbn [shr_m] in *. unfold shr_1.
  destruct m as [|[p|p|]|p]; cbn [shr_m]; try lia.
  - reflexivity.
  - rewrite Pos2Z.inj_xI. apply Z.div_unique with 1; lia.
  - rewrite Pos2Z.inj_xO. apply Z.div_unique with 0; lia.
  - reflexivity.
Qed.

Lemma shr_1_nonneg : forall mrs, 0 <= shr_m mrs -> 0 <= shr_m (shr_1 mrs).
Proof. intros mrs H. rewrite shr_1_m by exact H. apply Z.div_pos; lia. Qed.

Lemma iter_shr_1 : forall p mrs,
  0 <= shr_m mrs ->
  0 <= shr_m (iter_pos shr_1 p mrs) /\
  shr_m (iter_pos shr_1 p mrs) = shr_m mrs / 2 ^ Z.pos p.
Proof.
  induction p as [p IH|p IH|]; intros mrs H; cbn [iter_pos].
  - pose proof (shr_1_nonneg mrs H) as H1.
    destruct (IH (shr_1 mrs) H1) as [H2 E2].
    destruct (IH _ H2) as [H3 E3].
    split; [exact H3|]. rewrite E3, E2, shr_1_m by exact H.
    rewrite (Pos2Z.inj_xI p).
    replace (2 * Z.pos p + 1) with (1 + Z.pos p + Z.pos p) by lia.
    rewrite !Z.pow_add_r by lia. rewrite !Z.div_div by lia.
    f_equal. change (2 ^ 1) with 2. lia.
  - destruct (IH mrs H) as [H2 E2].
    destruct (IH _ H2) as [H3 E3].
    split; [exact H3|]. rewrite E3, E2.
    rewrite (Pos2Z.inj_xO p). replace (2 * Z.pos p) with (Z.pos p + Z.pos p) by lia.
    rewrite Z.pow_add_r by lia. rewrite Z.div_div by lia. reflexivity.
  - split; [now apply shr_1_nonneg|]. rewrite shr_1_m by assumption. reflexivity.
Qed.

(** Rounding a positive mantissa to the format leaves it positive, at an
    exponent that is not below the least one. *)
Lemma shr_fexp_positive : forall m e l,
  0 < m -> emin <= e ->
  0 < shr_m (fst (shr_fexp prec emax m e l)) /\
  emin <= snd (shr_fexp prec emax m e l).
Proof.
  intros m e l Hm He. unfold shr_fexp, shr.
  assert (Hrec : shr_m (shr_record_of_loc m l) = m) by (destruct l as [|[| |]]; reflexivity).
  destruct (fexp prec emax (Zdigits2 m + e) - e) as [|n|n] eqn:En; cbn [fst snd];
    try (rewrite Hrec; split; assumption).
  destruct (iter_shr_1 n (shr_record_of_loc m l)) as [_ ->]; [rewrite Hrec; lia|].
  rewrite Hrec.
  destruct m as [|p|p]; try lia. cbn [Zdigits2] in En.
  pose proof (digits2_pos_bounds p) as [Hlow _].
  unfold fexp in En. set (d := Z.pos (digits2_pos p)) in *.
  assert (Hn : Z.pos n = d - prec) by lia.
  split; [|lia].
  apply Z.div_str_pos. split; [lia|].
  rewrite Hn. apply Z.le_trans with (2 ^ (d - 1)); [|exact Hlow].
  apply Z.pow_le_mono_r; [lia|]. unfold prec. lia.
Qed.

Lemma round_nearest_even_positive : forall m l, 0 < m -> 0 < round_nearest_even m l.
Proof.
  intros m l H. unfold round_nearest_even.
  destruct l as [|[| |]]; try lia. destruct (Z.even m); lia.
Qed.
Lemma binary_round_aux_signed : forall s m e l,
  0 < m -> emin <= e -> signed s (binary_round_aux prec emax s m e l).
Proof.
  intros s m e l Hm He. unfold binary_round_aux.
  pose proof (shr_fexp_positive m e l Hm He) as [H1 H2].
  destruct (shr_fexp prec emax m e l) as [mrs' e']. cbn [fst snd] in H1, H2.
  pose proof (shr_fexp_positive _ e' loc_Exact
                (round_nearest_even_positive _ (loc_of_shr_record mrs') H1) H2) as [H3 H4].
  destruct (shr_fexp prec emax (round_nearest_even (shr_m mrs') (loc_of_shr_record mrs')) e'
              loc_Exact) as [mrs'' e'']. cbn [fst snd] in H3, H4.
  destruct (shr_m mrs'') as [|p|p]; try lia.
  destruct (e'' <=? emax - prec); [left; eauto|now right].
Qed.

Lemma binary_round_signed : forall s m e,
  emin <= e -> signed s (binary_round prec emax s m e).
Proof.
  intros s m e He. unfold binary_round.
  set (e' := fexp prec emax (Z.pos (digits2_pos m) + e)).
  assert (He' : emin <= e') by (unfold e', fexp; lia).
  destruct (Z_lt_le_dec e e') as [Hlt|Hle].
  - rewrite shl_align_keeps by exact Hlt. apply binary_round_aux_signed; lia.
  - destruct (shl_align_spec m e e' Hle) as [_ Hsnd].
    destruct (shl_align m e e') as [mz ez]. cbn [snd] in Hsnd. subst ez.
    apply binary_round_aux_signed; lia.
Qed.

(** A number of the format at a lower exponent is the smaller one. *)
Lemma canonical_exponent : forall m e,
  canonical_mantissa prec emax m e = true ->
  emin <= e /\ Z.pos m < 2 ^ prec /\ (emin < e -> 2 ^ (prec - 1) <= Z.pos m).
Proof.
  intros m e H. unfold canonical_mantissa, fexp in H. apply Z.eqb_eq in H.
  pose proof (digits2_pos_bounds m) as [Hlow Hhigh].
  set (d := Z.pos (digits2_pos m)) in *.
  split; [lia|]. split.
  - apply Z.lt_le_trans with (2 ^ d); [exact Hhigh|].
    apply Z.pow_le_mono_r; lia.
  - intros He. assert (d = prec) by lia. now subst d; rewrite <- H0.
Qed.

Lemma canonical_order : forall m1 e1 m2 e2,
  canonical_mantissa prec emax m1 e1 = true ->
  canonical_mantissa prec emax m2 e2 = true ->
  e1 < e2 -> Z.pos m1 < Z.pos m2 * 2 ^ (e2 - e1).
Proof.
  intros m1 e1 m2 e2 H1 H2 He.
  destruct (canonical_exponent _ _ H1) as (Hmin & Hhigh & _).
  destruct (canonical_exponent _ _ H2) as (_ & _ & Hlow).
  specialize (Hlow ltac:(lia)).
  assert (Hp : 2 ^ 1 <= 2 ^ (e2 - e1)) by (apply Z.pow_le_mono_r; lia).
  change (2 ^ 1) with 2 in Hp.
  assert (Hprec : 2 ^ prec = 2 * 2 ^ (prec - 1)) by reflexivity.
  nia.
Qed.

Lemma signed_compare : forall s f,
  signed s f -> SFcompare f (S754_zero false) = Some (if s then Lt else Gt).
Proof. intros s f [(m & e & ->)| ->]; reflexivity. Qed.

Lemma valid_finite : forall s m e,
  valid_binary (S754_finite s m e) = true -> canonical_mantissa prec emax m e = true.
Proof.
  intros s m e H. cbn in H. unfold bounded in H. apply andb_prop in H. tauto.
Qed.

(** The difference of two finite numbers compares with zero as the first
    compares with the second. *)
Lemma SFsub_compare : forall fx fy,
  valid_binary fx = true -> valid_binary fy = true ->
  (forall s, fx <> S754_infinity s) -> fx <> S754_nan ->
  (forall s, fy <> S754_infinity s) -> fy <> S754_nan ->
  SFcompare (SF64sub fx fy) (S754_zero false) = SFcompare fx fy.
Proof.
  intros fx fy Vx Vy Ix Nx Iy Ny.
  assert (Fx : exists sx, fx = S754_zero sx \/ exists mx ex, fx = S754_finite sx mx ex).
  { destruct fx as [sx|sx| |sx mx ex]; [eauto|now specialize (Ix sx)|congruence|eauto]. }
  assert (Fy : exists sy, fy = S754_zero sy \/ exists my ey, fy = S754_finite sy my ey).
  { destruct fy as [sy|sy| |sy my ey]; [eauto|now specialize (Iy sy)|congruence|eauto]. }
  clear Ix Nx Iy Ny.
  destruct Fx as [sx [->|(mx & ex & ->)]], Fy as [sy [->|(my & ey & ->)]].
  - destruct sx, sy; reflexivity.
  - destruct sy; reflexivity.
  - destruct sx; reflexivity.
  - apply valid_finite in Vx, Vy.
    destruct (canonical_exponent _ _ Vx) as (Hex & _ & _).
    destruct (canonical_exponent _ _ Vy) as (Hey & _ & _).
    unfold SF64sub, SFsub. cbv zeta.
    set (ez := IntDef.Z.min ex ey).
    assert (Hez : ez = Z.min ex ey) by reflexivity.
    destruct (shl_align_spec mx ex ez ltac:(lia)) as [HX _].
    destruct (shl_align_spec my ey ez ltac:(lia)) as [HY _].
    set (X := Z.pos (fst (shl_align mx ex ez))) in *.
    set (Y := Z.pos (fst (shl_align my ey ez))) in *.
    assert (HXpos : 0 < X) by (unfold X; lia).
    assert (HYpos : 0 < Y) by (unfold Y; lia).
    assert (Hround : forall D s,
              D <> 0 -> (s = true <-> D < 0) ->
              SFcompare (binary_normalize prec emax D ez false) (S754_zero false)
              = Some (if s then Lt else Gt)).
    { intros D s HD Hs. apply signed_compare. unfold binary_normalize.
      destruct D as [|p|p]; [congruence| |].
      - destruct s; [lia|]. apply binary_round_signed. lia.
      - destruct s; [|pose proof (proj2 Hs ltac:(lia)); discriminate].
        apply binary_round_signed. lia. }
    cbn [SFcompare].
    destruct sx, sy; cbn [cond_Zopp].
    + (* both negative *)
      destruct (Z.compare_spec ex ey) as [E|E|E].
      * subst ey. replace (ex - ez) with 0 in HX by lia. replace (ex - ez) with 0 in HY by lia.
        change (PosDef.Pos.compare_cont Eq mx my) with (Pos.compare mx my).
        destruct (Pos.compare_spec mx my) as [C|C|C]; cbn [CompOpp].
        -- subst my. replace (- X - - Y) with 0 by lia. reflexivity.
        -- apply (Hround _ false); lia.
        -- apply (Hround _ true); lia.
      * pose proof (canonical_order _ _ _ _ Vx Vy E) as Ho.
        replace (ex - ez) with 0 in HX by lia. replace (ey - ez) with (ey - ex) in HY by lia.
        apply (Hround _ false); lia.
      * pose proof (canonical_order _ _ _ _ Vy Vx ltac:(lia)) as Ho.
        replace (ey - ez) with 0 in HY by lia. replace (ex - ez) with (ex - ey) in HX by lia.
        apply (Hround _ true); lia.
    + apply (Hround _ true); lia.
    + apply (Hround _ false); lia.
    + destruct (Z.compare_spec ex ey) as [E|E|E].
      * subst ey. replace (ex - ez) with 0 in HX by lia. replace (ex - ez) with 0 in HY by lia.
        change (PosDef.Pos.compare_cont Eq mx my) with (Pos.compare mx my).
        destruct (Pos.compare_spec mx my) as [C|C|C].
        -- subst my. replace (X - Y) with 0 by lia. reflexivity.
        -- apply (Hround _ true); lia.
        -- apply (Hround _ false); lia.
      * pose proof (canonical_order _ _ _ _ Vx Vy E) as Ho.
        replace (ex - ez) with 0 in HX by lia. replace (ey - ez) with (ey - ex) in HY by lia.
        apply (Hround _ true); lia.
      * pose proof (canonical_order _ _ _ _ Vy Vx ltac:(lia)) as Ho.
        replace (ey - ez) with 0 in HY by lia. replace (ex - ez) with (ex - ey) in HX by lia.
        apply (Hround _ false); lia.
Qed.

Local Close Scope Z_scope.

Lemma finite_valid : forall x,
  finite x ->
  (forall s, Prim2SF x <> S754_infinity s) /\ Prim2SF x <> S754_nan.
Proof.
  intros x H. unfold finite in H.
  destruct (Prim2SF x); try contradiction; split; try intros ?; discriminate.
Qed.

(** The sign of a difference of finite numbers is the order of the numbers. *)
Lemma difference_order : forall x y,
  finite x -> finite y ->
  is_nan (x - y) = false /\
  PrimFloat.ltb (x - y) 0 = PrimFloat.ltb x y /\
  PrimFloat.ltb 0 (x - y) = PrimFloat.ltb y x.
Proof.
  intros x y Fx Fy.
  destruct (finite_valid x Fx) as [Ix Nx]. destruct (finite_valid y Fy) as [Iy Ny].
  pose proof (SFsub_compare _ _ (Prim2SF_valid x) (Prim2SF_valid y) Ix Nx Iy Ny) as H.
  rewrite <- sub_spec in H.
  assert (Nd : Prim2SF (x - y) <> S754_nan).
  { intros E. rewrite E in H. cbn in H.
    destruct (SFcompare_rank _ _ Nx Ny) as (c & Hc & _). congruence. }
  assert (Nz : S754_zero false <> S754_nan) by discriminate.
  destruct (SFcompare_rank _ _ Nd Nz) as (c & Hc & Rd).
  destruct (SFcompare_rank _ _ Nx Ny) as (c' & Hc' & Rxy).
  assert (c' = c) by congruence. subst c'.
  assert (Hzero : Prim2SF 0 = S754_zero false) by reflexivity.
  pose proof (proj2 (is_nan_spec (x - y)) Nd) as Nd'.
  pose proof (finite_number x Fx) as Nx'. pose proof (finite_number y Fy) as Ny'.
  assert (N0 : is_nan 0 = false) by reflexivity.
  split; [exact Nd'|].
  pose proof (ltb_rank (x - y) 0 Nd' N0) as L1.
  pose proof (ltb_rank 0 (x - y) N0 Nd') as L2.
  pose proof (ltb_rank x y Nx' Ny') as L3.
  pose proof (ltb_rank y x Ny' Nx') as L4.
  rewrite Hzero in L1, L2.
  assert (Hbool : forall b b' P Q,
            (b = true <-> P) -> (b' = true <-> Q) -> (P <-> Q) -> b = b').
  { intros [|] [|] P Q HP HQ HPQ; try reflexivity.
    - symmetry. apply HQ, HPQ, HP. reflexivity.
    - apply HP, HPQ, HQ. reflexivity. }
  split.
  - apply (Hbool _ _ _ _ L1 L3).
    destruct c.
    + rewrite Rd, Rxy. split; intros H'; now apply lex_lt_irrefl in H'.
    + tauto.
    + split; intros H'; exfalso; eapply lex_lt_asym; eassumption.
  - apply (Hbool _ _ _ _ L2 L4).
    destruct c.
    + rewrite Rd, Rxy. split; intros H'; now apply lex_lt_irrefl in H'.
    + split; intros H'; exfalso; eapply lex_lt_asym; eassumption.
    + tauto.
Qed.

Lemma lex_lt_trans : forall p q r, lex_lt p q -> lex_lt q r -> lex_lt p r.
Proof. intros [[a1 a2] a3] [[b1 b2] b3] [[c1 c2] c3]. cbn. lia. Qed.

Lemma lex_trichotomy : forall p q, ~ lex_lt p q -> ~ lex_lt q p -> p = q.
Proof.
  intros [[a1 a2] a3] [[b1 b2] b3] H1 H2. cbn in *.
  assert (a1 = b1) by lia. assert (a2 = b2) by lia. assert (a3 = b3) by lia.
  congruence.
Qed.

Lemma implb_intro : forall x y : bool, (x = true -> y = true) -> implb x y = true.
Proof. intros [|] [|] H; try reflexivity. now apply H. Qed.


(** ** The comparator of the ranking stage *)

Section Distance.
Import App.
Context {A : Type}.
Variable d : A -> float.

Lemma before_rank : forall a b,
  finite (d a) -> finite (d b) ->
  (before (fun a b => d a - d b) a b = true <-> lex_lt (distance_rank d a) (distance_rank d b)).
Proof.
  intros a b Fa Fb. unfold before, sort_compare.
  destruct (difference_order _ _ Fa Fb) as (_ & -> & ->).
  rewrite <- (ltb_rank _ _ (finite_number _ Fa) (finite_number _ Fb)).
  destruct (PrimFloat.ltb (d a) (d b)); [tauto|].
  destruct (PrimFloat.ltb (d b) (d a)); split; discriminate.
Qed.

Lemma after_rank : forall a b,
  finite (d a) -> finite (d b) ->
  (after (fun a b => d a - d b) a b = true <-> lex_lt (distance_rank d b) (distance_rank d a)).
Proof.
  intros a b Fa Fb. unfold after, sort_compare.
  destruct (difference_order _ _ Fa Fb) as (_ & -> & ->).
  pose proof (ltb_rank _ _ (finite_number _ Fa) (finite_number _ Fb)) as Lab.
  rewrite <- (ltb_rank _ _ (finite_number _ Fb) (finite_number _ Fa)).
  destruct (PrimFloat.ltb (d a) (d b)).
  - split; [discriminate|]. intros H.
    apply ltb_rank in H; [|now apply finite_number|now apply finite_number].
    pose proof (proj1 Lab eq_refl) as E. now apply lex_lt_asym in E.
  - destruct (PrimFloat.ltb (d b) (d a)); tauto.
Qed.

Lemma tied_rank : forall a b,
  finite (d a) -> finite (d b) ->
  (tied (fun a b => d a - d b) a b = true <-> distance_rank d a = distance_rank d b).
Proof.
  intros a b Fa Fb. unfold tied, sort_compare.
  destruct (difference_order _ _ Fa Fb) as (_ & -> & ->).
  pose proof (ltb_rank _ _ (finite_number _ Fa) (finite_number _ Fb)) as Lab.
  pose proof (ltb_rank _ _ (finite_number _ Fb) (finite_number _ Fa)) as Lba.
  fold (distance_rank d a) in *. fold (distance_rank d b) in *.
  destruct (PrimFloat.ltb (d a) (d b)).
  - split; [discriminate|]. intros H. pose proof (proj1 Lab eq_refl) as E.
    rewrite H in E. now apply lex_lt_irrefl in E.
  - destruct (PrimFloat.ltb (d b) (d a)).
    + split; [discriminate|]. intros H. pose proof (proj1 Lba eq_refl) as E.
      rewrite H in E. now apply lex_lt_irrefl in E.
    + split; [|reflexivity]. intros _. apply lex_trichotomy.
      * intros H. apply Lab in H. discriminate.
      * intros H. apply Lba in H. discriminate.
Qed.

Lemma difference_is_consistent : forall array,
  Forall (fun a => finite (d a)) array ->
  consistent_comparator (fun a b => d a - d b) array = true.
Proof.
  intros array Hall. rewrite Forall_forall in Hall.
  unfold consistent_comparator.
  apply forallb_forall. intros a Ha. apply andb_true_intro. split.
  - apply tied_rank; auto.
  - apply forallb_forall. intros b Hb.
    apply andb_true_intro. split; [apply andb_true_intro; split|].
    + destruct (difference_order _ _ (Hall a Ha) (Hall b Hb)) as (Hn & _).
      unfold is_nan in Hn. now destruct (PrimFloat.eqb (d a - d b) (d a - d b)).
    + apply implb_intro. intros H. apply tied_rank in H; auto. apply tied_rank; auto.
    + apply forallb_forall. intros c Hc.
      apply andb_true_intro. split; [apply andb_true_intro; split|];
        apply implb_intro; intros H; apply andb_prop in H; destruct H as [H1 H2].
      * apply tied_rank in H1, H2; auto. apply tied_rank; auto. congruence.
      * apply before_rank in H1, H2; auto. apply before_rank; auto.
        eapply lex_lt_trans; eassumption.
      * apply after_rank in H1, H2; auto. apply after_rank; auto.
        eapply lex_lt_trans; eassumption.
Qed.

End Distance.

Lemma StronglySorted_among {A : Type} (R R' : A -> A -> Prop) : forall l,
  (forall a b, In a l -> In b l -> R a b -> R' a b) ->
  StronglySorted R l -> StronglySorted R' l.
Proof.
  induction l as [|x rest IH]; intros Himp Hs; [constructor|].
  inversion Hs as [|? ? Hrest Hx]; subst. constructor.
  - apply IH; [|exact Hrest]. intros a b Ha Hb. apply Himp; now right.
  - rewrite Forall_forall in *. intros b Hb. apply Himp; [now left|now right|now apply Hx].
Qed.

(** X24. The comparator that [handleSearch] passes to the sort, the
    difference of the two distances, is a consistent comparator in the sense
    of ECMA-262 on every list of results whose distances from the position
    are finite numbers, whatever the engine computes for the functions of
    [Math]: the sort order is then defined by the standard. *)
Theorem by_distance_is_consistent :
  forall (Math : App.MathObject) (position : App.Coords) (results : list App.Location),
    Forall (fun r => finite (distance_from Math position r)) results ->
    App.consistent_comparator (App.by_distance Math position) results = true.
Proof.
  intros Math position results H.
  exact (difference_is_consistent (distance_from Math position) results H).
Qed.

Lemma by_distance_is_consistent_witness :
  App.consistent_comparator (App.by_distance App.series_math origin) [far; near] = true.
Proof.
  apply (by_distance_is_consistent App.series_math origin [far; near]).
  constructor; [vm_compute; exact I|]. constructor; [vm_compute; exact I|]. constructor.
Defined.

(** X25. With a position and results whose distances from it are finite
    numbers, what [handleSearch] displays is the first 5 (or 10) of the
    results rearranged in the order of their distances, nearest first: each
    result is at most as far as every result listed after it. *)
Theorem nearest_results_come_first :
  forall (Math : App.MathObject) (results : list App.Location)
         (position : App.Coords) (expandedResults : bool),
    results <> [] ->
    Forall (fun r => finite (distance_from Math position r)) results ->
    exists ranked,
      App.handleSearch Math results (Some position) expandedResults
      = App.setLocations (firstn (if expandedResults then 10 else 5)%nat ranked) /\
      Permutation results ranked /\
      StronglySorted
        (fun a b =>
           PrimFloat.leb (distance_from Math position a) (distance_from Math position b)
           = true) ranked.
Proof.
  intros Math results position expandedResults Hne Hfinite.
  pose proof (difference_is_consistent (distance_from Math position) results Hfinite) as Hc.
  apply consistent_comparator_on in Hc.
  pose proof (Array_sort_permutation (App.by_distance Math position) results) as Hp.
  exists (App.Array_sort (App.by_distance Math position) results).
  destruct results as [|r rest]; [congruence|].
  split; [reflexivity|]. split; [exact Hp|].
  apply (StronglySorted_among
           (fun a b => App.after (App.by_distance Math position) a b = false));
    [|now apply (Array_sort_sorted (App.by_distance Math position))].
  rewrite Forall_forall in Hfinite.
  intros a b Ha Hb Hab.
  assert (Fa : finite (distance_from Math position a))
    by (apply Hfinite; now apply (Permutation_in _ (Permutation_sym Hp))).
  assert (Fb : finite (distance_from Math position b))
    by (apply Hfinite; now apply (Permutation_in _ (Permutation_sym Hp))).
  apply leb_rank; [now apply finite_number|now apply finite_number|].
  destruct (lex_total (rank (Prim2SF (distance_from Math position b)))
                      (rank (Prim2SF (distance_from Math position a)))) as [Hlt|Hle];
    [|exact Hle].
  apply (after_rank (distance_from Math position) a b Fa Fb) in Hlt.
  change (App.after (App.by_distance Math position) a b = true) in Hlt. congruence.
Qed.

Lemma nearest_results_come_first_witness :
  exists ranked,
    App.handleSearch App.series_math [far; near] (Some origin) false
    = App.setLocations (firstn 5 ranked) /\
    Permutation [far; near] ranked /\
    StronglySorted
      (fun a b =>
         PrimFloat.leb (distance_from App.series_math origin a)
                       (distance_from App.series_math origin b) = true) ranked.
Proof.
  apply (nearest_results_come_first App.series_math [far; near] origin false).
  - discriminate.
  - constructor; [vm_compute; exact I|]. constructor; [vm_compute; exact I|]. constructor.
Defined.
